(** * The persistent source library of the AI regulatory navigator

    A shallow embedding of the library subsystem of the application:
    [types.ts], [utils/db.ts] (the IndexedDB access layer), the handlers of
    [App.tsx], the form handlers of [components/KnowledgeBaseManager.tsx] and
    the error path of [services/geminiService.ts].

    React state is threaded explicitly through a record; the browser
    (clock, random generator, file reader, IndexedDB transactions, the
    generation SDK) is an environment whose answers are arguments of the
    handlers. *)

From Stdlib Require Import String Ascii NArith DecimalN.
From stdpp Require Import gmap list fin_maps sorting.

Local Open Scope N_scope.

(** ** JavaScript strings

    A JavaScript string is a sequence of UTF-16 code units. *)

Abbreviation jsstring := (list N).

Definition js (s : string) : jsstring :=
  N_of_ascii <$> list_ascii_of_string s.

(** A string is truthy when it is not empty. *)
Definition truthy (s : jsstring) : bool :=
  match s with [] => false | _ :: _ => true end.

(** [WhiteSpace] and [LineTerminator] code units of ECMAScript, the ones
    [String.prototype.trim] strips. *)
Definition isTrimUnit (c : N) : bool :=
  (c =? 9) || (c =? 10) || (c =? 11) || (c =? 12) || (c =? 13) || (c =? 32)
  || (c =? 160) || (c =? 5760) || ((8192 <=? c) && (c <=? 8202))
  || (c =? 8232) || (c =? 8233) || (c =? 8239) || (c =? 8287)
  || (c =? 12288) || (c =? 65279).

Fixpoint trimStart (s : jsstring) : jsstring :=
  match s with
  | [] => []
  | c :: r => if isTrimUnit c then trimStart r else s
  end.

Fixpoint trimEnd (s : jsstring) : jsstring :=
  match s with
  | [] => []
  | c :: r =>
      match trimEnd r with
      | [] => if isTrimUnit c then [] else [c]
      | r' => c :: r'
      end
  end.

Definition trim (s : jsstring) : jsstring := trimEnd (trimStart s).

(** [s.substr(start, len)] for non-negative arguments. *)
Definition substr (start len : nat) (s : jsstring) : jsstring :=
  take len (drop start s).

Fixpoint isPrefixOf (p s : jsstring) : bool :=
  match p, s with
  | [], _ => true
  | _ :: _, [] => false
  | a :: p', b :: s' => (a =? b) && isPrefixOf p' s'
  end.

(** [s.includes(needle)]. *)
Fixpoint includes (needle s : jsstring) : bool :=
  isPrefixOf needle s ||
  match s with
  | [] => false
  | _ :: r => includes needle r
  end.

(** Decimal rendering of a non-negative integer, as [Number.prototype.toString]
    gives for [Date.now()]. *)
Fixpoint digitsOf (d : Decimal.uint) : jsstring :=
  match d with
  | Decimal.Nil => []
  | Decimal.D0 r => 48 :: digitsOf r
  | Decimal.D1 r => 49 :: digitsOf r
  | Decimal.D2 r => 50 :: digitsOf r
  | Decimal.D3 r => 51 :: digitsOf r
  | Decimal.D4 r => 52 :: digitsOf r
  | Decimal.D5 r => 53 :: digitsOf r
  | Decimal.D6 r => 54 :: digitsOf r
  | Decimal.D7 r => 55 :: digitsOf r
  | Decimal.D8 r => 56 :: digitsOf r
  | Decimal.D9 r => 57 :: digitsOf r
  end.

Definition toString (n : N) : jsstring := digitsOf (N.to_uint n).

(** ** [types.ts] *)

Inductive MessageSender := USER | MODEL | SYSTEM.

Record UrlContextMetadataItem := {
  retrievedUrl : jsstring;
  urlRetrievalStatus : jsstring
}.

Record FileAttachment := {
  att_name : jsstring;
  att_mimeType : jsstring;
  att_data : jsstring
}.

Inductive SourceType := type_url | type_file.

Record ReferenceSource := {
  src_id : jsstring;
  src_type : SourceType;
  src_title : jsstring;
  src_url : option jsstring;
  src_mimeType : option jsstring
}.

Record ChatMessage := {
  msg_id : jsstring;
  msg_text : jsstring;
  msg_sender : MessageSender;
  msg_timestamp : N;
  msg_isLoading : option bool;
  msg_urlContext : option (list UrlContextMetadataItem);
  msg_attachments : option (list FileAttachment)
}.

Record URLGroup := {
  grp_id : jsstring;
  grp_name : jsstring;
  grp_sources : list ReferenceSource
}.

#[global] Instance SourceType_eq_dec : EqDecision SourceType.
Proof. solve_decision. Defined.

#[global] Instance ReferenceSource_eq_dec : EqDecision ReferenceSource.
Proof. solve_decision. Defined.

#[global] Instance URLGroup_eq_dec : EqDecision URLGroup.
Proof. solve_decision. Defined.

(** ** [utils/db.ts]: the blob store *)

Record StoredFile := {
  sf_id : jsstring;
  sf_name : jsstring;
  sf_mimeType : jsstring;
  sf_data : jsstring;
  sf_date : N
}.

(** How the IndexedDB work behind one call ends.  Every function of
    [db.ts] settles its promise from two handlers only: the one for success
    and the [onerror] of the transaction or request.  The open request has
    no [onerror] and the transaction no [onabort]; when one of these fires
    the promise is never settled. *)
Inductive TxOutcome := TxComplete | TxError | TxUnsettled.

Inductive Thrown :=
| ThrownError (message : jsstring)
| ThrownValue.

Inductive Promise (A : Type) :=
| Resolved (a : A)
| Rejected (e : Thrown)
| Pending.
Arguments Resolved {A} a.
Arguments Rejected {A} e.
Arguments Pending {A}.

(** The object store ['files'], keyed by [id] ([keyPath: 'id']). *)
Abbreviation BlobStore := (gmap (list N) StoredFile).

Definition saveFileToDB (o : TxOutcome) (file : StoredFile) (db : BlobStore)
  : BlobStore * Promise unit :=
  match o with
  | TxComplete => (<[sf_id file := file]> db, Resolved tt)
  | TxError => (db, Rejected ThrownValue)
  | TxUnsettled => (db, Pending)
  end.

(** The order of the keys of an object store: strings compare by their code
    units, the shorter of two that agree so far first. *)
Fixpoint keyLeb (a b : jsstring) : bool :=
  match a, b with
  | [], _ => true
  | _ :: _, [] => false
  | x :: a', y :: b' =>
      if x <? y then true else if y <? x then false else keyLeb a' b'
  end.

Fixpoint insertByKey (kv : jsstring * StoredFile)
    (l : list (jsstring * StoredFile)) : list (jsstring * StoredFile) :=
  match l with
  | [] => [kv]
  | kv' :: rest =>
      if keyLeb kv.1 kv'.1 then kv :: l else kv' :: insertByKey kv rest
  end.

Definition sortByKey (l : list (jsstring * StoredFile))
  : list (jsstring * StoredFile) :=
  foldr insertByKey [] l.

(** The records of the store in ascending order of their keys, as
    [store.getAll()] gives them. *)
Definition recordsByKey (db : BlobStore) : list StoredFile :=
  (sortByKey (map_to_list db)).*2.

Definition getAllFilesFromDB (o : TxOutcome) (db : BlobStore)
  : Promise (list StoredFile) :=
  match o with
  | TxComplete => Resolved (recordsByKey db)
  | TxError => Rejected ThrownValue
  | TxUnsettled => Pending
  end.

Definition getFileFromDB (o : TxOutcome) (id : jsstring) (db : BlobStore)
  : Promise (option StoredFile) :=
  match o with
  | TxComplete => Resolved (db !! id)
  | TxError => Rejected ThrownValue
  | TxUnsettled => Pending
  end.

Definition deleteFileFromDB (o : TxOutcome) (id : jsstring) (db : BlobStore)
  : BlobStore * Promise unit :=
  match o with
  | TxComplete => (delete id db, Resolved tt)
  | TxError => (db, Rejected ThrownValue)
  | TxUnsettled => (db, Pending)
  end.

(** ** [services/geminiService.ts]: the generation client *)

Record GroundingChunk := { chunk_web : option jsstring }.

Record Candidate := {
  groundingChunks : option (list GroundingChunk);
  urlMetadata : option (list UrlContextMetadataItem)
}.

(** [response.text] and [response.candidates?.[0]]. *)
Record GenerateContentResponse := {
  resp_text : option jsstring;
  resp_candidate : option Candidate
}.

Record GeminiResponse := {
  text : jsstring;
  urlContextMetadata : option (list UrlContextMetadataItem)
}.

(** What [currentAi.models.generateContent] does: the SDK is external. *)
Inductive SdkOutcome :=
| SdkReturns (r : GenerateContentResponse)
| SdkThrows (e : Thrown)
| SdkUnsettled.

Record GeminiEnv := {
  API_KEY : option jsstring;
  sdk : SdkOutcome
}.

(** The calls a handler issues on the stores, on the group list, on the user
    and on the SDK, in the order in which it issues them. *)
Inductive Event :=
| EvSaveFile (id : jsstring)
| EvDeleteFile (id : jsstring)
| EvSetUrlGroups
| EvAlert (message : jsstring)
| EvGenerateContent (prompt : jsstring) (urls : list jsstring)
    (files : list FileAttachment).

Definition extractUrlContextMetadata (candidate : option Candidate)
  : option (list UrlContextMetadataItem) :=
  match candidate with
  | None => None
  | Some c =>
      match groundingChunks c with
      | Some chunks =>
          Some (omap (fun chunk =>
                  match chunk_web chunk with
                  | Some uri =>
                      Some {| retrievedUrl := uri;
                              urlRetrievalStatus :=
                                js "URL_RETRIEVAL_STATUS_SUCCESS" |}
                  | None => None
                  end) chunks)
      | None => urlMetadata c
      end
  end.

(** The [catch] block of [generateContentWithUrlContext]: every error is
    thrown again as an [Error] with a message of the service's own. *)
Definition rethrow (error : Thrown) : Thrown :=
  match error with
  | ThrownError message =>
      if truthy message && includes (js "API key not valid") message then
        ThrownError (js "Invalid API Key. Please check your GEMINI_API_KEY environment variable.")
      else if truthy message && includes (js "quota") message then
        ThrownError (js "API quota exceeded. Please check your Gemini API quota.")
      else
        ThrownError (js "Failed to get response from AI: " ++ message)
  | ThrownValue =>
      ThrownError (js "Failed to get response from AI due to an unknown error.")
  end.

Definition generateContentWithUrlContext (env : GeminiEnv)
    (prompt : jsstring) (urls : list jsstring) (files : list FileAttachment)
  : list Event * Promise GeminiResponse :=
  match API_KEY env with
  | None | Some [] =>
      ([], Rejected (ThrownError
             (js "Gemini API Key not configured. Set process.env.API_KEY.")))
  | Some (_ :: _) =>
      ([EvGenerateContent prompt urls files],
       match sdk env with
       | SdkReturns response =>
           Resolved {| text := default [] (resp_text response);
                       urlContextMetadata :=
                         extractUrlContextMetadata (resp_candidate response) |}
       | SdkThrows error => Rejected (rethrow error)
       | SdkUnsettled => Pending
       end)
  end.

(** ** [App.tsx] *)

Definition INITIAL_URL_GROUPS : list URLGroup :=
  [ {| grp_id := js "default-library";
       grp_name := js "My Knowledge Library";
       grp_sources := [] |} ].

Definition MAX_ITEMS : nat := 50.

(** The state of the [App] component together with the two browser stores it
    persists to: the value under [STORAGE_KEY] in [localStorage] and the
    object store of IndexedDB. *)
Record AppState := {
  urlGroups : list URLGroup;
  activeUrlGroupId : jsstring;
  chatMessages : list ChatMessage;
  isLoading : bool;
  localStorage : option (list URLGroup);
  indexedDB : BlobStore;
  trace : list Event
}.

Definition setUrlGroups (f : list URLGroup -> list URLGroup) (s : AppState)
  : AppState :=
  {| urlGroups := f (urlGroups s);
     activeUrlGroupId := activeUrlGroupId s;
     chatMessages := chatMessages s;
     isLoading := isLoading s;
     localStorage := localStorage s;
     indexedDB := indexedDB s;
     trace := trace s ++ [EvSetUrlGroups] |}.

Definition setChatMessages (f : list ChatMessage -> list ChatMessage)
    (s : AppState) : AppState :=
  {| urlGroups := urlGroups s;
     activeUrlGroupId := activeUrlGroupId s;
     chatMessages := f (chatMessages s);
     isLoading := isLoading s;
     localStorage := localStorage s;
     indexedDB := indexedDB s;
     trace := trace s |}.

Definition setIsLoading (b : bool) (s : AppState) : AppState :=
  {| urlGroups := urlGroups s;
     activeUrlGroupId := activeUrlGroupId s;
     chatMessages := chatMessages s;
     isLoading := b;
     localStorage := localStorage s;
     indexedDB := indexedDB s;
     trace := trace s |}.

Definition setActiveUrlGroupId (g : jsstring) (s : AppState) : AppState :=
  {| urlGroups := urlGroups s;
     activeUrlGroupId := g;
     chatMessages := chatMessages s;
     isLoading := isLoading s;
     localStorage := localStorage s;
     indexedDB := indexedDB s;
     trace := trace s |}.

(** A transaction on the object store, with the event it leaves. *)
Definition withDB (db : BlobStore) (ev : Event) (s : AppState) : AppState :=
  {| urlGroups := urlGroups s;
     activeUrlGroupId := activeUrlGroupId s;
     chatMessages := chatMessages s;
     isLoading := isLoading s;
     localStorage := localStorage s;
     indexedDB := db;
     trace := trace s ++ [ev] |}.

Definition emit (evs : list Event) (s : AppState) : AppState :=
  {| urlGroups := urlGroups s;
     activeUrlGroupId := activeUrlGroupId s;
     chatMessages := chatMessages s;
     isLoading := isLoading s;
     localStorage := localStorage s;
     indexedDB := indexedDB s;
     trace := trace s ++ evs |}.

(** The effect that persists the metadata: it runs after the first render
    and after every render in which [urlGroups] changed, and a failing
    [setItem] is only logged. *)
Definition persistMetadata (ok : bool) (s : AppState) : AppState :=
  {| urlGroups := urlGroups s;
     activeUrlGroupId := activeUrlGroupId s;
     chatMessages := chatMessages s;
     isLoading := isLoading s;
     localStorage := if ok then Some (urlGroups s) else localStorage s;
     indexedDB := indexedDB s;
     trace := trace s |}.

(** An asynchronous handler runs to its end, or stays parked for ever on a
    promise that is never settled, or lets an exception escape to React,
    which then unmounts the component; each with the state as it left it. *)
Inductive Run :=
| Finished (s : AppState)
| Parked (s : AppState)
| Crashed (s : AppState).

(** [urlGroups.find(g => g.id === activeUrlGroupId) || urlGroups[0]]; the
    component cannot render without a group. *)
Definition activeGroup (s : AppState) : option URLGroup :=
  match List.find (fun g => bool_decide (grp_id g = activeUrlGroupId s))
          (urlGroups s) with
  | Some g => Some g
  | None => head (urlGroups s)
  end.

Definition activeSources (s : AppState) : list ReferenceSource :=
  match activeGroup s with
  | Some g => grp_sources g
  | None => []
  end.

(** [Math.random().toString(36).substr(2, 9)], from the rendering [r36] of
    the random number in base 36. *)
Definition randomSuffix (r36 : jsstring) : jsstring := substr 2 9 r36.

Definition freshId (prefix : string) (now : N) (r36 : jsstring) : jsstring :=
  js prefix ++ toString now ++ js "-" ++ randomSuffix r36.

(** [prevGroups.map] of the two add handlers: the source goes to the end of
    every group whose id is the active one. *)
Definition appendToGroup (gid : jsstring) (newSource : ReferenceSource)
    (prevGroups : list URLGroup) : list URLGroup :=
  (fun group =>
     if bool_decide (grp_id group = gid) then
       {| grp_id := grp_id group;
          grp_name := grp_name group;
          grp_sources := grp_sources group ++ [newSource] |}
     else group) <$> prevGroups.

Definition urlSource (id url : jsstring) : ReferenceSource :=
  {| src_id := id; src_type := type_url; src_title := url;
     src_url := Some url; src_mimeType := None |}.

Definition handleAddSource (now : N) (r36 : jsstring) (url : jsstring)
    (s : AppState) : AppState :=
  let newSource := urlSource (freshId "src-" now r36) url in
  setUrlGroups (appendToGroup (activeUrlGroupId s) newSource) s.

(** A [File] as the handlers use it; its content comes through the reader. *)
Record File := {
  file_name : jsstring;
  file_type : jsstring
}.

(** What [FileReader.readAsDataURL] ends with.  A loaded result is the data
    URL [header ++ "," ++ payload], whose [header] is free of commas. *)
Inductive ReaderOutcome :=
| ReaderLoad (header payload : jsstring)
| ReaderError
| ReaderUnsettled.

Fixpoint untilComma (s : jsstring) : jsstring :=
  match s with
  | [] => []
  | c :: r => if c =? 44 then [] else c :: untilComma r
  end.

(** [result.split(',')[1]]. *)
Definition fileToBase64 (r : ReaderOutcome) : Promise jsstring :=
  match r with
  | ReaderLoad _ payload => Resolved (untilComma payload)
  | ReaderError => Rejected ThrownValue
  | ReaderUnsettled => Pending
  end.

Record AddFileEnv := {
  reader : ReaderOutcome;
  addNow : N;
  addRandom : jsstring;
  addDate : N;
  putOutcome : TxOutcome
}.

Definition fileSource (id : jsstring) (file : File) : ReferenceSource :=
  {| src_id := id; src_type := type_file; src_title := file_name file;
     src_url := None; src_mimeType := Some (file_type file) |}.

Definition saveFailed (s : AppState) : AppState :=
  emit [EvAlert (js "Failed to save file to library.")] s.

Definition handleAddPersistentFile (env : AddFileEnv) (file : File)
    (s : AppState) : Run :=
  match fileToBase64 (reader env) with
  | Resolved base64 =>
      let id := freshId "file-" (addNow env) (addRandom env) in
      let storedFile :=
        {| sf_id := id; sf_name := file_name file;
           sf_mimeType := file_type file; sf_data := base64;
           sf_date := addDate env |} in
      let '(db, saved) := saveFileToDB (putOutcome env) storedFile (indexedDB s) in
      let s1 := withDB db (EvSaveFile id) s in
      match saved with
      | Resolved _ =>
          Finished (setUrlGroups
                      (appendToGroup (activeUrlGroupId s) (fileSource id file)) s1)
      | Rejected _ => Finished (saveFailed s1)
      | Pending => Parked s1
      end
  | Rejected _ => Finished (saveFailed s)
  | Pending => Parked s
  end.

Definition hasId (sourceId : jsstring) (source : ReferenceSource) : bool :=
  bool_decide (src_id source = sourceId).

Definition removeFromGroups (sourceId : jsstring) (prevGroups : list URLGroup)
  : list URLGroup :=
  (fun g =>
     {| grp_id := grp_id g;
        grp_name := grp_name g;
        grp_sources := List.filter (fun s => negb (hasId sourceId s))
                         (grp_sources g) |}) <$> prevGroups.

(** [group?.sources.find(...)] for the first group that holds the id. *)
Definition findSource (sourceId : jsstring) (groups : list URLGroup)
  : option ReferenceSource :=
  match List.find (fun g => existsb (hasId sourceId) (grp_sources g)) groups with
  | Some group => List.find (hasId sourceId) (grp_sources group)
  | None => None
  end.

Definition handleRemoveSource (o : TxOutcome) (sourceId : jsstring)
    (s : AppState) : Run :=
  let remove := setUrlGroups (removeFromGroups sourceId) in
  match findSource sourceId (urlGroups s) with
  | Some {| src_type := type_file |} =>
      let '(db, deleted) := deleteFileFromDB o sourceId (indexedDB s) in
      let s1 := withDB db (EvDeleteFile sourceId) s in
      match deleted with
      | Resolved _ | Rejected _ => Finished (remove s1)
      | Pending => Parked s1
      end
  | _ => Finished (remove s)
  end.

Definition renameInGroups (sourceId newTitle : jsstring)
    (prevGroups : list URLGroup) : list URLGroup :=
  (fun group =>
     {| grp_id := grp_id group;
        grp_name := grp_name group;
        grp_sources :=
          (fun s =>
             if hasId sourceId s then
               {| src_id := src_id s; src_type := src_type s;
                  src_title := newTitle; src_url := src_url s;
                  src_mimeType := src_mimeType s |}
             else s) <$> grp_sources group |}) <$> prevGroups.

Definition handleRenameSource (sourceId newTitle : jsstring) (s : AppState)
  : AppState :=
  setUrlGroups (renameInGroups sourceId newTitle) s.

(** *** Context assembly and the chat turn *)

(** The loop over [activeSources] at the head of [handleSendMessage].
    [reads k] is the outcome of the [k]-th lookup in the object store; the
    result is [None] when a lookup is never settled, for then the loop never
    ends. *)
Fixpoint gatherContext (reads : nat -> TxOutcome) (db : BlobStore) (k : nat)
    (sources : list ReferenceSource)
    (urls : list jsstring) (filesToSend : list FileAttachment)
  : option (list jsstring * list FileAttachment) :=
  match sources with
  | [] => Some (urls, filesToSend)
  | source :: rest =>
      match src_type source, src_url source with
      | type_url, Some (c :: u) =>
          gatherContext reads db k rest (urls ++ [c :: u]) filesToSend
      | type_url, _ => gatherContext reads db k rest urls filesToSend
      | type_file, _ =>
          match getFileFromDB (reads k) (src_id source) db with
          | Resolved (Some dbFile) =>
              gatherContext reads db (S k) rest urls
                (filesToSend ++ [ {| att_name := src_title source;
                                     att_mimeType := sf_mimeType dbFile;
                                     att_data := sf_data dbFile |} ])
          | Resolved None | Rejected _ =>
              gatherContext reads db (S k) rest urls filesToSend
          | Pending => None
          end
      end
  end.

Record SendEnv := {
  reads : nat -> TxOutcome;
  userNow : N;
  userDate : N;
  placeholderNow : N;
  placeholderDate : N;
  gemini : GeminiEnv
}.

Definition APOLOGY : jsstring :=
  js "Apologies, I encountered a diplomatic communication error. Please ensure your files are valid and try again.".

Definition resolveWith (placeholderMessageId : jsstring)
    (response : GeminiResponse) (prev : list ChatMessage) : list ChatMessage :=
  (fun msg =>
     if bool_decide (msg_id msg = placeholderMessageId) then
       {| msg_id := msg_id msg; msg_text := text response;
          msg_sender := msg_sender msg; msg_timestamp := msg_timestamp msg;
          msg_isLoading := Some false;
          msg_urlContext := urlContextMetadata response;
          msg_attachments := msg_attachments msg |}
     else msg) <$> prev.

Definition resolveWithApology (placeholderMessageId : jsstring)
    (prev : list ChatMessage) : list ChatMessage :=
  (fun msg =>
     if bool_decide (msg_id msg = placeholderMessageId) then
       {| msg_id := msg_id msg; msg_text := APOLOGY;
          msg_sender := msg_sender msg; msg_timestamp := msg_timestamp msg;
          msg_isLoading := Some false;
          msg_urlContext := msg_urlContext msg;
          msg_attachments := msg_attachments msg |}
     else msg) <$> prev.

Definition handleSendMessage (env : SendEnv) (query : jsstring)
    (tempAttachments : list FileAttachment) (s : AppState) : Run :=
  let s0 := setIsLoading true s in
  match gatherContext (reads env) (indexedDB s0) 0 (activeSources s0)
          [] tempAttachments with
  | None => Parked s0
  | Some (urls, filesToSend) =>
      let userMessage :=
        {| msg_id := toString (userNow env); msg_text := query;
           msg_sender := USER; msg_timestamp := userDate env;
           msg_isLoading := None; msg_urlContext := None;
           msg_attachments := Some tempAttachments |} in
      let s1 := setChatMessages (fun prev => prev ++ [userMessage]) s0 in
      let placeholderMessageId := toString (placeholderNow env + 1) in
      let placeholderMessage :=
        {| msg_id := placeholderMessageId; msg_text := [];
           msg_sender := MODEL; msg_timestamp := placeholderDate env;
           msg_isLoading := Some true; msg_urlContext := None;
           msg_attachments := None |} in
      let s2 := setChatMessages (fun prev => prev ++ [placeholderMessage]) s1 in
      let '(calls, generated) :=
        generateContentWithUrlContext (gemini env) query urls filesToSend in
      let s3 := emit calls s2 in
      match generated with
      | Resolved response =>
          Finished (setIsLoading false
                      (setChatMessages (resolveWith placeholderMessageId response) s3))
      | Rejected _ =>
          Finished (setIsLoading false
                      (setChatMessages (resolveWithApology placeholderMessageId) s3))
      | Pending => Parked s3
      end
  end.

(** *** Start-up reconciliation *)

Definition isKnown (fileId : jsstring) (groups : list URLGroup) : bool :=
  existsb (fun g => existsb (hasId fileId) (grp_sources g)) groups.

(** The position of
    [newGroups.find(g => g.id === 'default-library') || newGroups[0]]. *)
Fixpoint findIndex (gid : jsstring) (groups : list URLGroup) : option nat :=
  match groups with
  | [] => None
  | g :: rest =>
      if bool_decide (grp_id g = gid) then Some 0%nat
      else S <$> findIndex gid rest
  end.

Definition defaultGroupIndex (newGroups : list URLGroup) : option nat :=
  match findIndex (js "default-library") newGroups with
  | Some i => Some i
  | None => match newGroups with [] => None | _ :: _ => Some 0%nat end
  end.

(** [defaultGroup.sources.push(x)]: the group object is shared with
    [newGroups], so the push shows in the list that [isKnown] reads. *)
Definition pushSource (i : nat) (x : ReferenceSource) (groups : list URLGroup)
  : list URLGroup :=
  alter (fun g => {| grp_id := grp_id g; grp_name := grp_name g;
                     grp_sources := grp_sources g ++ [x] |}) i groups.

Definition orphanSource (file : StoredFile) : ReferenceSource :=
  {| src_id := sf_id file; src_type := type_file; src_title := sf_name file;
     src_url := None; src_mimeType := Some (sf_mimeType file) |}.

(** [dbFiles.forEach]; [None] is the [TypeError] of a push on an undefined
    default group. *)
Fixpoint syncFiles (defaultGroup : option nat) (dbFiles : list StoredFile)
    (newGroups : list URLGroup) : option (list URLGroup) :=
  match dbFiles with
  | [] => Some newGroups
  | file :: rest =>
      if isKnown (sf_id file) newGroups then syncFiles defaultGroup rest newGroups
      else
        match defaultGroup with
        | Some i => syncFiles defaultGroup rest (pushSource i (orphanSource file) newGroups)
        | None => None
        end
  end.

(** The updater that [initializeData] hands to [setUrlGroups]. *)
Definition reconcile (groups : list URLGroup) (dbFiles : list StoredFile)
  : option (list URLGroup) :=
  syncFiles (defaultGroupIndex groups) dbFiles groups.

Record InitEnv := {
  initOutcome : TxOutcome;
  getAllOutcome : TxOutcome
}.

(** [initializeData], from the point where it goes on after [await initDB()]:
    it reads the key of the metadata as it is then.  Every failure before
    the updater is caught and logged; the updater runs in React, outside the
    [try] block. *)
Definition initializeData (env : InitEnv) (s : AppState) : Run :=
  match initOutcome env with
  | TxError => Finished s
  | TxUnsettled => Parked s
  | TxComplete =>
      let groups := default INITIAL_URL_GROUPS (localStorage s) in
      match getAllFilesFromDB (getAllOutcome env) (indexedDB s) with
      | Resolved dbFiles =>
          match reconcile groups dbFiles with
          | Some newGroups => Finished (setUrlGroups (fun _ => newGroups) s)
          | None => Crashed s
          end
      | Rejected _ => Finished s
      | Pending => Parked s
      end
  end.

(** The first render: [useState(INITIAL_URL_GROUPS)], an empty transcript,
    and what the browser holds from before. *)
Definition mountState (saved : option (list URLGroup)) (db : BlobStore)
  : AppState :=
  {| urlGroups := INITIAL_URL_GROUPS;
     activeUrlGroupId := js "default-library";
     chatMessages := [];
     isLoading := false;
     localStorage := saved;
     indexedDB := db;
     trace := [] |}.

(** The effects of the mount run in the order in which they are declared:
    [initializeData] is called and waits at [await initDB()]; the effect
    that persists the metadata then writes the group list of the first
    render under the key; only after that [initializeData] goes on and reads
    the key. *)
Definition mount (setItemOk : bool) (env : InitEnv) (s : AppState) : Run :=
  initializeData env (persistMetadata setItemOk s).

(** ** [components/KnowledgeBaseManager.tsx] *)

Record FormState := {
  currentUrlInput : jsstring;
  showUrlInput : bool;
  error : option jsstring;
  editingSourceId : option jsstring;
  editTitleInput : jsstring
}.

(** The calls the component makes on the callbacks it receives as
    properties. *)
Inductive PropCall :=
| OnAddUrl (url : jsstring)
| OnAddFile (file : File)
| OnRemoveSource (id : jsstring)
| OnRenameSource (id newTitle : jsstring).

Section KnowledgeBaseManager.

(** The properties of the component that its handlers read.
    [parsesAsURL u] tells whether [new URL(u)] returns: the parser is the
    browser's. *)
Variable parsesAsURL : jsstring -> bool.
Variable sources : list ReferenceSource.
Variable maxItems : nat.

Definition isValidUrl (urlString : jsstring) : bool := parsesAsURL urlString.

Definition setError (e : option jsstring) (f : FormState) : FormState :=
  {| currentUrlInput := currentUrlInput f; showUrlInput := showUrlInput f;
     error := e; editingSourceId := editingSourceId f;
     editTitleInput := editTitleInput f |}.

Definition handleAddUrl (f : FormState) : FormState * option PropCall :=
  if negb (truthy (trim (currentUrlInput f))) then
    (setError (Some (js "URL cannot be empty.")) f, None)
  else if negb (isValidUrl (currentUrlInput f)) then
    (setError (Some (js "Invalid URL format. Please include http:// or https://")) f,
     None)
  else if bool_decide (maxItems <= length sources)%nat then
    (setError (Some (js "Maximum limit reached.")) f, None)
  else
    ({| currentUrlInput := []; showUrlInput := false; error := None;
        editingSourceId := editingSourceId f;
        editTitleInput := editTitleInput f |},
     Some (OnAddUrl (currentUrlInput f))).

(** [handleFileSelect] on the files of the input element. *)
Definition handleFileSelect (files : list File) (f : FormState)
  : FormState * option PropCall :=
  match files with
  | [] => (f, None)
  | file :: _ =>
      if negb (bool_decide (file_type file = js "application/pdf")) then
        (setError (Some (js "Only PDF files are currently supported for the library.")) f,
         None)
      else if bool_decide (maxItems <= length sources)%nat then
        (setError (Some (js "Maximum limit reached.")) f, None)
      else (setError None f, Some (OnAddFile file))
  end.

Definition saveEditing (f : FormState) : FormState * option PropCall :=
  match editingSourceId f with
  | Some (c :: id) =>
      if truthy (trim (editTitleInput f)) then
        ({| currentUrlInput := currentUrlInput f;
            showUrlInput := showUrlInput f; error := error f;
            editingSourceId := None; editTitleInput := [] |},
         Some (OnRenameSource (c :: id) (trim (editTitleInput f))))
      else (f, None)
  | _ => (f, None)
  end.

End KnowledgeBaseManager.

(** ** The library operations, as [App] wires the component

    [sources={activeSources}], [maxItems={MAX_ITEMS}],
    [onAddUrl={handleAddSource}], [onAddFile={handleAddPersistentFile}],
    [onRenameSource={handleRenameSource}]. *)

Definition addUrlSource (parsesAsURL : jsstring -> bool) (now : N)
    (r36 : jsstring) (f : FormState) (s : AppState) : FormState * AppState :=
  match handleAddUrl parsesAsURL (activeSources s) MAX_ITEMS f with
  | (f', Some (OnAddUrl url)) => (f', handleAddSource now r36 url s)
  | (f', _) => (f', s)
  end.

Definition addFileSource (env : AddFileEnv) (files : list File)
    (f : FormState) (s : AppState) : FormState * Run :=
  match handleFileSelect (activeSources s) MAX_ITEMS files f with
  | (f', Some (OnAddFile file)) => (f', handleAddPersistentFile env file s)
  | (f', _) => (f', Finished s)
  end.

Definition renameSource (f : FormState) (s : AppState) : FormState * AppState :=
  match saveEditing f with
  | (f', Some (OnRenameSource id newTitle)) =>
      (f', handleRenameSource id newTitle s)
  | (f', _) => (f', s)
  end.

(** ** Vocabulary of the statements *)

Definition stateOf (r : Run) : AppState :=
  match r with Finished s | Parked s | Crashed s => s end.

(** The events a handler added when it took [s] to [s']. *)
Definition newEvents (s s' : AppState) : list Event :=
  drop (length (trace s)) (trace s').

Definition allSources (groups : list URLGroup) : list ReferenceSource :=
  groups ≫= grp_sources.

Definition allIds (groups : list URLGroup) : list jsstring :=
  src_id <$> allSources groups.

Definition initialState : AppState :=
  {| urlGroups := INITIAL_URL_GROUPS;
     activeUrlGroupId := js "default-library";
     chatMessages := [];
     isLoading := false;
     localStorage := None;
     indexedDB := ∅;
     trace := [] |}.

(** Sequences of additions. *)
Inductive AddOp :=
| AddUrl (now : N) (r36 : jsstring) (url : jsstring)
| AddFile (env : AddFileEnv) (file : File).

Definition runAdd (op : AddOp) (s : AppState) : AppState :=
  match op with
  | AddUrl now r36 url => handleAddSource now r36 url s
  | AddFile env file => stateOf (handleAddPersistentFile env file s)
  end.

Definition runAdds (ops : list AddOp) (s : AppState) : AppState :=
  foldl (fun acc op => runAdd op acc) s ops.

(** What an addition draws from the clock and the random generator, and the
    id it makes of it. *)
Definition draw (op : AddOp) : bool * N * jsstring :=
  match op with
  | AddUrl now r36 _ => (true, now, randomSuffix r36)
  | AddFile env _ => (false, addNow env, randomSuffix (addRandom env))
  end.

Definition generatedId (op : AddOp) : jsstring :=
  match op with
  | AddUrl now r36 _ => freshId "src-" now r36
  | AddFile env _ => freshId "file-" (addNow env) (addRandom env)
  end.

(** The assembled context in the words of the design: the URLs of the url
    descriptors in order, and after the attachments of the turn one
    attachment for every file descriptor whose blob is found. *)
Definition urlsOf (sources : list ReferenceSource) : list jsstring :=
  omap (fun d =>
          match src_type d, src_url d with
          | type_url, Some (c :: u) => Some (c :: u)
          | _, _ => None
          end) sources.

Definition attachmentsOf (db : BlobStore) (sources : list ReferenceSource)
  : list FileAttachment :=
  omap (fun d =>
          match src_type d with
          | type_file =>
              blob ← db !! src_id d;
              Some {| att_name := src_title d;
                      att_mimeType := sf_mimeType blob;
                      att_data := sf_data blob |}
          | type_url => None
          end) sources.

Definition allComplete : nat -> TxOutcome := fun _ => TxComplete.

Definition fileCount (sources : list ReferenceSource) : nat :=
  length (List.filter (fun d => bool_decide (src_type d = type_file)) sources).

(** [x] has been put at the end of a group of [groups]. *)
Definition appended (x : ReferenceSource) (groups groups' : list URLGroup)
  : Prop :=
  exists i g g',
    groups !! i = Some g /\ groups' !! i = Some g'
    /\ grp_sources g' = grp_sources g ++ [x].

(** The blob that [handleAddPersistentFile] stores has been written. *)
Definition written (env : AddFileEnv) (base64 : jsstring) : Prop :=
  fileToBase64 (reader env) = Resolved base64 /\ putOutcome env = TxComplete.

(** The generation client fails: the key is not configured, or the SDK
    throws. *)
Definition generationFails (g : GeminiEnv) : Prop :=
  API_KEY g = None \/ API_KEY g = Some [] \/ exists e, sdk g = SdkThrows e.

(** Sample data: a library with one link and one uploaded document. *)

Definition sampleUrl : jsstring := js "https://example.com/act.pdf".

Definition sampleUpload : File :=
  {| file_name := js "reg.pdf"; file_type := js "application/pdf" |}.

Definition sampleUrlSource : ReferenceSource :=
  urlSource (js "src-1730486400000-4fzyo82mv") sampleUrl.

Definition sampleFileSource : ReferenceSource :=
  fileSource (js "file-1730486400001-k3x9q0b7a") sampleUpload.

Definition sampleBlob : StoredFile :=
  {| sf_id := js "file-1730486400001-k3x9q0b7a"; sf_name := js "reg.pdf";
     sf_mimeType := js "application/pdf"; sf_data := js "JVBERi0xLjQK";
     sf_date := 1730486400001 |}.

Definition sampleGroup : URLGroup :=
  {| grp_id := js "default-library";
     grp_name := js "My Knowledge Library";
     grp_sources := [sampleUrlSource; sampleFileSource] |}.

Definition sampleState : AppState :=
  {| urlGroups := [sampleGroup];
     activeUrlGroupId := js "default-library";
     chatMessages := [];
     isLoading := false;
     localStorage := Some [sampleGroup];
     indexedDB := {[ sf_id sampleBlob := sampleBlob ]};
     trace := [] |}.

Definition sampleAddEnv : AddFileEnv :=
  {| reader := ReaderLoad (js "data:application/pdf;base64") (js "JVBERi0xLjQK");
     addNow := 1730486400001;
     addRandom := js "0.k3x9q0b7a1c";
     addDate := 1730486400001;
     putOutcome := TxComplete |}.

(** A library whose only group is full. *)
Definition fullState : AppState :=
  {| urlGroups :=
       [ {| grp_id := js "default-library";
            grp_name := js "My Knowledge Library";
            grp_sources := replicate MAX_ITEMS sampleUrlSource |} ];
     activeUrlGroupId := js "default-library";
     chatMessages := [];
     isLoading := false;
     localStorage := None;
     indexedDB := ∅;
     trace := [] |}.

(** A stand-in for the URL parser of the browser in the examples. *)
Definition sampleParser (u : jsstring) : bool :=
  isPrefixOf (js "https://") u || isPrefixOf (js "http://") u.

Definition urlForm (u : jsstring) : FormState :=
  {| currentUrlInput := u; showUrlInput := true; error := None;
     editingSourceId := None; editTitleInput := [] |}.

Definition sampleSendEnv (g : GeminiEnv) : SendEnv :=
  {| reads := allComplete;
     userNow := 1730486400100; userDate := 1730486400100;
     placeholderNow := 1730486400100; placeholderDate := 1730486400100;
     gemini := g |}.

Definition quotaExceeded : GeminiEnv :=
  {| API_KEY := Some (js "key");
     sdk := SdkThrows (ThrownError (js "429: quota exhausted")) |}.

(** ** The rest of [services/geminiService.ts] *)

(** [l.join(sep)]. *)
Fixpoint join (sep : jsstring) (l : list jsstring) : jsstring :=
  match l with
  | [] => []
  | x :: rest =>
      match rest with
      | [] => x
      | _ :: _ => x ++ sep ++ join sep rest
      end
  end.

Definition bullet (x : jsstring) : jsstring := js "- " ++ x.

(** The text that [generateContentWithUrlContext] adds to the prompt. *)
Definition contextInfo (urls : list jsstring) (files : list FileAttachment)
  : jsstring :=
  (match urls with
   | [] => []
   | _ :: _ =>
       [10] ++ js "[Provided Context Sources (URLs)]:" ++ [10]
       ++ join [10] (bullet <$> urls)
   end)
  ++
  (match files with
   | [] => []
   | _ :: _ =>
       [10] ++ js "[Attached Documentation Files]:" ++ [10]
       ++ join [10] ((fun f => bullet (att_name f)) <$> files)
   end).

Definition fullPrompt (prompt : jsstring) (urls : list jsstring)
    (files : list FileAttachment) : jsstring :=
  match contextInfo urls files with
  | [] => prompt
  | info =>
      prompt ++ [10; 10] ++ info ++ [10; 10]
      ++ js "Please consult these sources to answer the inquiry. When citing, refer to the document titles listed above."
  end.

Inductive Part :=
| InlineData (data mimeType : jsstring)
| TextPart (text : jsstring).

Inductive Tool := GoogleSearch.

Definition requestParts (prompt : jsstring) (urls : list jsstring)
    (files : list FileAttachment) : list Part :=
  ((fun file => InlineData (att_data file) (att_mimeType file)) <$> files)
  ++ [TextPart (fullPrompt prompt urls files)].

Definition requestTools (urls : list jsstring) : list Tool :=
  match urls with [] => [] | _ :: _ => [GoogleSearch] end.

(** [JSON.stringify({ suggestions: l })] for strings that need no escape, as
    the literals of the service are. *)
Definition stringifySuggestions (l : list jsstring) : jsstring :=
  js "{" ++ [34] ++ js "suggestions" ++ [34] ++ js ":["
  ++ join (js ",") ((fun x => [34] ++ x ++ [34]) <$> l) ++ js "]}".

Definition suggestionsPrompt (urls : list jsstring) : jsstring :=
  js "Based on the content of the following documentation URLs, provide 3-4 concise and actionable questions a stakeholder might ask a diplomat about AI regulation. Return ONLY a JSON object with a key "
  ++ [34] ++ js "suggestions" ++ [34]
  ++ js " containing an array of strings." ++ [10; 10]
  ++ js "Relevant URLs:" ++ [10] ++ join [10] urls.

Definition noUrlSuggestions : list jsstring :=
  [js "Upload a PDF to analyze."; js "What are the transparency obligations?";
   js "Explain the risk classification system."].

Definition fallbackSuggestions : list jsstring :=
  [js "Summarize the key points."; js "What are the compliance risks?";
   js "Comparison of EU vs US approach."].

(** [getInitialSuggestions]; the request carries the prompt alone. *)
Definition getInitialSuggestions (env : GeminiEnv) (urls : list jsstring)
  : list Event * Promise jsstring :=
  match urls with
  | [] => ([], Resolved (stringifySuggestions noUrlSuggestions))
  | _ :: _ =>
      match API_KEY env with
      | None | Some [] =>
          ([], Rejected (ThrownError
                 (js "Gemini API Key not configured. Set process.env.API_KEY.")))
      | Some (_ :: _) =>
          ([EvGenerateContent (suggestionsPrompt urls) [] []],
           match sdk env with
           | SdkReturns response => Resolved (default [] (resp_text response))
           | SdkThrows _ => Resolved (stringifySuggestions fallbackSuggestions)
           | SdkUnsettled => Pending
           end)
      end
  end.

(** ** [components/ChatInterface.tsx] *)

Module ChatInterface.

Record ComposerState := {
  userQuery : jsstring;
  attachments : list FileAttachment
}.

(** [handleSend]; the second component is the call on [onSendMessage]. *)
Definition handleSend (isLoading : bool) (c : ComposerState)
  : ComposerState * option (jsstring * list FileAttachment) :=
  if (truthy (trim (userQuery c)) || bool_decide (0 < length (attachments c))%nat)
     && negb isLoading
  then ({| userQuery := []; attachments := [] |},
        Some (trim (userQuery c), attachments c))
  else (c, None).

(** The loop of [handleFileSelect] over the chosen files, each with what its
    reader ends with; [None] when a reader is never settled. *)
Fixpoint readAttachments (files : list (File * ReaderOutcome))
    (newAttachments : list FileAttachment) (alerts : list Event)
  : list Event * option (list FileAttachment) :=
  match files with
  | [] => (alerts, Some newAttachments)
  | (file, r) :: rest =>
      if bool_decide (file_type file = js "application/pdf") then
        match fileToBase64 r with
        | Resolved base64 =>
            readAttachments rest
              (newAttachments ++ [ {| att_name := file_name file;
                                      att_mimeType := file_type file;
                                      att_data := base64 |} ]) alerts
        | Rejected _ => readAttachments rest newAttachments alerts
        | Pending => (alerts, None)
        end
      else
        readAttachments rest newAttachments
          (alerts ++ [EvAlert (js "Only PDF files are supported. Skipped: "
                               ++ file_name file)])
  end.

Definition handleFileSelect (files : list (File * ReaderOutcome))
    (c : ComposerState) : list Event * ComposerState :=
  match readAttachments files [] [] with
  | (alerts, Some newAttachments) =>
      (alerts, {| userQuery := userQuery c;
                  attachments := attachments c ++ newAttachments |})
  | (alerts, None) => (alerts, c)
  end.

(** [prev.filter((_, i) => i !== index)], from position [i0]. *)
Fixpoint filterOtherIndex {A : Type} (index i0 : nat) (prev : list A) : list A :=
  match prev with
  | [] => []
  | x :: rest =>
      if bool_decide (i0 <> index) then x :: filterOtherIndex index (S i0) rest
      else filterOtherIndex index (S i0) rest
  end.

Definition removeAttachment (index : nat) (c : ComposerState) : ComposerState :=
  {| userQuery := userQuery c;
     attachments := filterOtherIndex index 0 (attachments c) |}.

Definition nonSystem (messages : list ChatMessage) : list ChatMessage :=
  List.filter (fun m => match msg_sender m with SYSTEM => false | _ => true end)
    messages.

Definition showSuggestions (initialQuerySuggestions : option (list jsstring))
    (messages : list ChatMessage) : bool :=
  match initialQuerySuggestions with
  | Some (_ :: _) => bool_decide (length (nonSystem messages) <= 1)%nat
  | _ => false
  end.

End ChatInterface.

(** ** [components/MessageItem.tsx]: the status of a source link *)

(** [s.replace(pattern, replacement)] for a string pattern: the first
    occurrence only. *)
Fixpoint replaceFirst (pattern replacement s : jsstring) : jsstring :=
  if isPrefixOf pattern s then replacement ++ drop (length pattern) s
  else
    match s with
    | [] => []
    | c :: r => c :: replaceFirst pattern replacement r
    end.

(** [statusText], for a status that is a string, as the type has it. *)
Definition statusText (meta : UrlContextMetadataItem) : jsstring :=
  replaceFirst (js "URL_RETRIEVAL_STATUS_") [] (urlRetrievalStatus meta).

Definition isSuccess (meta : UrlContextMetadataItem) : bool :=
  bool_decide (urlRetrievalStatus meta = js "URL_RETRIEVAL_STATUS_SUCCESS").

(** The badge with [statusText] is rendered when the retrieval did not
    succeed. *)
Definition statusBadge (meta : UrlContextMetadataItem) : option jsstring :=
  if isSuccess meta then None else Some (statusText meta).

(** ** The editing handlers of [KnowledgeBaseManager.tsx] *)

Definition startEditing (source : ReferenceSource) (f : FormState) : FormState :=
  {| currentUrlInput := currentUrlInput f; showUrlInput := showUrlInput f;
     error := error f; editingSourceId := Some (src_id source);
     editTitleInput := src_title source |}.

Definition cancelEditing (f : FormState) : FormState :=
  {| currentUrlInput := currentUrlInput f; showUrlInput := showUrlInput f;
     error := error f; editingSourceId := None; editTitleInput := [] |}.

(** ** Runs of the library *)

(** The handlers of [App] that a user can set off, with the answers of the
    environment. *)
Inductive LibraryOp :=
| OpAddUrl (now : N) (r36 : jsstring) (url : jsstring)
| OpAddFile (env : AddFileEnv) (file : File)
| OpRemove (o : TxOutcome) (sourceId : jsstring)
| OpRename (sourceId newTitle : jsstring)
| OpSend (env : SendEnv) (query : jsstring) (temp : list FileAttachment)
| OpSetGroup (g : jsstring).

Definition runOp (op : LibraryOp) (s : AppState) : Run :=
  match op with
  | OpAddUrl now r36 url => Finished (handleAddSource now r36 url s)
  | OpAddFile env file => handleAddPersistentFile env file s
  | OpRemove o sourceId => handleRemoveSource o sourceId s
  | OpRename sourceId newTitle => Finished (handleRenameSource sourceId newTitle s)
  | OpSend env query temp => handleSendMessage env query temp s
  | OpSetGroup g => Finished (setActiveUrlGroupId g s)
  end.

Definition runOps (ops : list LibraryOp) (s : AppState) : AppState :=
  foldl (fun acc op => stateOf (runOp op acc)) s ops.

(** Every record of the store sits under its own id ([keyPath: 'id']). *)
Definition keyed (db : BlobStore) : Prop :=
  forall k file, db !! k = Some file -> sf_id file = k.

(** No file descriptor is dangling: each has its blob in the store. *)
Definition noDangling (s : AppState) : Prop :=
  forall d, d ∈ allSources (urlGroups s) -> src_type d = type_file ->
            is_Some (indexedDB s !! src_id d).

(** No blob is an orphan: each has a descriptor in some group. *)
Definition noOrphan (s : AppState) : Prop :=
  forall k file, indexedDB s !! k = Some file -> sf_id file ∈ allIds (urlGroups s).

(** What [handleRenameSource] does to one descriptor. *)
Definition retitle (sourceId newTitle : jsstring) (s : ReferenceSource)
  : ReferenceSource :=
  if hasId sourceId s then
    {| src_id := src_id s; src_type := src_type s; src_title := newTitle;
       src_url := src_url s; src_mimeType := src_mimeType s |}
  else s.

(** Who sent a message, and under which id. *)
Definition header (m : ChatMessage) : jsstring * MessageSender :=
  (msg_id m, msg_sender m).

(** The content of an attachment, without its name. *)
Definition payload (a : FileAttachment) : jsstring * jsstring :=
  (att_mimeType a, att_data a).

(** The ids and names of the groups, in order. *)
Definition groupFrame (groups : list URLGroup) : list (jsstring * jsstring) :=
  (fun g => (grp_id g, grp_name g)) <$> groups.

(** The attachment that the composer makes of a chosen file: of a PDF whose
    reader has loaded, and of no other. *)
Definition pdfLoaded (fr : File * ReaderOutcome) : option FileAttachment :=
  if bool_decide (file_type fr.1 = js "application/pdf") then
    match fr.2 with
    | ReaderLoad _ payload =>
        Some {| att_name := file_name fr.1; att_mimeType := file_type fr.1;
                att_data := untilComma payload |}
    | _ => None
    end
  else None.

Definition isPdf (a : FileAttachment) : Prop :=
  att_mimeType a = js "application/pdf".

(** A library of two groups, and a store of four blobs whose ids differ in
    length. *)
Definition archiveGroup : URLGroup :=
  {| grp_id := js "archive"; grp_name := js "Archive";
     grp_sources := [urlSource (js "src-1-old") (js "https://example.com/sb53")] |}.

Definition twoGroups : list URLGroup :=
  [ archiveGroup;
    {| grp_id := js "default-library"; grp_name := js "My Knowledge Library";
       grp_sources := [sampleUrlSource] |} ].

Definition blobNamed (id name : string) : StoredFile :=
  {| sf_id := js id; sf_name := js name; sf_mimeType := js "application/pdf";
     sf_data := js "JVBERi0="; sf_date := 0 |}.

Definition fourBlobs : BlobStore :=
  <[js "1-c" := blobNamed "1-c" "c.pdf"]>
    (<[js "2-b" := blobNamed "2-b" "b.pdf"]>
       (<[js "17-d" := blobNamed "17-d" "d.pdf"]>
          (<[js "10-a" := blobNamed "10-a" "a.pdf"]> ∅))).

(** Ids in the ascending order of the keys of the store. *)
Definition ascending (ids : list jsstring) : Prop :=
  Sorted (fun a b => keyLeb a b = true) ids.

(** ** Strings *)

Lemma trimStart_blank (s : jsstring) :
  Forall (fun c => isTrimUnit c = true) s -> trimStart s = [].
Proof.
  induction 1 as [|c r Hc _ IH]; simpl; [reflexivity|].
  now rewrite Hc.
Qed.

Lemma trim_blank (s : jsstring) :
  Forall (fun c => isTrimUnit c = true) s -> trim s = [].
Proof. intros H. unfold trim. now rewrite trimStart_blank. Qed.

Lemma trimEnd_nil_blank (s : jsstring) :
  trimEnd s = [] -> Forall (fun c => isTrimUnit c = true) s.
Proof.
  induction s as [|c r IH]; simpl; [constructor|].
  destruct (trimEnd r) eqn:E; [|discriminate].
  destruct (isTrimUnit c) eqn:Hc; [|discriminate].
  intros _. constructor; auto.
Qed.

Lemma trimStart_nil_blank (s : jsstring) :
  trimStart s = [] -> Forall (fun c => isTrimUnit c = true) s.
Proof.
  induction s as [|c r IH]; simpl; [constructor|].
  destruct (isTrimUnit c) eqn:Hc; [|discriminate].
  intros H. constructor; auto.
Qed.

Lemma trimStart_head (s : jsstring) :
  match trimStart s with [] => True | c :: _ => isTrimUnit c = false end.
Proof.
  induction s as [|c r IH]; simpl; [exact I|].
  destruct (isTrimUnit c) eqn:Hc; [exact IH | exact Hc].
Qed.

(** [trim] gives the empty string exactly on the strings made of white space
    and line terminators only. *)
Lemma trim_nil_iff (s : jsstring) :
  trim s = [] <-> Forall (fun c => isTrimUnit c = true) s.
Proof.
  split; [|apply trim_blank].
  unfold trim. intros H. apply trimStart_nil_blank.
  pose proof (trimStart_head s) as Hh.
  apply trimEnd_nil_blank in H.
  destruct (trimStart s) as [|c r]; [reflexivity|].
  inversion H; subst. congruence.
Qed.

Example trim_inner_space : trim (js "  EU AI Act  ") = js "EU AI Act".
Proof. reflexivity. Qed.

Example substr_of_random : randomSuffix (js "0.4fzyo82mvyr") = js "4fzyo82mv".
Proof. reflexivity. Qed.

Example toString_now : toString 1730486400000 = js "1730486400000".
Proof. reflexivity. Qed.

(** ** Renaming *)

Lemma renameInGroups_lookup (sourceId newTitle : jsstring)
    (groups : list URLGroup) (i j : nat) (g : URLGroup) (x : ReferenceSource) :
  groups !! i = Some g ->
  grp_sources g !! j = Some x ->
  exists g' x',
    renameInGroups sourceId newTitle groups !! i = Some g'
    /\ grp_id g' = grp_id g /\ grp_name g' = grp_name g
    /\ length (grp_sources g') = length (grp_sources g)
    /\ grp_sources g' !! j = Some x'
    /\ src_id x' = src_id x /\ src_type x' = src_type x
    /\ src_url x' = src_url x /\ src_mimeType x' = src_mimeType x
    /\ (src_id x = sourceId -> src_title x' = newTitle)
    /\ (src_id x <> sourceId -> x' = x).
Proof.
  intros Hg Hx. unfold renameInGroups.
  eexists _, _. rewrite list_lookup_fmap, Hg. simpl.
  split; [reflexivity|]. simpl.
  rewrite length_fmap, list_lookup_fmap, Hx. simpl.
  do 4 (split; [reflexivity|]).
  unfold hasId. case_bool_decide; simpl; repeat split; congruence.
Qed.

(** C6.  [handleRenameSource sourceId newTitle] keeps the shape of the group
    list; the descriptor at any position keeps its id, type, url and MIME
    type, has the title [newTitle] when its id is [sourceId], and is
    untouched otherwise; the blob store and the saved metadata are not
    touched, so that a stored blob keeps its name. *)
Theorem handleRenameSource_frame (sourceId newTitle : jsstring) (s : AppState)
    (i j : nat) (g : URLGroup) (x : ReferenceSource) :
  urlGroups s !! i = Some g ->
  grp_sources g !! j = Some x ->
  let s' := handleRenameSource sourceId newTitle s in
  length (urlGroups s') = length (urlGroups s)
  /\ indexedDB s' = indexedDB s
  /\ localStorage s' = localStorage s
  /\ newEvents s s' = [EvSetUrlGroups]
  /\ exists g' x',
       urlGroups s' !! i = Some g'
       /\ grp_id g' = grp_id g /\ grp_name g' = grp_name g
       /\ length (grp_sources g') = length (grp_sources g)
       /\ grp_sources g' !! j = Some x'
       /\ src_id x' = src_id x /\ src_type x' = src_type x
       /\ src_url x' = src_url x /\ src_mimeType x' = src_mimeType x
       /\ (src_id x = sourceId -> src_title x' = newTitle)
       /\ (src_id x <> sourceId -> x' = x).
Proof.
  intros Hg Hx s'. subst s'. unfold handleRenameSource, newEvents. simpl.
  split; [unfold renameInGroups; now rewrite length_fmap|].
  do 2 (split; [reflexivity|]).
  split; [now rewrite drop_app_length|].
  now apply renameInGroups_lookup.
Qed.

Lemma handleRenameSource_frame_witness :
  let s' := handleRenameSource (src_id sampleFileSource) (js "Regulation")
              sampleState in
  indexedDB s' = indexedDB sampleState
  /\ urlGroups s' !! 0%nat ≫= (fun g => grp_sources g !! 1%nat)
     = Some {| src_id := src_id sampleFileSource; src_type := type_file;
               src_title := js "Regulation"; src_url := None;
               src_mimeType := Some (js "application/pdf") |}.
Proof.
  destruct (handleRenameSource_frame (src_id sampleFileSource) (js "Regulation")
              sampleState 0 1 sampleGroup sampleFileSource eq_refl eq_refl)
    as (_ & Hdb & _).
  split; [exact Hdb | reflexivity].
Defined.

(** Through the form the title is trimmed first: [saveEditing] passes
    [editTitleInput.trim()] on. *)
Lemma renameSource_trims (f : FormState) (s : AppState) (c : N) (id : jsstring) :
  editingSourceId f = Some (c :: id) ->
  trim (editTitleInput f) <> [] ->
  (renameSource f s).2
  = handleRenameSource (c :: id) (trim (editTitleInput f)) s.
Proof.
  intros Hid Ht. unfold renameSource, saveEditing. rewrite Hid.
  destruct (trim (editTitleInput f)); [congruence | reflexivity].
Qed.

(** C7.  A rename whose title is empty or made of white space only is
    rejected, whatever the id: the form and the whole state of the
    application, hence every group's list of descriptors, stay as they
    were. *)
Theorem renameSource_rejects_blank (f : FormState) (s : AppState) :
  Forall (fun c => isTrimUnit c = true) (editTitleInput f) ->
  renameSource f s = (f, s).
Proof.
  intros Hblank. unfold renameSource, saveEditing.
  rewrite (trim_blank _ Hblank). simpl.
  destruct (editingSourceId f) as [[|c id]|]; reflexivity.
Qed.

Lemma renameSource_rejects_blank_witness :
  let f := {| currentUrlInput := []; showUrlInput := false; error := None;
              editingSourceId := Some (src_id sampleUrlSource);
              editTitleInput := [32; 9; 160; 8195] |} in
  renameSource f sampleState = (f, sampleState).
Proof.
  intros f. apply (renameSource_rejects_blank f sampleState).
  repeat constructor.
Defined.

(** ** Removal *)

Lemma filter_without_idem (sourceId : jsstring) (l : list ReferenceSource) :
  List.filter (fun s => negb (hasId sourceId s))
    (List.filter (fun s => negb (hasId sourceId s)) l)
  = List.filter (fun s => negb (hasId sourceId s)) l.
Proof.
  induction l as [|x l IH]; simpl; [reflexivity|].
  destruct (hasId sourceId x) eqn:E; simpl; [exact IH|].
  rewrite E. simpl. now rewrite IH.
Qed.

Lemma existsb_without (sourceId : jsstring) (l : list ReferenceSource) :
  existsb (hasId sourceId) (List.filter (fun s => negb (hasId sourceId s)) l)
  = false.
Proof.
  induction l as [|x l IH]; simpl; [reflexivity|].
  destruct (hasId sourceId x) eqn:E; simpl; [exact IH|].
  now rewrite E, IH.
Qed.

Lemma removeFromGroups_idem (sourceId : jsstring) (groups : list URLGroup) :
  removeFromGroups sourceId (removeFromGroups sourceId groups)
  = removeFromGroups sourceId groups.
Proof.
  unfold removeFromGroups. rewrite <- list_fmap_compose.
  apply list_fmap_ext. intros _ g _. simpl.
  now rewrite filter_without_idem.
Qed.

Lemma findSource_removed (sourceId : jsstring) (groups : list URLGroup) :
  findSource sourceId (removeFromGroups sourceId groups) = None.
Proof.
  unfold findSource.
  assert (List.find (fun g => existsb (hasId sourceId) (grp_sources g))
            (removeFromGroups sourceId groups) = None) as ->; [|reflexivity].
  induction groups as [|g groups IH]; simpl; [reflexivity|].
  now rewrite existsb_without.
Qed.

Lemma handleRemoveSource_groups (o : TxOutcome) (sourceId : jsstring)
    (s s1 : AppState) :
  handleRemoveSource o sourceId s = Finished s1 ->
  urlGroups s1 = removeFromGroups sourceId (urlGroups s).
Proof.
  unfold handleRemoveSource.
  destruct (findSource sourceId (urlGroups s)) as [[? [] ? ? ?]|];
    try (intros [= <-]; reflexivity).
  destruct o; simpl; intros [= <-]; reflexivity.
Qed.

(** C5.  After a removal that has run to its end, a second removal of the
    same id runs to its end as well, whatever the store would answer, and
    changes neither the group list nor the blob store nor the saved
    metadata: it issues no transaction, only the update of the group list,
    which gives the list it found.  A removal runs to its end whenever the
    transaction it may issue is settled. *)
Theorem handleRemoveSource_idempotent (o1 o2 : TxOutcome) (sourceId : jsstring)
    (s : AppState) :
  (forall s1, handleRemoveSource o1 sourceId s = Finished s1 ->
     exists s2, handleRemoveSource o2 sourceId s1 = Finished s2
       /\ urlGroups s2 = urlGroups s1
       /\ indexedDB s2 = indexedDB s1
       /\ localStorage s2 = localStorage s1
       /\ newEvents s1 s2 = [EvSetUrlGroups])
  /\ (o1 <> TxUnsettled ->
      exists s1, handleRemoveSource o1 sourceId s = Finished s1).
Proof.
  split.
  - intros s1 H1. apply handleRemoveSource_groups in H1.
    unfold handleRemoveSource. rewrite H1, findSource_removed.
    eexists. split; [reflexivity|]. simpl.
    rewrite H1, removeFromGroups_idem. unfold newEvents. simpl.
    now rewrite drop_app_length.
  - intros Ho. unfold handleRemoveSource.
    destruct (findSource sourceId (urlGroups s)) as [[? [] ? ? ?]|];
      try (eexists; reflexivity).
    destruct o1; simpl; try (eexists; reflexivity). congruence.
Qed.

Lemma handleRemoveSource_idempotent_witness :
  exists s1 s2,
    handleRemoveSource TxComplete (src_id sampleFileSource) sampleState
    = Finished s1
    /\ handleRemoveSource TxError (src_id sampleFileSource) s1 = Finished s2
    /\ urlGroups s2 = urlGroups s1 /\ indexedDB s2 = indexedDB s1.
Proof.
  destruct (handleRemoveSource_idempotent TxComplete TxError
              (src_id sampleFileSource) sampleState) as [Htwice Hruns].
  destruct Hruns as [s1 H1]; [discriminate|].
  destruct (Htwice s1 H1) as (s2 & H2 & Hg & Hdb & _).
  exists s1, s2. auto.
Defined.

Example remove_upload :
  exists s1,
    handleRemoveSource TxComplete (src_id sampleFileSource) sampleState
    = Finished s1
    /\ urlGroups s1
       = [ {| grp_id := js "default-library";
              grp_name := js "My Knowledge Library";
              grp_sources := [sampleUrlSource] |} ]
    /\ indexedDB s1 !! src_id sampleFileSource = None
    /\ newEvents sampleState s1
       = [EvDeleteFile (src_id sampleFileSource); EvSetUrlGroups].
Proof.
  eexists. split; [reflexivity|]. split; [reflexivity|].
  split; [apply lookup_delete_eq | reflexivity].
Qed.

(** ** Adding a document *)

Lemma appendToGroup_lookup (gid : jsstring) (x : ReferenceSource)
    (groups : list URLGroup) :
  gid ∈ grp_id <$> groups -> appended x groups (appendToGroup gid x groups).
Proof.
  intros Hin. apply list_elem_of_fmap in Hin as (g & -> & Hg).
  apply list_elem_of_lookup in Hg as [i Hi].
  exists i, g. eexists. split; [exact Hi|].
  unfold appendToGroup. rewrite list_lookup_fmap, Hi. simpl.
  rewrite bool_decide_eq_true_2 by reflexivity. split; reflexivity.
Qed.

Lemma not_appended_same (x : ReferenceSource) (groups : list URLGroup) :
  ~ appended x groups groups.
Proof.
  intros (i & g & g' & Hg & Hg' & Hs).
  rewrite Hg in Hg'. injection Hg' as <-.
  apply (f_equal length) in Hs. rewrite length_app in Hs. simpl in Hs. lia.
Qed.

(** C1.  In a library that has the active group, [handleAddPersistentFile]
    puts the blob in the store first and updates the group list after that,
    and only when the write is complete: the two events come in this order;
    the descriptor of the add, a file descriptor with the id under which the
    blob was put, the name of the file as title and its type as MIME type,
    is at the end of a group exactly when the blob has been written, and
    otherwise the group list and the store are as before. *)
Theorem handleAddPersistentFile_blob_first (env : AddFileEnv) (file : File)
    (s : AppState) :
  activeUrlGroupId s ∈ grp_id <$> urlGroups s ->
  let id := freshId "file-" (addNow env) (addRandom env) in
  let descriptor :=
    {| src_id := id; src_type := type_file; src_title := file_name file;
       src_url := None; src_mimeType := Some (file_type file) |} in
  let run := handleAddPersistentFile env file s in
  let s' := stateOf run in
  (forall base64, written env base64 ->
     run = Finished s'
     /\ indexedDB s'
        = <[id := {| sf_id := id; sf_name := file_name file;
                     sf_mimeType := file_type file; sf_data := base64;
                     sf_date := addDate env |}]> (indexedDB s)
     /\ urlGroups s'
        = appendToGroup (activeUrlGroupId s) descriptor (urlGroups s)
     /\ newEvents s s' = [EvSaveFile id; EvSetUrlGroups])
  /\ (appended descriptor (urlGroups s) (urlGroups s')
      <-> exists base64, written env base64)
  /\ ((~ exists base64, written env base64) ->
      urlGroups s' = urlGroups s /\ indexedDB s' = indexedDB s
      /\ EvSetUrlGroups ∉ newEvents s s').
Proof.
  intros Hin id descriptor run s'. subst run s' descriptor id.
  unfold handleAddPersistentFile, written, newEvents.
  destruct (reader env) as [header payload| |] eqn:Hr;
    destruct (putOutcome env) eqn:Ho; simpl;
    rewrite ?drop_app_length, <- ?(assoc_L (++)), ?drop_app_length;
    (split; [intros b [Hb Hc]; try discriminate|split; [split|]]).
  all: try (intros _; split; [reflexivity|]; split; [reflexivity|]; simpl;
            rewrite ?drop_all, ?elem_of_cons, elem_of_nil;
            intuition discriminate).
  all: try (intros H; exfalso; revert H; apply not_appended_same).
  all: try (intros (b & Hb & Hc); discriminate).
  - injection Hb as <-. repeat split; reflexivity.
  - intros _. eexists. split; reflexivity.
  - intros _. now apply appendToGroup_lookup.
  - intros H. exfalso. apply H. eexists. split; reflexivity.
Qed.

Lemma handleAddPersistentFile_blob_first_witness :
  appended {| src_id := js "file-1730486400001-k3x9q0b7a";
              src_type := type_file; src_title := js "reg.pdf";
              src_url := None; src_mimeType := Some (js "application/pdf") |}
    (urlGroups initialState)
    (urlGroups (stateOf (handleAddPersistentFile sampleAddEnv sampleUpload
                           initialState)))
  /\ indexedDB (stateOf (handleAddPersistentFile sampleAddEnv sampleUpload
                           initialState))
     !! js "file-1730486400001-k3x9q0b7a"
     = Some {| sf_id := js "file-1730486400001-k3x9q0b7a";
               sf_name := js "reg.pdf"; sf_mimeType := js "application/pdf";
               sf_data := js "JVBERi0xLjQK"; sf_date := 1730486400001 |}.
Proof.
  assert (activeUrlGroupId initialState ∈ grp_id <$> urlGroups initialState)
    as Hin by (simpl; left).
  destruct (handleAddPersistentFile_blob_first sampleAddEnv sampleUpload
              initialState Hin) as (Hwritten & Hiff & _).
  split.
  - apply Hiff. eexists. split; reflexivity.
  - destruct (Hwritten (js "JVBERi0xLjQK")) as (_ & Hdb & _);
      [split; reflexivity|].
    rewrite Hdb. apply lookup_insert_eq.
Defined.

Example upload_then_remove :
  exists s1 s2,
    handleAddPersistentFile sampleAddEnv sampleUpload initialState = Finished s1
    /\ allSources (urlGroups s1) = [sampleFileSource]
    /\ indexedDB s1 !! src_id sampleFileSource = Some sampleBlob
    /\ handleRemoveSource TxComplete (src_id sampleFileSource) s1 = Finished s2
    /\ allSources (urlGroups s2) = []
    /\ indexedDB s2 !! src_id sampleFileSource = None.
Proof.
  eexists _, _. split; [reflexivity|]. split; [reflexivity|].
  split; [apply lookup_insert_eq|]. split; [reflexivity|].
  split; [reflexivity | apply lookup_delete_eq].
Qed.

(** ** Adding a link *)

Lemma find_appendToGroup (gid : jsstring) (x : ReferenceSource)
    (groups : list URLGroup) :
  List.find (fun g => bool_decide (grp_id g = gid)) (appendToGroup gid x groups)
  = (fun g => {| grp_id := grp_id g; grp_name := grp_name g;
                 grp_sources := grp_sources g ++ [x] |})
    <$> List.find (fun g => bool_decide (grp_id g = gid)) groups.
Proof.
  induction groups as [|g groups IH]; simpl; [reflexivity|].
  destruct (decide (grp_id g = gid)) as [Hg|Hg].
  - rewrite !(bool_decide_eq_true_2 _ Hg). reflexivity.
  - rewrite !(bool_decide_eq_false_2 _ Hg). simpl. exact IH.
Qed.

Lemma find_group_present (gid : jsstring) (groups : list URLGroup) :
  gid ∈ grp_id <$> groups ->
  exists g, List.find (fun g => bool_decide (grp_id g = gid)) groups = Some g.
Proof.
  induction groups as [|g groups IH]; simpl.
  - intros H. inversion H.
  - intros H. case_bool_decide as Hg; [eauto|].
    apply elem_of_cons in H as [H|H]; [congruence | auto].
Qed.

Lemma activeSources_append (x : ReferenceSource) (s : AppState) :
  activeUrlGroupId s ∈ grp_id <$> urlGroups s ->
  activeSources (setUrlGroups (appendToGroup (activeUrlGroupId s) x) s)
  = activeSources s ++ [x].
Proof.
  intros Hin. unfold activeSources, activeGroup. simpl.
  rewrite find_appendToGroup.
  destruct (find_group_present _ _ Hin) as [g ->]. reflexivity.
Qed.

Section AddUrl.

Variable parsesAsURL : jsstring -> bool.

(** C2.  For an input [u] that the URL parser accepts (such an input is
    not blank) and a library that has the active group: below the limit of
    [MAX_ITEMS] = 50 descriptors, [addUrlSource] puts one descriptor of
    type url, with [u] as its url and as its title, at the end of the
    active group, whose count grows by one; at the limit the state of the
    application is unchanged and the form reports that the maximum is
    reached. *)
Theorem addUrlSource_appends (now : N) (r36 : jsstring) (f : FormState)
    (s : AppState) :
  let u := currentUrlInput f in
  parsesAsURL u = true ->
  trim u <> [] ->
  activeUrlGroupId s ∈ grp_id <$> urlGroups s ->
  let r := addUrlSource parsesAsURL now r36 f s in
  let newSource :=
    {| src_id := freshId "src-" now r36; src_type := type_url;
       src_title := u; src_url := Some u; src_mimeType := None |} in
  ((length (activeSources s) < MAX_ITEMS)%nat ->
     urlGroups r.2
     = appendToGroup (activeUrlGroupId s) newSource (urlGroups s)
     /\ activeSources r.2 = activeSources s ++ [newSource]
     /\ length (activeSources r.2) = S (length (activeSources s))
     /\ indexedDB r.2 = indexedDB s
     /\ error r.1 = None)
  /\ ((MAX_ITEMS <= length (activeSources s))%nat ->
      r.2 = s /\ error r.1 = Some (js "Maximum limit reached.")).
Proof.
  intros u Hurl Htrim Hin r newSource. subst r.
  unfold addUrlSource, handleAddUrl, isValidUrl. fold u.
  rewrite Hurl. destruct (trim u) eqn:Et; [congruence|]. simpl.
  split; intros Hlen.
  - rewrite bool_decide_eq_false_2 by lia. simpl.
    split; [reflexivity|].
    pose proof (activeSources_append newSource s Hin) as Ha.
    split; [exact Ha|]. split; [|split; reflexivity].
    unfold handleAddSource, urlSource. fold newSource.
    rewrite Ha, length_app. simpl. lia.
  - rewrite bool_decide_eq_true_2 by lia. simpl. split; reflexivity.
Qed.

End AddUrl.

Lemma addUrlSource_appends_witness :
  activeSources
    (addUrlSource sampleParser 1730486400002 (js "0.9zk2m1qp8xw")
       (urlForm sampleUrl) sampleState).2
  = [sampleUrlSource; sampleFileSource;
     urlSource (js "src-1730486400002-9zk2m1qp8") sampleUrl]
  /\ (addUrlSource sampleParser 1730486400002 (js "0.9zk2m1qp8xw")
        (urlForm sampleUrl) fullState).2 = fullState.
Proof.
  split.
  - destruct (addUrlSource_appends sampleParser 1730486400002
                (js "0.9zk2m1qp8xw") (urlForm sampleUrl) sampleState)
      as [Hbelow _]; [reflexivity | discriminate | simpl; left |].
    destruct Hbelow as (_ & Ha & _); [vm_compute; lia | exact Ha].
  - destruct (addUrlSource_appends sampleParser 1730486400002
                (js "0.9zk2m1qp8xw") (urlForm sampleUrl) fullState)
      as [_ Hfull]; [reflexivity | discriminate | simpl; left |].
    destruct Hfull as [Hs _]; [vm_compute; lia | exact Hs].
Defined.

(** ** Context assembly *)

Lemma gatherContext_complete (db : BlobStore) (sources : list ReferenceSource) :
  forall k urls files,
    gatherContext allComplete db k sources urls files
    = Some (urls ++ urlsOf sources, files ++ attachmentsOf db sources).
Proof.
  induction sources as [|[id ty title url mime] rest IH]; intros k urls files.
  - simpl. now rewrite !app_nil_r.
  - unfold urlsOf, attachmentsOf in *. destruct ty; simpl.
    + destruct url as [[|c u]|]; simpl; rewrite IH;
        rewrite <- ?(assoc_L (++)); reflexivity.
    + destruct (db !! id) as [blob|]; simpl; rewrite IH;
        rewrite <- ?(assoc_L (++)); reflexivity.
Qed.

Lemma gatherContext_settled (reads : nat -> TxOutcome) (db : BlobStore)
    (sources : list ReferenceSource) :
  (forall k, reads k <> TxUnsettled) ->
  forall k urls files,
    exists extra,
      gatherContext reads db k sources urls files
      = Some (urls ++ urlsOf sources, files ++ extra)
      /\ extra `sublist_of` attachmentsOf db sources.
Proof.
  intros Hreads.
  induction sources as [|[id ty title url mime] rest IH]; intros k urls files.
  - exists []. simpl. now rewrite !app_nil_r.
  - unfold urlsOf, attachmentsOf in *. destruct ty; simpl.
    + destruct url as [[|c u]|]; simpl;
        [destruct (IH k urls files) as (extra & -> & Hsub)
        |destruct (IH k (urls ++ [c :: u]) files) as (extra & -> & Hsub)
        |destruct (IH k urls files) as (extra & -> & Hsub)];
        exists extra; rewrite <- ?(assoc_L (++)); split; auto.
    + specialize (Hreads k). destruct (reads k); [| |congruence]; simpl.
      * destruct (db !! id) as [blob|]; simpl.
        -- destruct (IH (S k) urls (files ++
                [{| att_name := title; att_mimeType := sf_mimeType blob;
                    att_data := sf_data blob |}])) as (extra & -> & Hsub).
           eexists (_ :: extra). rewrite <- (assoc_L (++)).
           split; [reflexivity|]. now apply sublist_skip.
        -- destruct (IH (S k) urls files) as (extra & -> & Hsub).
           exists extra. split; auto.
      * destruct (IH (S k) urls files) as (extra & -> & Hsub).
        exists extra. split; [reflexivity|].
        destruct (db !! id); simpl; [now apply sublist_cons | exact Hsub].
Qed.

Lemma gatherContext_app (reads : nat -> TxOutcome) (db : BlobStore)
    (a b : list ReferenceSource) :
  forall k urls files,
    gatherContext reads db k (a ++ b) urls files
    = match gatherContext reads db k a urls files with
      | Some (u, f) => gatherContext reads db (k + fileCount a) b u f
      | None => None
      end.
Proof.
  induction a as [|[id ty title url mime] a IH]; intros k urls files.
  - simpl. now rewrite Nat.add_0_r.
  - unfold fileCount in *. destruct ty; simpl.
    + destruct url as [[|c u]|]; apply IH.
    + replace (k + S (length (List.filter
                 (fun d => bool_decide (src_type d = type_file)) a)))%nat
        with (S k + length (List.filter
                 (fun d => bool_decide (src_type d = type_file)) a))%nat by lia.
      destruct (reads k); simpl; [destruct (db !! id)| |]; auto.
Qed.

(** C3.  The loop starts from the attachments of the turn and goes through
    the descriptors in order.  When every lookup is served, the result is
    the URLs of the url descriptors and, after the attachments of the turn,
    one attachment [{name: title, mimeType: blob.mimeType, data: blob.data}]
    for every file descriptor whose blob is found.  As long as every lookup
    is settled the loop ends with the same URLs and attachments among those.
    A file descriptor without blob is passed over.  For one url descriptor
    and one file descriptor the result has the URL and the attachment when
    the blob is there, and the URL alone when it is not. *)
Theorem gatherContext_assembles (db : BlobStore) :
  (forall sources temp,
     gatherContext allComplete db 0 sources [] temp
     = Some (urlsOf sources, temp ++ attachmentsOf db sources))
  /\ (forall reads sources temp,
        (forall k, reads k <> TxUnsettled) ->
        exists extra,
          gatherContext reads db 0 sources [] temp
          = Some (urlsOf sources, temp ++ extra)
          /\ extra `sublist_of` attachmentsOf db sources)
  /\ (forall reads k d rest urls files,
        src_type d = type_file -> db !! src_id d = None ->
        reads k <> TxUnsettled ->
        gatherContext reads db k (d :: rest) urls files
        = gatherContext reads db (S k) rest urls files)
  /\ (forall u f c url,
        src_type u = type_url -> src_url u = Some (c :: url) ->
        src_type f = type_file ->
        (forall blob, db !! src_id f = Some blob ->
           gatherContext allComplete db 0 [u; f] [] []
           = Some ([c :: url],
                   [ {| att_name := src_title f;
                        att_mimeType := sf_mimeType blob;
                        att_data := sf_data blob |} ]))
        /\ (db !! src_id f = None ->
            gatherContext allComplete db 0 [u; f] [] []
            = Some ([c :: url], []))).
Proof.
  split; [|split; [|split]].
  - intros sources temp. apply gatherContext_complete.
  - intros reads sources temp Hreads.
    apply (gatherContext_settled reads db sources Hreads 0%nat [] temp).
  - intros reads k d rest urls files Hty Hdb Hk. simpl. rewrite Hty.
    destruct (reads k); simpl; rewrite ?Hdb; congruence.
  - intros u f c url Hu Hurl Hf.
    split; [intros blob Hdb|intros Hdb];
      rewrite gatherContext_complete; unfold urlsOf, attachmentsOf; simpl;
      rewrite Hu, Hurl, Hf, Hdb; reflexivity.
Qed.

Lemma gatherContext_assembles_witness :
  gatherContext allComplete (indexedDB sampleState) 0
    [sampleUrlSource; sampleFileSource] [] []
  = Some ([sampleUrl],
          [ {| att_name := js "reg.pdf"; att_mimeType := js "application/pdf";
               att_data := js "JVBERi0xLjQK" |} ])
  /\ gatherContext allComplete ∅ 0 [sampleUrlSource; sampleFileSource] [] []
     = Some ([sampleUrl], []).
Proof.
  split.
  - destruct (gatherContext_assembles (indexedDB sampleState))
      as (_ & _ & _ & Hpair).
    destruct (Hpair sampleUrlSource sampleFileSource 104 (List.tl sampleUrl)
                eq_refl eq_refl eq_refl) as [Hfound _].
    apply (Hfound sampleBlob). apply lookup_singleton_eq.
  - destruct (gatherContext_assembles ∅) as (_ & _ & _ & Hpair).
    destruct (Hpair sampleUrlSource sampleFileSource 104 (List.tl sampleUrl)
                eq_refl eq_refl eq_refl) as [_ Hgone].
    apply Hgone. apply lookup_empty.
Defined.

(** C10.  A url descriptor whose url is absent or empty adds nothing: the
    loop gives the same URLs and attachments, and ends in the same way, as
    without it, and on its own it returns what it was given. *)
Theorem gatherContext_skips_blank_url (reads : nat -> TxOutcome)
    (db : BlobStore) (k : nat) (pre post : list ReferenceSource)
    (d : ReferenceSource) (urls : list jsstring) (files : list FileAttachment) :
  src_type d = type_url ->
  src_url d = None \/ src_url d = Some [] ->
  gatherContext reads db k (pre ++ d :: post) urls files
  = gatherContext reads db k (pre ++ post) urls files
  /\ gatherContext reads db k [d] urls files = Some (urls, files).
Proof.
  intros Hty Hurl. split.
  - rewrite !gatherContext_app.
    destruct (gatherContext reads db k pre urls files) as [[u f]|]; [|reflexivity].
    simpl. rewrite Hty. destruct Hurl as [-> | ->]; reflexivity.
  - simpl. rewrite Hty. destruct Hurl as [-> | ->]; reflexivity.
Qed.

Lemma gatherContext_skips_blank_url_witness :
  let blank := {| src_id := js "src-1-a"; src_type := type_url;
                  src_title := js "draft"; src_url := Some [];
                  src_mimeType := None |} in
  gatherContext allComplete (indexedDB sampleState) 0
    ([sampleUrlSource] ++ blank :: [sampleFileSource]) [] []
  = gatherContext allComplete (indexedDB sampleState) 0
      ([sampleUrlSource] ++ [sampleFileSource]) [] [].
Proof.
  intros blank.
  apply (gatherContext_skips_blank_url allComplete (indexedDB sampleState) 0
           [sampleUrlSource] [sampleFileSource] blank [] []);
    [reflexivity | right; reflexivity].
Defined.

(** ** A failed chat turn *)

Lemma generate_fails (g : GeminiEnv) (prompt : jsstring)
    (urls : list jsstring) (files : list FileAttachment) :
  generationFails g ->
  exists calls e,
    generateContentWithUrlContext g prompt urls files = (calls, Rejected e)
    /\ (calls = [] \/ calls = [EvGenerateContent prompt urls files]).
Proof.
  unfold generationFails, generateContentWithUrlContext.
  intros [-> | [-> | [e He]]]; [eauto | eauto |].
  destruct (API_KEY g) as [[|c key]|]; [eauto | rewrite He; eauto | eauto].
Qed.

Lemma resolveWithApology_snoc (pid : jsstring) (prev : list ChatMessage)
    (m : ChatMessage) :
  resolveWithApology pid (prev ++ [m])
  = resolveWithApology pid prev ++ resolveWithApology pid [m].
Proof. unfold resolveWithApology. now rewrite fmap_app. Qed.

Lemma resolveWithApology_fresh (pid : jsstring) (prev : list ChatMessage) :
  Forall (fun m => msg_id m <> pid) prev -> resolveWithApology pid prev = prev.
Proof.
  induction 1 as [|m prev Hm _ IH]; [reflexivity|].
  unfold resolveWithApology in *. rewrite fmap_cons, IH.
  now rewrite (bool_decide_eq_false_2 _ Hm).
Qed.

(** C9.  When the context of a turn has been gathered and the generation
    client fails, by a missing key or by any error of the SDK, the handler
    runs to its end: the transcript ends with the placeholder of the turn,
    no longer loading and carrying the one fixed apology, which is the text
    quoted in the statement, after the earlier
    messages and the message of the user (as they were, when none of them
    has the id of the placeholder); at most one request has gone to the SDK
    and nothing else has been issued; the group list, the blob store and the
    saved metadata are as before. *)
Theorem handleSendMessage_generation_failure (env : SendEnv) (query : jsstring)
    (temp : list FileAttachment) (s : AppState)
    (urls : list jsstring) (files : list FileAttachment) :
  gatherContext (reads env) (indexedDB s) 0 (activeSources s) [] temp
  = Some (urls, files) ->
  generationFails (gemini env) ->
  let pid := toString (placeholderNow env + 1) in
  let userMessage :=
    {| msg_id := toString (userNow env); msg_text := query;
       msg_sender := USER; msg_timestamp := userDate env;
       msg_isLoading := None; msg_urlContext := None;
       msg_attachments := Some temp |} in
  let apology :=
    js "Apologies, I encountered a diplomatic communication error. Please ensure your files are valid and try again." in
  let failed :=
    {| msg_id := pid; msg_text := apology; msg_sender := MODEL;
       msg_timestamp := placeholderDate env; msg_isLoading := Some false;
       msg_urlContext := None; msg_attachments := None |} in
  exists s',
    handleSendMessage env query temp s = Finished s'
    /\ urlGroups s' = urlGroups s
    /\ indexedDB s' = indexedDB s
    /\ localStorage s' = localStorage s
    /\ activeUrlGroupId s' = activeUrlGroupId s
    /\ isLoading s' = false
    /\ chatMessages s'
       = ((fun msg =>
             if bool_decide (msg_id msg = pid) then
               {| msg_id := msg_id msg; msg_text := apology;
                  msg_sender := msg_sender msg;
                  msg_timestamp := msg_timestamp msg;
                  msg_isLoading := Some false;
                  msg_urlContext := msg_urlContext msg;
                  msg_attachments := msg_attachments msg |}
             else msg) <$> (chatMessages s ++ [userMessage]))
         ++ [failed]
    /\ last (chatMessages s') = Some failed
    /\ (Forall (fun m => msg_id m <> pid) (chatMessages s ++ [userMessage]) ->
        chatMessages s' = chatMessages s ++ [userMessage; failed])
    /\ (newEvents s s' = []
        \/ newEvents s s' = [EvGenerateContent query urls files]).
Proof.
  intros Hgather Hfails pid userMessage apology failed.
  destruct (generate_fails (gemini env) query urls files Hfails)
    as (calls & e & Hgen & Hcalls).
  unfold handleSendMessage.
  change (indexedDB (setIsLoading true s)) with (indexedDB s).
  change (activeSources (setIsLoading true s)) with (activeSources s).
  rewrite Hgather, Hgen. eexists. split; [reflexivity|]. simpl.
  do 5 (split; [reflexivity|]).
  assert (resolveWithApology pid
            ((chatMessages s ++ [userMessage]) ++
             [{| msg_id := pid; msg_text := []; msg_sender := MODEL;
                 msg_timestamp := placeholderDate env;
                 msg_isLoading := Some true; msg_urlContext := None;
                 msg_attachments := None |}])
          = resolveWithApology pid (chatMessages s ++ [userMessage])
            ++ [failed]) as Hlast.
  { rewrite resolveWithApology_snoc. f_equal.
    unfold resolveWithApology. simpl.
    now rewrite bool_decide_eq_true_2. }
  split; [exact Hlast|].
  split; [exact (eq_trans (f_equal last Hlast) (last_snoc _ _))|]. split.
  - intros Hfresh. fold pid. fold userMessage. rewrite Hlast.
    rewrite (resolveWithApology_fresh _ _ Hfresh).
    now rewrite <- (assoc_L (++)).
  - unfold newEvents. simpl. rewrite drop_app_length.
    destruct Hcalls as [-> | ->]; auto.
Qed.

Lemma handleSendMessage_generation_failure_witness :
  exists s',
    handleSendMessage (sampleSendEnv quotaExceeded) (js "What applies?") []
      sampleState = Finished s'
    /\ urlGroups s' = urlGroups sampleState
    /\ indexedDB s' = indexedDB sampleState
    /\ (msg_text <$> chatMessages s')
       = [js "What applies?";
          js "Apologies, I encountered a diplomatic communication error. Please ensure your files are valid and try again."].
Proof.
  destruct (handleSendMessage_generation_failure (sampleSendEnv quotaExceeded)
              (js "What applies?") [] sampleState
              [sampleUrl]
              [ {| att_name := js "reg.pdf";
                   att_mimeType := js "application/pdf";
                   att_data := js "JVBERi0xLjQK" |} ])
    as (s' & Hrun & Hg & Hdb & _ & _ & _ & _ & _ & Hfresh & _).
  - vm_compute. reflexivity.
  - right. right. eexists. reflexivity.
  - exists s'. split; [exact Hrun|]. split; [exact Hg|]. split; [exact Hdb|].
    rewrite Hfresh; [reflexivity|].
    repeat constructor. vm_compute. discriminate.
Defined.

Example rethrow_quota :
  rethrow (ThrownError (js "429: quota exhausted"))
  = ThrownError (js "API quota exceeded. Please check your Gemini API quota.").
Proof. reflexivity. Qed.

(** ** Reconciliation at start-up *)

Lemma existsb_hasId (id : jsstring) (l : list ReferenceSource) :
  existsb (hasId id) l = true <-> id ∈ src_id <$> l.
Proof.
  induction l as [|x l IH]; simpl.
  - split; [discriminate | intros H; inversion H].
  - rewrite orb_true_iff, IH, elem_of_cons. unfold hasId.
    rewrite bool_decide_eq_true. intuition congruence.
Qed.

Lemma allIds_cons (g : URLGroup) (groups : list URLGroup) :
  allIds (g :: groups) = (src_id <$> grp_sources g) ++ allIds groups.
Proof. unfold allIds, allSources. simpl. now rewrite fmap_app. Qed.

Lemma isKnown_allIds (id : jsstring) (groups : list URLGroup) :
  isKnown id groups = true <-> id ∈ allIds groups.
Proof.
  induction groups as [|g groups IH].
  - simpl. split; [discriminate | intros H; inversion H].
  - rewrite allIds_cons, elem_of_app, <- IH, <- existsb_hasId. simpl.
    apply orb_true_iff.
Qed.

Lemma length_pushSource (i : nat) (x : ReferenceSource) (groups : list URLGroup) :
  length (pushSource i x groups) = length groups.
Proof. apply length_alter. Qed.

Lemma allIds_pushSource (x : ReferenceSource) (id : jsstring) :
  forall (groups : list URLGroup) (i : nat),
    id ∈ allIds (pushSource i x groups)
    <-> id ∈ allIds groups \/ ((i < length groups)%nat /\ id = src_id x).
Proof.
  induction groups as [|g groups IH]; intros i.
  - simpl. split; [auto | intros [H|[H _]]; [exact H | inversion H]].
  - destruct i as [|i].
    + unfold pushSource. simpl. rewrite !allIds_cons.
      simpl. rewrite fmap_app, !elem_of_app. simpl.
      rewrite list_elem_of_singleton.
      split; [intros [[?|?]|?]; auto; right; split; [lia | assumption]|].
      intros [[?|?]|[_ ?]]; auto.
    + change (pushSource (S i) x (g :: groups))
        with (g :: pushSource i x groups).
      rewrite !allIds_cons, !elem_of_app, IH. simpl.
      split; [intros [?|[?|[? ?]]]; auto; right; split; [lia | assumption]|].
      intros [[?|?]|[? ?]]; auto. right. right. split; [lia | assumption].
Qed.

Lemma allIds_pushed (i : nat) (synth : list ReferenceSource) (id : jsstring) :
  forall groups : list URLGroup,
    id ∈ allIds groups ->
    id ∈ allIds (foldl (fun acc x => pushSource i x acc) groups synth).
Proof.
  induction synth as [|x synth IH]; intros groups H; simpl; [exact H|].
  apply IH. apply allIds_pushSource. now left.
Qed.

Lemma defaultGroupIndex_bound (groups : list URLGroup) (i : nat) :
  defaultGroupIndex groups = Some i -> (i < length groups)%nat.
Proof.
  assert (forall gid gs j, findIndex gid gs = Some j -> (j < length gs)%nat)
    as Hfind.
  { intros gid gs. induction gs as [|g gs IH]; simpl; [discriminate|].
    intros j. case_bool_decide; [intros [= <-]; lia|].
    destruct (findIndex gid gs) as [k|]; simpl; [|discriminate].
    intros [= <-]. specialize (IH k eq_refl). lia. }
  unfold defaultGroupIndex.
  destruct (findIndex (js "default-library") groups) as [k|] eqn:E.
  - intros [= <-]. eapply Hfind, E.
  - destruct groups; [discriminate|]. intros [= <-]. simpl. lia.
Qed.

Lemma defaultGroupIndex_some (groups : list URLGroup) :
  groups <> [] -> exists i, defaultGroupIndex groups = Some i.
Proof.
  intros Hne. unfold defaultGroupIndex.
  destruct (findIndex (js "default-library") groups); [eauto|].
  destruct groups; [congruence | eauto].
Qed.

Lemma syncFiles_all_known (d : option nat) (dbFiles : list StoredFile)
    (groups : list URLGroup) :
  (forall file, file ∈ dbFiles -> sf_id file ∈ allIds groups) ->
  syncFiles d dbFiles groups = Some groups.
Proof.
  induction dbFiles as [|file rest IH]; intros Hall; simpl; [reflexivity|].
  assert (isKnown (sf_id file) groups = true) as ->
    by (apply isKnown_allIds, Hall; left).
  apply IH. intros f Hf. apply Hall. now right.
Qed.

Lemma syncFiles_no_default (dbFiles : list StoredFile)
    (groups groups' : list URLGroup) :
  syncFiles None dbFiles groups = Some groups' ->
  groups' = groups /\ forall file, file ∈ dbFiles -> sf_id file ∈ allIds groups.
Proof.
  induction dbFiles as [|file rest IH]; simpl.
  - intros [= <-]. split; [reflexivity | intros f Hf; inversion Hf].
  - destruct (isKnown (sf_id file) groups) eqn:E; [|discriminate].
    intros H. destruct (IH H) as [-> Hall]. split; [reflexivity|].
    intros f Hf. apply elem_of_cons in Hf as [-> | Hf]; [|auto].
    now apply isKnown_allIds.
Qed.

(** What the loop appends: one descriptor for each blob that no group
    holds, each id once. *)
Lemma syncFiles_synthesizes (i : nat) (dbFiles : list StoredFile) :
  forall groups : list URLGroup,
    (i < length groups)%nat ->
    exists synth,
      syncFiles (Some i) dbFiles groups
      = Some (foldl (fun acc x => pushSource i x acc) groups synth)
      /\ NoDup (src_id <$> synth)
      /\ (forall x, x ∈ synth ->
            (src_id x ∉ allIds groups)
            /\ exists file, (file ∈ dbFiles) /\ x = orphanSource file)
      /\ (forall file, file ∈ dbFiles ->
            sf_id file
            ∈ allIds (foldl (fun acc x => pushSource i x acc) groups synth)).
Proof.
  induction dbFiles as [|file rest IH]; intros groups Hi.
  - exists []. simpl. split; [reflexivity|]. split; [constructor|].
    split; intros ? H; inversion H.
  - simpl. destruct (isKnown (sf_id file) groups) eqn:E.
    + destruct (IH groups Hi) as (synth & -> & Hnd & Hnew & Hall).
      exists synth. split; [reflexivity|]. split; [exact Hnd|].
      split.
      * intros x Hx. destruct (Hnew x Hx) as (Hx1 & f & Hf & ->).
        split; [exact Hx1|]. exists f. split; [now right | reflexivity].
      * intros f Hf. apply elem_of_cons in Hf as [-> | Hf]; [|auto].
        now apply allIds_pushed, isKnown_allIds.
    + assert (sf_id file ∉ allIds groups) as Hfresh
        by (rewrite <- isKnown_allIds, E; discriminate).
      destruct (IH (pushSource i (orphanSource file) groups))
        as (synth & -> & Hnd & Hnew & Hall);
        [now rewrite length_pushSource|].
      exists (orphanSource file :: synth). split; [reflexivity|].
      split; [|split].
      * simpl. constructor; [|exact Hnd].
        intros Hin. apply list_elem_of_fmap in Hin as (x & Hid & Hx).
        destruct (Hnew x Hx) as [Hx1 _]. apply Hx1.
        apply allIds_pushSource. right. split; [exact Hi|]. now rewrite <- Hid.
      * intros x Hx. apply elem_of_cons in Hx as [-> | Hx].
        -- split; [exact Hfresh|]. exists file. split; [now left | reflexivity].
        -- destruct (Hnew x Hx) as (Hx1 & f & Hf & ->). split.
           ++ intros Hin. apply Hx1, allIds_pushSource. now left.
           ++ exists f. split; [now right | reflexivity].
      * intros f Hf. apply elem_of_cons in Hf as [-> | Hf]; [|auto].
        simpl. apply allIds_pushed, allIds_pushSource.
        right. split; [exact Hi | reflexivity].
Qed.

Lemma reconcile_fixed (groups groups' : list URLGroup)
    (dbFiles : list StoredFile) :
  reconcile groups dbFiles = Some groups' ->
  reconcile groups' dbFiles = Some groups'.
Proof.
  unfold reconcile. intros Hrun. apply syncFiles_all_known.
  destruct (defaultGroupIndex groups) as [i|] eqn:Hi.
  - apply defaultGroupIndex_bound in Hi.
    destruct (syncFiles_synthesizes i dbFiles groups Hi)
      as (synth & Hsync & _ & _ & Hall).
    rewrite Hsync in Hrun. now injection Hrun as <-.
  - now apply syncFiles_no_default in Hrun as [-> Hall].
Qed.

(** C4.  On a group list that is not empty the reconciliation returns.
    Whenever it returns, a second run on the list it gave and the same blobs
    gives that list again: after the first run the id of every blob is in
    some group.  The first run appends to the default group (the one named
    ['default-library'], or else the first) descriptors of blobs whose id no
    group held, and never two with the same id. *)
Theorem reconcile_idempotent (groups : list URLGroup)
    (dbFiles : list StoredFile) :
  (groups <> [] -> exists groups', reconcile groups dbFiles = Some groups')
  /\ (forall groups',
        reconcile groups dbFiles = Some groups' ->
        reconcile groups' dbFiles = Some groups'
        /\ exists synth,
             groups'
             = foldl (fun acc x =>
                        pushSource (default 0%nat (defaultGroupIndex groups)) x acc)
                 groups synth
             /\ NoDup (src_id <$> synth)
             /\ (forall x, x ∈ synth ->
                   (src_id x ∉ allIds groups)
                   /\ exists file, (file ∈ dbFiles) /\ x = orphanSource file)
             /\ (forall file, file ∈ dbFiles -> sf_id file ∈ allIds groups')).
Proof.
  unfold reconcile. split.
  - intros Hne. destruct (defaultGroupIndex_some groups Hne) as [i Hi].
    rewrite Hi. apply defaultGroupIndex_bound in Hi.
    destruct (syncFiles_synthesizes i dbFiles groups Hi) as (synth & -> & _).
    eauto.
  - intros groups' Hrun.
    destruct (defaultGroupIndex groups) as [i|] eqn:Hi.
    + apply defaultGroupIndex_bound in Hi.
      destruct (syncFiles_synthesizes i dbFiles groups Hi)
        as (synth & Hsync & Hnd & Hnew & Hall).
      rewrite Hsync in Hrun. injection Hrun as <-.
      split; [now apply syncFiles_all_known|].
      exists synth. auto.
    + apply syncFiles_no_default in Hrun as [-> Hall].
      split; [now apply syncFiles_all_known|].
      exists []. split; [reflexivity|]. split; [constructor|].
      split; [intros ? H; inversion H | exact Hall].
Qed.

Lemma reconcile_idempotent_witness :
  exists groups',
    reconcile INITIAL_URL_GROUPS [sampleBlob; sampleBlob] = Some groups'
    /\ reconcile groups' [sampleBlob; sampleBlob] = Some groups'.
Proof.
  destruct (reconcile_idempotent INITIAL_URL_GROUPS [sampleBlob; sampleBlob])
    as [Hruns Htwice].
  destruct Hruns as [groups' Hrun]; [discriminate|].
  exists groups'. split; [exact Hrun | apply (Htwice groups' Hrun)].
Defined.

Example reconcile_orphan :
  reconcile INITIAL_URL_GROUPS [sampleBlob; sampleBlob]
  = Some [ {| grp_id := js "default-library";
              grp_name := js "My Knowledge Library";
              grp_sources := [sampleFileSource] |} ].
Proof. reflexivity. Qed.

Example reconcile_without_group : reconcile [] [sampleBlob] = None.
Proof. reflexivity. Qed.

(** Two starts in a row on the same store end with the same group list:
    each one reads the group list that its own first render has just
    written. *)
Lemma mount_twice (env : InitEnv) (saved : option (list URLGroup))
    (db : BlobStore) (s1 : AppState) :
  initOutcome env = TxComplete ->
  getAllOutcome env = TxComplete ->
  mount true env (mountState saved db) = Finished s1 ->
  exists s2,
    mount true env (mountState (Some (urlGroups s1)) (indexedDB s1))
    = Finished s2
    /\ urlGroups s2 = urlGroups s1.
Proof.
  intros Hinit Hall. unfold mount, initializeData. rewrite Hinit.
  unfold getAllFilesFromDB. rewrite Hall. simpl.
  destruct (reconcile INITIAL_URL_GROUPS (recordsByKey db))
    as [groups'|] eqn:Hrun; [|discriminate].
  intros [= <-]. simpl. rewrite Hrun.
  eexists. split; reflexivity.
Qed.

(** ** Identifiers *)

Lemma digitsOf_inj (d d' : Decimal.uint) : digitsOf d = digitsOf d' -> d = d'.
Proof.
  revert d'. induction d; destruct d'; simpl; intros H;
    try discriminate H; try reflexivity;
    injection H as H; f_equal; auto.
Qed.

Lemma toString_inj (n n' : N) : toString n = toString n' -> n = n'.
Proof.
  intros H. apply DecimalN.Unsigned.to_uint_inj. now apply digitsOf_inj.
Qed.

Lemma digitsOf_no_dash (d : Decimal.uint) : Forall (fun c => c <> 45) (digitsOf d).
Proof. induction d; simpl; constructor; auto; discriminate. Qed.

Lemma split_at_dash (a a' b b' : jsstring) :
  Forall (fun c => c <> 45) a -> Forall (fun c => c <> 45) a' ->
  a ++ 45 :: b = a' ++ 45 :: b' -> a = a' /\ b = b'.
Proof.
  intros Ha. revert a'. induction Ha as [|c a Hc Ha IH]; intros a' Ha' H.
  - destruct Ha' as [|c' a' Hc' Ha']; simpl in H.
    + injection H as <-. auto.
    + injection H as <- _. congruence.
  - destruct Ha' as [|c' a' Hc' Ha']; simpl in H.
    + injection H as -> _. congruence.
    + injection H as <- H. destruct (IH a' Ha' H) as [<- <-]. auto.
Qed.

(** The id tells the reading of the clock and the random suffix it was made
    of, and whether it is the id of a link or of a document. *)
Lemma freshId_inj (prefix : string) (n n' : N) (r r' : jsstring) :
  freshId prefix n r = freshId prefix n' r' ->
  n = n' /\ randomSuffix r = randomSuffix r'.
Proof.
  unfold freshId. intros H. apply app_inv_head in H.
  change (js "-") with [45] in H. simpl in H.
  apply split_at_dash in H as [Hn Hr];
    [|apply digitsOf_no_dash|apply digitsOf_no_dash].
  split; [now apply toString_inj | exact Hr].
Qed.

Lemma freshId_kinds (n n' : N) (r r' : jsstring) :
  freshId "src-" n r <> freshId "file-" n' r'.
Proof. unfold freshId. change (js "src-") with [115; 114; 99; 45].
  change (js "file-") with [102; 105; 108; 101; 45]. discriminate. Qed.

Lemma generatedId_inj (op op' : AddOp) :
  generatedId op = generatedId op' -> draw op = draw op'.
Proof.
  destruct op as [n r u | env f], op' as [n' r' u' | env' f']; simpl; intros H.
  - apply freshId_inj in H as [-> ->]. reflexivity.
  - now apply freshId_kinds in H.
  - symmetry in H. now apply freshId_kinds in H.
  - apply freshId_inj in H as [-> ->]. reflexivity.
Qed.

Lemma appendToGroup_ids (gid : jsstring) (x : ReferenceSource)
    (groups : list URLGroup) :
  grp_id <$> appendToGroup gid x groups = grp_id <$> groups.
Proof.
  unfold appendToGroup. rewrite <- list_fmap_compose.
  apply list_fmap_ext. intros _ g _. simpl. now case_bool_decide.
Qed.

Lemma appendToGroup_absent (gid : jsstring) (x : ReferenceSource)
    (groups : list URLGroup) :
  gid ∉ grp_id <$> groups -> appendToGroup gid x groups = groups.
Proof.
  induction groups as [|g groups IH]; simpl; [reflexivity|].
  rewrite not_elem_of_cons. intros [Hg Hrest].
  rewrite bool_decide_eq_false_2 by congruence.
  f_equal. now apply IH.
Qed.

Lemma allIds_appendToGroup (gid : jsstring) (x : ReferenceSource) (id : jsstring)
    (groups : list URLGroup) :
  id ∈ allIds (appendToGroup gid x groups) ->
  id ∈ allIds groups \/ id = src_id x.
Proof.
  induction groups as [|g groups IH]; simpl; [auto|].
  change (appendToGroup gid x groups)
    with ((fun group =>
             if bool_decide (grp_id group = gid) then
               {| grp_id := grp_id group; grp_name := grp_name group;
                  grp_sources := grp_sources group ++ [x] |}
             else group) <$> groups) in IH.
  rewrite !allIds_cons, !elem_of_app. case_bool_decide; simpl.
  - rewrite fmap_app, elem_of_app. simpl. rewrite list_elem_of_singleton.
    intros [[?|?]|?]; auto. destruct IH; auto.
  - intros [?|?]; auto. destruct IH; auto.
Qed.

Lemma NoDup_appendToGroup (gid : jsstring) (x : ReferenceSource)
    (groups : list URLGroup) :
  NoDup (grp_id <$> groups) ->
  NoDup (allIds groups) ->
  src_id x ∉ allIds groups ->
  NoDup (allIds (appendToGroup gid x groups)).
Proof.
  induction groups as [|g groups IH]; [intros; constructor|].
  rewrite fmap_cons, NoDup_cons, allIds_cons, NoDup_app, not_elem_of_app.
  intros [Hg Hgs] (Hown & Hcross & Hrest) [Hx1 Hx2].
  change (appendToGroup gid x (g :: groups))
    with ((if bool_decide (grp_id g = gid) then
             {| grp_id := grp_id g; grp_name := grp_name g;
                grp_sources := grp_sources g ++ [x] |}
           else g) :: appendToGroup gid x groups).
  rewrite allIds_cons. case_bool_decide as Hid; simpl.
  - subst gid. rewrite (appendToGroup_absent _ _ _ Hg).
    rewrite fmap_app. simpl. apply NoDup_app.
    split; [|split; [|exact Hrest]].
    + apply NoDup_app. split; [exact Hown|]. split; [|apply NoDup_singleton].
      intros a Ha Hs. apply list_elem_of_singleton in Hs as ->. auto.
    + intros a Ha. apply elem_of_app in Ha as [Ha|Ha]; [now apply Hcross|].
      apply list_elem_of_singleton in Ha as ->. exact Hx2.
  - apply NoDup_app. split; [exact Hown|]. split; [|now apply IH].
    intros a Ha Hin. apply allIds_appendToGroup in Hin as [Hin | ->];
      [now apply (Hcross a) | auto].
Qed.

Lemma appendToGroup_prefix (gid : jsstring) (x : ReferenceSource)
    (groups : list URLGroup) (i : nat) (g : URLGroup) :
  groups !! i = Some g ->
  exists g', appendToGroup gid x groups !! i = Some g'
    /\ grp_id g' = grp_id g
    /\ grp_sources g `prefix_of` grp_sources g'.
Proof.
  intros Hg. unfold appendToGroup. rewrite list_lookup_fmap, Hg. simpl.
  eexists. split; [reflexivity|]. case_bool_decide; simpl.
  - split; [reflexivity|]. now exists [x].
  - split; reflexivity.
Qed.

(** One addition leaves the group list as it is or appends to the active
    group a descriptor with the id it generated. *)
Lemma runAdd_groups (op : AddOp) (s : AppState) :
  activeUrlGroupId (runAdd op s) = activeUrlGroupId s
  /\ (urlGroups (runAdd op s) = urlGroups s
      \/ exists x, src_id x = generatedId op
           /\ urlGroups (runAdd op s)
              = appendToGroup (activeUrlGroupId s) x (urlGroups s)).
Proof.
  destruct op as [n r u | env f]; simpl.
  - split; [reflexivity|]. right. eexists. split; [|reflexivity]. reflexivity.
  - unfold handleAddPersistentFile.
    destruct (fileToBase64 (reader env)); simpl; auto.
    destruct (putOutcome env); simpl; auto.
    split; [reflexivity|]. right. eexists. split; [|reflexivity]. reflexivity.
Qed.

(** C8, as the code has it.  Ids come from the clock and the random
    generator, so that two additions of the same kind that read the same
    millisecond and draw the same suffix get the same id.  In a library
    whose groups have distinct ids and whose descriptors have distinct ids,
    additions whose draws are pairwise different, and whose ids are not in
    the library yet, leave the ids of all descriptors pairwise distinct; and
    every group keeps the descriptors it had, in their places and as they
    were, so that no id is changed. *)
Theorem adds_keep_ids_distinct (ops : list AddOp) :
  forall s : AppState,
    NoDup (grp_id <$> urlGroups s) ->
    NoDup (allIds (urlGroups s)) ->
    NoDup (draw <$> ops) ->
    (forall op, op ∈ ops -> generatedId op ∉ allIds (urlGroups s)) ->
    NoDup (allIds (urlGroups (runAdds ops s)))
    /\ (forall i g,
          urlGroups s !! i = Some g ->
          exists g', urlGroups (runAdds ops s) !! i = Some g'
            /\ grp_id g' = grp_id g
            /\ grp_sources g `prefix_of` grp_sources g').
Proof.
  induction ops as [|op ops IH]; intros s Hgroups Hids Hdraws Hfresh.
  - simpl. split; [exact Hids|]. intros i g Hg. exists g. auto.
  - change (runAdds (op :: ops) s) with (runAdds ops (runAdd op s)).
    rewrite fmap_cons in Hdraws. apply NoDup_cons in Hdraws as [Hop Hdraws].
    destruct (runAdd_groups op s) as [_ [Hsame | (x & Hx & Happ)]].
    + destruct (IH (runAdd op s)) as [Hnd Hkeep]; rewrite ?Hsame; auto.
      { intros op' Hop'. apply Hfresh. now right. }
      split; [exact Hnd|]. intros i g Hg. apply Hkeep. now rewrite Hsame.
    + assert (src_id x ∉ allIds (urlGroups s)) as Hxfresh
        by (rewrite Hx; apply Hfresh; left).
      destruct (IH (runAdd op s)) as [Hnd Hkeep]; rewrite ?Happ; auto.
      { now rewrite appendToGroup_ids. }
      { now apply NoDup_appendToGroup. }
      { intros op' Hop' Hin.
        apply allIds_appendToGroup in Hin as [Hin | Heq].
        - revert Hin. apply Hfresh. now right.
        - rewrite Hx in Heq. apply generatedId_inj in Heq.
          apply Hop. rewrite <- Heq. apply list_elem_of_fmap. eauto. }
      split; [exact Hnd|]. intros i g Hg.
      destruct (appendToGroup_prefix (activeUrlGroupId s) x _ i g Hg)
        as (g1 & Hg1 & Hid1 & Hpre1).
      rewrite <- Happ in Hg1.
      destruct (Hkeep i g1 Hg1) as (g' & Hg' & Hid' & Hpre').
      exists g'. split; [exact Hg'|]. split; [congruence|].
      now transitivity (grp_sources g1).
Qed.

Lemma adds_keep_ids_distinct_witness :
  NoDup (allIds (urlGroups
           (runAdds [AddUrl 1730486400000 (js "0.4fzyo82mvyr") sampleUrl;
                     AddFile sampleAddEnv sampleUpload] initialState))).
Proof.
  apply (adds_keep_ids_distinct
           [AddUrl 1730486400000 (js "0.4fzyo82mvyr") sampleUrl;
            AddFile sampleAddEnv sampleUpload] initialState).
  - apply (bool_decide_unpack _). vm_compute. exact I.
  - simpl. constructor.
  - apply (bool_decide_unpack _). vm_compute. exact I.
  - intros op _ H. simpl in H. inversion H.
Defined.

(** C8, as it is stated, fails: two links added in the same millisecond with
    the same random draw get the same id. *)
Lemma ids_may_collide :
  ~ (forall ops : list AddOp,
       NoDup (allIds (urlGroups (runAdds ops initialState)))).
Proof.
  intros H.
  specialize (H [AddUrl 1730486400000 (js "0.4fzyo82mvyr") sampleUrl;
                 AddUrl 1730486400000 (js "0.4fzyo82mvyr")
                   (js "https://example.com/sb53")]).
  apply NoDup_cons in H as [Hnotin _]. apply Hnotin. left.
Qed.

Example colliding_ids :
  allIds (urlGroups
            (runAdds [AddUrl 1730486400000 (js "0.4fzyo82mvyr") sampleUrl;
                      AddUrl 1730486400000 (js "0.4fzyo82mvyr")
                        (js "https://example.com/sb53")] initialState))
  = [js "src-1730486400000-4fzyo82mv"; js "src-1730486400000-4fzyo82mv"].
Proof. reflexivity. Qed.

(** A file of another type is turned away before any work on the stores. *)
Lemma addFileSource_rejects_other_types (env : AddFileEnv) (file : File)
    (rest : list File) (f : FormState) (s : AppState) :
  file_type file <> js "application/pdf" ->
  addFileSource env (file :: rest) f s
  = (setError (Some (js "Only PDF files are currently supported for the library.")) f,
     Finished s).
Proof.
  intros Hty. unfold addFileSource, handleFileSelect.
  now rewrite (bool_decide_eq_false_2 _ Hty).
Qed.

(** * Further properties of the code *)

(** ** The blob store *)

(** X1.  A blob whose save completed is read back as it was saved, and the
    blobs under other ids are as before; a save that did not complete leaves
    the store as it was. *)
Theorem saveFileToDB_round_trip (file : StoredFile) (db : BlobStore) :
  getFileFromDB TxComplete (sf_id file) (saveFileToDB TxComplete file db).1
  = Resolved (Some file)
  /\ (forall id, id <> sf_id file ->
        getFileFromDB TxComplete id (saveFileToDB TxComplete file db).1
        = getFileFromDB TxComplete id db)
  /\ (forall o, o <> TxComplete -> (saveFileToDB o file db).1 = db).
Proof.
  simpl. split; [now rewrite lookup_insert_eq|]. split.
  - intros id Hne. now rewrite lookup_insert_ne.
  - intros [] Ho; simpl; congruence.
Qed.

(** X2.  After a completed delete the id is absent and the other blobs are
    as before; deleting an absent id leaves the store as it is, so that a
    second delete changes nothing; a delete that did not complete deletes
    nothing. *)
Theorem deleteFileFromDB_idempotent (id : jsstring) (db : BlobStore) :
  getFileFromDB TxComplete id (deleteFileFromDB TxComplete id db).1
  = Resolved None
  /\ (forall id', id' <> id ->
        getFileFromDB TxComplete id' (deleteFileFromDB TxComplete id db).1
        = getFileFromDB TxComplete id' db)
  /\ (db !! id = None -> (deleteFileFromDB TxComplete id db).1 = db)
  /\ (deleteFileFromDB TxComplete id (deleteFileFromDB TxComplete id db).1).1
     = (deleteFileFromDB TxComplete id db).1
  /\ (forall o, o <> TxComplete -> (deleteFileFromDB o id db).1 = db).
Proof.
  simpl. split; [now rewrite lookup_delete_eq|]. split.
  - intros id' Hne. now rewrite lookup_delete_ne.
  - split; [apply delete_id|]. split; [apply delete_delete_eq|].
    intros [] Ho; simpl; congruence.
Qed.

Lemma deleteFileFromDB_idempotent_witness :
  (deleteFileFromDB TxComplete (js "file-0-none") (indexedDB sampleState)).1
  = indexedDB sampleState.
Proof.
  destruct (deleteFileFromDB_idempotent (js "file-0-none")
              (indexedDB sampleState)) as (_ & _ & Habsent & _).
  apply Habsent. apply lookup_singleton_ne. discriminate.
Defined.

Lemma keyed_ids (l : list (jsstring * StoredFile)) :
  Forall (fun kv => sf_id kv.2 = kv.1) l -> sf_id <$> l.*2 = l.*1.
Proof.
  induction 1 as [|[k v] l Hkv _ IH]; [reflexivity|].
  rewrite !fmap_cons. simpl in Hkv. cbn [fst snd]. now rewrite Hkv, IH.
Qed.

Lemma insertByKey_perm (kv : jsstring * StoredFile)
    (l : list (jsstring * StoredFile)) :
  insertByKey kv l ≡ₚ kv :: l.
Proof.
  induction l as [|kv' l IH]; simpl; [reflexivity|].
  destruct (keyLeb kv.1 kv'.1); [reflexivity|].
  rewrite IH. apply Permutation_swap.
Qed.

Lemma sortByKey_perm (l : list (jsstring * StoredFile)) : sortByKey l ≡ₚ l.
Proof.
  induction l as [|kv l IH]; [reflexivity|].
  change (sortByKey (kv :: l)) with (insertByKey kv (sortByKey l)).
  now rewrite insertByKey_perm, IH.
Qed.

Lemma keyLeb_total (a : jsstring) :
  forall b, keyLeb a b = false -> keyLeb b a = true.
Proof.
  induction a as [|x a IH]; intros [|y b]; simpl; try discriminate;
    try reflexivity.
  destruct (x <? y) eqn:Hxy; [discriminate|].
  destruct (y <? x) eqn:Hyx; [reflexivity|]. apply IH.
Qed.

Lemma insertByKey_ascending (kv : jsstring * StoredFile)
    (l : list (jsstring * StoredFile)) :
  ascending l.*1 -> ascending (insertByKey kv l).*1.
Proof.
  unfold ascending. induction l as [|kv' l IH]; intros Hs.
  - simpl. repeat constructor.
  - simpl. destruct (keyLeb kv.1 kv'.1) eqn:Hle.
    + rewrite fmap_cons. constructor; [exact Hs|]. constructor. exact Hle.
    + rewrite fmap_cons in *. apply Sorted_inv in Hs as [Hs Hhd].
      constructor; [now apply IH|].
      apply keyLeb_total in Hle.
      destruct l as [|kv'' l]; simpl; [now constructor|].
      destruct (keyLeb kv.1 kv''.1); simpl; constructor;
        [exact Hle | now inversion Hhd].
Qed.

Lemma sortByKey_ascending (l : list (jsstring * StoredFile)) :
  ascending (sortByKey l).*1.
Proof.
  induction l as [|kv l IH]; [constructor|].
  change (sortByKey (kv :: l)) with (insertByKey kv (sortByKey l)).
  now apply insertByKey_ascending.
Qed.

Lemma keyed_sorted_list (db : BlobStore) :
  keyed db ->
  Forall (fun kv => sf_id kv.2 = kv.1) (sortByKey (map_to_list db)).
Proof.
  intros Hkeyed. apply Forall_forall. intros [k v] Hkv. simpl.
  rewrite sortByKey_perm in Hkv. apply Hkeyed.
  now apply elem_of_map_to_list.
Qed.

Lemma recordsByKey_ids (db : BlobStore) :
  keyed db -> sf_id <$> recordsByKey db = (sortByKey (map_to_list db)).*1.
Proof. intros Hkeyed. apply keyed_ids, keyed_sorted_list, Hkeyed. Qed.

Lemma recordsByKey_NoDup (db : BlobStore) :
  keyed db -> NoDup (sf_id <$> recordsByKey db).
Proof.
  intros Hkeyed. rewrite (recordsByKey_ids _ Hkeyed), sortByKey_perm.
  apply NoDup_fst_map_to_list.
Qed.

Lemma recordsByKey_elem (db : BlobStore) (file : StoredFile) :
  keyed db -> file ∈ recordsByKey db <-> db !! sf_id file = Some file.
Proof.
  intros Hkeyed. unfold recordsByKey. rewrite list_elem_of_fmap. split.
  - intros ([k v] & -> & Hkv). simpl. rewrite sortByKey_perm in Hkv.
    apply elem_of_map_to_list in Hkv. now rewrite (Hkeyed k v Hkv).
  - intros Hfile. exists (sf_id file, file). split; [reflexivity|].
    rewrite sortByKey_perm. now apply elem_of_map_to_list.
Qed.

Lemma recordsByKey_ascending (db : BlobStore) :
  keyed db -> ascending (sf_id <$> recordsByKey db).
Proof.
  intros Hkeyed. rewrite (recordsByKey_ids _ Hkeyed).
  apply sortByKey_ascending.
Qed.

Lemma keyed_empty : keyed ∅.
Proof. intros k file Hk. now rewrite lookup_empty in Hk. Qed.

Lemma keyed_insert (file : StoredFile) (db : BlobStore) :
  keyed db -> keyed (<[sf_id file := file]> db).
Proof.
  intros Hkeyed k f Hf.
  apply lookup_insert_Some in Hf as [[<- <-] | [_ Hf]];
    [reflexivity | now apply Hkeyed].
Qed.

Lemma keyed_fourBlobs : keyed fourBlobs.
Proof.
  unfold fourBlobs.
  apply (keyed_insert (blobNamed "1-c" "c.pdf")),
        (keyed_insert (blobNamed "2-b" "b.pdf")),
        (keyed_insert (blobNamed "17-d" "d.pdf")),
        (keyed_insert (blobNamed "10-a" "a.pdf")), keyed_empty.
Qed.

Example getAll_by_key :
  getAllFilesFromDB TxComplete fourBlobs
  = Resolved [blobNamed "1-c" "c.pdf"; blobNamed "10-a" "a.pdf";
              blobNamed "17-d" "d.pdf"; blobNamed "2-b" "b.pdf"].
Proof. vm_compute. reflexivity. Qed.

(** X3.  From a store that keeps every record under its own id,
    [getAllFilesFromDB] gives every record once: the ids of the list are
    pairwise distinct, and a record is in the list exactly when it is the
    one stored under its id. *)
Theorem getAllFilesFromDB_distinct (db : BlobStore) (dbFiles : list StoredFile) :
  keyed db ->
  getAllFilesFromDB TxComplete db = Resolved dbFiles ->
  NoDup (sf_id <$> dbFiles)
  /\ (forall file, file ∈ dbFiles <-> db !! sf_id file = Some file).
Proof.
  intros Hkeyed [= <-]. split.
  - now apply recordsByKey_NoDup.
  - intros file. now apply recordsByKey_elem.
Qed.

Lemma getAllFilesFromDB_distinct_witness :
  NoDup (sf_id <$> [blobNamed "1-c" "c.pdf"; blobNamed "10-a" "a.pdf";
                    blobNamed "17-d" "d.pdf"; blobNamed "2-b" "b.pdf"])
  /\ (forall file,
        file ∈ [blobNamed "1-c" "c.pdf"; blobNamed "10-a" "a.pdf";
                blobNamed "17-d" "d.pdf"; blobNamed "2-b" "b.pdf"]
        <-> fourBlobs !! sf_id file = Some file).
Proof.
  apply (getAllFilesFromDB_distinct fourBlobs).
  - exact keyed_fourBlobs.
  - vm_compute. reflexivity.
Defined.

Lemma saveFileToDB_round_trip_witness :
  getFileFromDB TxComplete (sf_id sampleBlob)
    (saveFileToDB TxComplete
       {| sf_id := js "file-7-new"; sf_name := js "act.pdf";
          sf_mimeType := js "application/pdf"; sf_data := js "JVBERi0=";
          sf_date := 7 |} (indexedDB sampleState)).1
  = getFileFromDB TxComplete (sf_id sampleBlob) (indexedDB sampleState).
Proof.
  destruct (saveFileToDB_round_trip
              {| sf_id := js "file-7-new"; sf_name := js "act.pdf";
                 sf_mimeType := js "application/pdf"; sf_data := js "JVBERi0=";
                 sf_date := 7 |} (indexedDB sampleState)) as (_ & Hother & _).
  apply Hother. discriminate.
Defined.

(** ** The group list under the handlers *)

Lemma allSources_cons (g : URLGroup) (groups : list URLGroup) :
  allSources (g :: groups) = grp_sources g ++ allSources groups.
Proof. reflexivity. Qed.

Lemma allSources_appendToGroup (gid : jsstring) (x d : ReferenceSource)
    (groups : list URLGroup) :
  d ∈ allSources (appendToGroup gid x groups) ->
  d ∈ allSources groups \/ d = x.
Proof.
  induction groups as [|g groups IH]; [auto|].
  change (appendToGroup gid x (g :: groups))
    with ((if bool_decide (grp_id g = gid) then
             {| grp_id := grp_id g; grp_name := grp_name g;
                grp_sources := grp_sources g ++ [x] |}
           else g) :: appendToGroup gid x groups).
  rewrite !allSources_cons, !elem_of_app. case_bool_decide; simpl.
  - rewrite elem_of_app, list_elem_of_singleton. intros [[?|?]|?]; auto.
    destruct IH; auto.
  - intros [?|?]; auto. destruct IH; auto.
Qed.

Lemma allSources_removeFromGroups (sourceId : jsstring) (groups : list URLGroup) :
  allSources (removeFromGroups sourceId groups)
  = List.filter (fun s => negb (hasId sourceId s)) (allSources groups).
Proof.
  induction groups as [|g groups IH]; [reflexivity|].
  change (removeFromGroups sourceId (g :: groups))
    with ({| grp_id := grp_id g; grp_name := grp_name g;
             grp_sources := List.filter (fun s => negb (hasId sourceId s))
                              (grp_sources g) |}
          :: removeFromGroups sourceId groups).
  rewrite !allSources_cons, IH. simpl. now rewrite List.filter_app.
Qed.

Lemma filter_without_absent (sourceId : jsstring) (l : list ReferenceSource) :
  sourceId ∉ src_id <$> l ->
  List.filter (fun s => negb (hasId sourceId s)) l = l.
Proof.
  induction l as [|x l IH]; [reflexivity|].
  rewrite fmap_cons, not_elem_of_cons. intros [Hx Hl]. simpl.
  unfold hasId at 1. rewrite bool_decide_eq_false_2 by congruence. simpl.
  now rewrite IH.
Qed.

Lemma removeFromGroups_absent (sourceId : jsstring) (groups : list URLGroup) :
  sourceId ∉ allIds groups -> removeFromGroups sourceId groups = groups.
Proof.
  induction groups as [|[gid name sources] groups IH]; [reflexivity|].
  rewrite allIds_cons, not_elem_of_app. simpl. intros [Hg Hrest].
  change (removeFromGroups sourceId
            ({| grp_id := gid; grp_name := name; grp_sources := sources |}
             :: groups))
    with ({| grp_id := gid; grp_name := name;
             grp_sources := List.filter (fun s => negb (hasId sourceId s))
                              sources |}
          :: removeFromGroups sourceId groups).
  now rewrite (filter_without_absent _ _ Hg), (IH Hrest).
Qed.

Lemma removeFromGroups_appendToGroup (gid : jsstring) (x : ReferenceSource)
    (groups : list URLGroup) :
  src_id x ∉ allIds groups ->
  removeFromGroups (src_id x) (appendToGroup gid x groups) = groups.
Proof.
  induction groups as [|[g name sources] groups IH]; [reflexivity|].
  rewrite allIds_cons, not_elem_of_app. simpl. intros [Hg Hrest].
  change (appendToGroup gid x
            ({| grp_id := g; grp_name := name; grp_sources := sources |}
             :: groups))
    with ((if bool_decide (g = gid) then
             {| grp_id := g; grp_name := name; grp_sources := sources ++ [x] |}
           else {| grp_id := g; grp_name := name; grp_sources := sources |})
          :: appendToGroup gid x groups).
  change (removeFromGroups (src_id x) (?h :: ?t))
    with ({| grp_id := grp_id h; grp_name := grp_name h;
             grp_sources := List.filter (fun s => negb (hasId (src_id x) s))
                              (grp_sources h) |}
          :: removeFromGroups (src_id x) t).
  rewrite (IH Hrest). f_equal. case_bool_decide; simpl.
  - rewrite List.filter_app, (filter_without_absent _ _ Hg). simpl.
    unfold hasId. rewrite bool_decide_eq_true_2 by reflexivity. simpl.
    now rewrite app_nil_r.
  - now rewrite (filter_without_absent _ _ Hg).
Qed.

Lemma findSource_elem (sourceId : jsstring) (groups : list URLGroup)
    (d : ReferenceSource) :
  findSource sourceId groups = Some d ->
  d ∈ allSources groups /\ src_id d = sourceId.
Proof.
  unfold findSource.
  destruct (List.find _ groups) as [g|] eqn:Hg; [|discriminate].
  intros Hd. apply find_some in Hg as [Hg _]. apply find_some in Hd as [Hd Hid].
  split.
  - unfold allSources. apply list_elem_of_bind. exists g.
    split; now apply list_elem_of_In.
  - unfold hasId in Hid. now apply bool_decide_eq_true in Hid.
Qed.

Lemma findSource_present (sourceId : jsstring) (groups : list URLGroup) :
  sourceId ∈ allIds groups -> is_Some (findSource sourceId groups).
Proof.
  intros Hin. destruct (findSource sourceId groups) as [d|] eqn:E; [eauto|].
  exfalso. unfold findSource in E.
  destruct (List.find _ groups) as [g|] eqn:Hg.
  - apply find_some in Hg as [_ Hex]. apply existsb_exists in Hex as (d & Hd & Hid).
    eapply find_none in E; [|exact Hd]. congruence.
  - apply isKnown_allIds in Hin. unfold isKnown in Hin.
    apply existsb_exists in Hin as (g & Hgin & Hex).
    eapply find_none in Hg; [|exact Hgin]. simpl in Hg. congruence.
Qed.

(** X4.  [handleAddSource] touches the groups whose id is the active id and
    no other; when no group has the active id, the link is dropped: the
    group list stays as it was.  The blob store is never touched. *)
Theorem handleAddSource_active_group_only (now : N) (r36 url : jsstring)
    (s : AppState) :
  let s' := handleAddSource now r36 url s in
  (forall i g, urlGroups s !! i = Some g -> grp_id g <> activeUrlGroupId s ->
     urlGroups s' !! i = Some g)
  /\ (activeUrlGroupId s ∉ grp_id <$> urlGroups s -> urlGroups s' = urlGroups s)
  /\ indexedDB s' = indexedDB s.
Proof.
  simpl. split; [|split; [apply appendToGroup_absent | reflexivity]].
  intros i g Hg Hne. unfold appendToGroup.
  rewrite list_lookup_fmap, Hg. simpl.
  now rewrite bool_decide_eq_false_2.
Qed.

Lemma handleAddSource_active_group_only_witness :
  urlGroups (handleAddSource 5 (js "0.abc") sampleUrl
               (setActiveUrlGroupId (js "archive") sampleState))
  = [sampleGroup].
Proof.
  destruct (handleAddSource_active_group_only 5 (js "0.abc") sampleUrl
              (setActiveUrlGroupId (js "archive") sampleState))
    as (_ & Hdropped & _).
  apply Hdropped. simpl. rewrite list_elem_of_singleton. discriminate.
Defined.

(** X5.  An upload while the active id names no group stores the blob and
    adds no descriptor: when the id is new, the blob is an orphan. *)
Theorem upload_without_active_group (env : AddFileEnv) (file : File)
    (s : AppState) (base64 : jsstring) :
  activeUrlGroupId s ∉ grp_id <$> urlGroups s ->
  written env base64 ->
  let id := freshId "file-" (addNow env) (addRandom env) in
  exists s',
    handleAddPersistentFile env file s = Finished s'
    /\ is_Some (indexedDB s' !! id)
    /\ urlGroups s' = urlGroups s
    /\ (id ∉ allIds (urlGroups s) -> ~ noOrphan s').
Proof.
  intros Habsent [Hread Hput] id. unfold handleAddPersistentFile.
  rewrite Hread, Hput. simpl. eexists. split; [reflexivity|]. simpl.
  rewrite (appendToGroup_absent _ _ _ Habsent).
  split; [rewrite lookup_insert_eq; eauto|]. split; [reflexivity|].
  intros Hnew Horphan. apply Hnew.
  specialize (Horphan id _ (lookup_insert_eq _ _ _)). simpl in Horphan.
  now rewrite (appendToGroup_absent _ _ _ Habsent) in Horphan.
Qed.

Lemma upload_without_active_group_witness :
  exists s',
    handleAddPersistentFile sampleAddEnv sampleUpload
      (setActiveUrlGroupId (js "archive") initialState) = Finished s'
    /\ urlGroups s' = INITIAL_URL_GROUPS.
Proof.
  destruct (upload_without_active_group sampleAddEnv sampleUpload
              (setActiveUrlGroupId (js "archive") initialState)
              (js "JVBERi0xLjQK")) as (s' & Hrun & _ & Hgroups & _).
  - simpl. rewrite list_elem_of_singleton. discriminate.
  - split; reflexivity.
  - exists s'. split; [exact Hrun | exact Hgroups].
Defined.

Lemma findSource_appended_file (gid id : jsstring) (file : File)
    (groups : list URLGroup) :
  gid ∈ grp_id <$> groups ->
  id ∉ allIds groups ->
  findSource id (appendToGroup gid (fileSource id file) groups)
  = Some (fileSource id file).
Proof.
  intros Hgid Hnew.
  destruct (findSource_present id (appendToGroup gid (fileSource id file) groups))
    as [d Hd].
  - destruct (appendToGroup_lookup gid (fileSource id file) groups Hgid)
      as (i & g & g' & _ & Hg' & Hs).
    apply isKnown_allIds. unfold isKnown. apply existsb_exists.
    exists g'. split; [eapply list_elem_of_In, list_elem_of_lookup_2, Hg'|].
    rewrite Hs, existsb_app. simpl. unfold hasId.
    rewrite (bool_decide_eq_true_2 (id = id)) by reflexivity.
    now rewrite orb_true_r.
  - rewrite Hd. f_equal. apply findSource_elem in Hd as [Hin Hid].
    apply allSources_appendToGroup in Hin as [Hin | ->]; [|reflexivity].
    exfalso. apply Hnew. unfold allIds. apply list_elem_of_fmap. eauto.
Qed.

(** X6.  An upload that is written, under an id that neither the library
    nor the store has, followed by the removal of that id with a completed
    delete, gives back the group list and the blob store from before the
    upload. *)
Theorem upload_then_remove_restores (env : AddFileEnv) (file : File)
    (s : AppState) (base64 : jsstring) :
  let id := freshId "file-" (addNow env) (addRandom env) in
  activeUrlGroupId s ∈ grp_id <$> urlGroups s ->
  id ∉ allIds (urlGroups s) ->
  indexedDB s !! id = None ->
  written env base64 ->
  exists s1 s2,
    handleAddPersistentFile env file s = Finished s1
    /\ handleRemoveSource TxComplete id s1 = Finished s2
    /\ urlGroups s2 = urlGroups s
    /\ indexedDB s2 = indexedDB s.
Proof.
  intros id Hgid Hnew Hdb [Hread Hput].
  unfold handleAddPersistentFile. rewrite Hread, Hput. simpl.
  eexists _, _. split; [reflexivity|].
  unfold handleRemoveSource. simpl. fold id.
  rewrite (findSource_appended_file _ _ _ _ Hgid Hnew). simpl.
  split; [reflexivity|]. simpl. split.
  - apply (removeFromGroups_appendToGroup _ (fileSource id file)). exact Hnew.
  - rewrite delete_insert_eq. now apply delete_id.
Qed.

Lemma upload_then_remove_restores_witness :
  exists s1 s2,
    handleAddPersistentFile sampleAddEnv sampleUpload initialState = Finished s1
    /\ handleRemoveSource TxComplete (src_id sampleFileSource) s1 = Finished s2
    /\ urlGroups s2 = urlGroups initialState
    /\ indexedDB s2 = indexedDB initialState.
Proof.
  apply (upload_then_remove_restores sampleAddEnv sampleUpload initialState
           (js "JVBERi0xLjQK")).
  - simpl. left.
  - simpl. intros H. inversion H.
  - apply lookup_empty.
  - split; reflexivity.
Defined.

Lemma groupFrame_removeFromGroups (sourceId : jsstring) (groups : list URLGroup) :
  (fun g => (grp_id g, grp_name g)) <$> removeFromGroups sourceId groups
  = (fun g => (grp_id g, grp_name g)) <$> groups.
Proof.
  unfold removeFromGroups. rewrite <- list_fmap_compose.
  apply list_fmap_ext. intros _ g _. reflexivity.
Qed.

(** X7.  After a removal that has run to its end no group holds a
    descriptor with the removed id, the other descriptors are all there in
    their order, and the groups are the same in number, ids and names. *)
Theorem handleRemoveSource_clears_id (o : TxOutcome) (sourceId : jsstring)
    (s s1 : AppState) :
  handleRemoveSource o sourceId s = Finished s1 ->
  (sourceId ∉ allIds (urlGroups s1))
  /\ allSources (urlGroups s1)
     = List.filter (fun d => negb (bool_decide (src_id d = sourceId)))
         (allSources (urlGroups s))
  /\ (fun g => (grp_id g, grp_name g)) <$> urlGroups s1
     = (fun g => (grp_id g, grp_name g)) <$> urlGroups s.
Proof.
  intros Hrun. apply handleRemoveSource_groups in Hrun. rewrite Hrun.
  split; [|split].
  - intros Hin. apply findSource_present in Hin.
    rewrite findSource_removed in Hin. now destruct Hin.
  - apply allSources_removeFromGroups.
  - apply groupFrame_removeFromGroups.
Qed.

Lemma handleRemoveSource_clears_id_witness :
  exists s1,
    handleRemoveSource TxError (src_id sampleFileSource) sampleState = Finished s1
    /\ allSources (urlGroups s1) = [sampleUrlSource].
Proof.
  eexists. split; [reflexivity|].
  destruct (handleRemoveSource_clears_id TxError (src_id sampleFileSource)
              sampleState _ eq_refl) as (_ & Hrest & _).
  rewrite Hrest. reflexivity.
Defined.

(** X8.  When the delete of the blob fails, the removal of a document still
    runs to its end and takes the descriptor out, and the blob stays in the
    store: an orphan is left. *)
Theorem failed_delete_leaves_orphan (sourceId : jsstring) (s : AppState)
    (d : ReferenceSource) (blob : StoredFile) :
  findSource sourceId (urlGroups s) = Some d ->
  src_type d = type_file ->
  indexedDB s !! sourceId = Some blob ->
  sf_id blob = sourceId ->
  exists s1,
    handleRemoveSource TxError sourceId s = Finished s1
    /\ (sourceId ∉ allIds (urlGroups s1))
    /\ indexedDB s1 !! sourceId = Some blob
    /\ ~ noOrphan s1.
Proof.
  intros Hfind Hty Hdb Hid. unfold handleRemoveSource. rewrite Hfind.
  destruct d as [? [] ? ? ?]; [discriminate|]. simpl.
  eexists. split; [reflexivity|]. simpl.
  assert (sourceId ∉ allIds (removeFromGroups sourceId (urlGroups s))) as Hgone.
  { intros Hin. apply findSource_present in Hin.
    rewrite findSource_removed in Hin. now destruct Hin. }
  split; [exact Hgone|]. split; [exact Hdb|].
  intros Horphan. apply Hgone. specialize (Horphan _ _ Hdb).
  now rewrite Hid in Horphan.
Qed.

Lemma failed_delete_leaves_orphan_witness :
  exists s1,
    handleRemoveSource TxError (src_id sampleFileSource) sampleState = Finished s1
    /\ indexedDB s1 !! src_id sampleFileSource = Some sampleBlob.
Proof.
  destruct (failed_delete_leaves_orphan (src_id sampleFileSource) sampleState
              sampleFileSource sampleBlob) as (s1 & Hrun & _ & Hdb & _).
  - reflexivity.
  - reflexivity.
  - apply lookup_singleton_eq.
  - reflexivity.
  - exists s1. split; [exact Hrun | exact Hdb].
Defined.

(** X9.  The removal of an id that the first descriptor found holds as a
    link, or that no descriptor holds, never works on the blob store: it
    runs to its end whatever the store would answer, the store is as
    before, and the update of the group list is all it issues. *)
Theorem remove_link_keeps_store (o : TxOutcome) (sourceId : jsstring)
    (s : AppState) :
  (findSource sourceId (urlGroups s) = None
   \/ exists d, findSource sourceId (urlGroups s) = Some d
                /\ src_type d = type_url) ->
  exists s1,
    handleRemoveSource o sourceId s = Finished s1
    /\ indexedDB s1 = indexedDB s
    /\ newEvents s s1 = [EvSetUrlGroups].
Proof.
  intros Hfind. unfold handleRemoveSource, newEvents.
  destruct Hfind as [-> | (d & -> & Hty)].
  - eexists. split; [reflexivity|]. simpl. now rewrite drop_app_length.
  - destruct d as [? [] ? ? ?]; [|discriminate].
    eexists. split; [reflexivity|]. simpl. now rewrite drop_app_length.
Qed.

Lemma remove_link_keeps_store_witness :
  exists s1,
    handleRemoveSource TxUnsettled (src_id sampleUrlSource) sampleState
    = Finished s1
    /\ indexedDB s1 = indexedDB sampleState.
Proof.
  destruct (remove_link_keeps_store TxUnsettled (src_id sampleUrlSource)
              sampleState) as (s1 & Hrun & Hdb & _).
  - right. exists sampleUrlSource. split; reflexivity.
  - exists s1. split; [exact Hrun | exact Hdb].
Defined.

(** ** Renaming, once more *)

Lemma renameInGroups_retitle (sourceId newTitle : jsstring)
    (groups : list URLGroup) :
  renameInGroups sourceId newTitle groups
  = (fun g => {| grp_id := grp_id g; grp_name := grp_name g;
                 grp_sources := retitle sourceId newTitle <$> grp_sources g |})
    <$> groups.
Proof. reflexivity. Qed.

Lemma retitle_retitle (sourceId t1 t2 : jsstring) (d : ReferenceSource) :
  retitle sourceId t2 (retitle sourceId t1 d) = retitle sourceId t2 d.
Proof.
  unfold retitle, hasId.
  destruct (decide (src_id d = sourceId)) as [Hd|Hd].
  - rewrite !(bool_decide_eq_true_2 _ Hd). simpl.
    now rewrite ?(bool_decide_eq_true_2 _ Hd).
  - now rewrite !(bool_decide_eq_false_2 _ Hd).
Qed.

Lemma retitle_other (sourceId t : jsstring) (l : list ReferenceSource) :
  sourceId ∉ src_id <$> l -> retitle sourceId t <$> l = l.
Proof.
  induction l as [|d l IH]; [reflexivity|].
  rewrite !fmap_cons, not_elem_of_cons. intros [Hd Hl].
  rewrite (IH Hl). f_equal. unfold retitle, hasId.
  now rewrite bool_decide_eq_false_2 by congruence.
Qed.

Lemma retitle_ids (sourceId t : jsstring) (l : list ReferenceSource) :
  src_id <$> (retitle sourceId t <$> l) = src_id <$> l.
Proof.
  rewrite <- list_fmap_compose. apply list_fmap_ext. intros _ d _.
  unfold retitle. simpl. now destruct (hasId sourceId d).
Qed.

Lemma renameInGroups_cons (sourceId t : jsstring) (g : URLGroup)
    (groups : list URLGroup) :
  renameInGroups sourceId t (g :: groups)
  = {| grp_id := grp_id g; grp_name := grp_name g;
       grp_sources := retitle sourceId t <$> grp_sources g |}
    :: renameInGroups sourceId t groups.
Proof. reflexivity. Qed.

Lemma renameInGroups_absent (sourceId t : jsstring) (groups : list URLGroup) :
  sourceId ∉ allIds groups -> renameInGroups sourceId t groups = groups.
Proof.
  induction groups as [|[gid name sources] groups IH]; [reflexivity|].
  rewrite allIds_cons, not_elem_of_app, renameInGroups_cons.
  cbn [grp_id grp_name grp_sources]. intros [Hg Hrest].
  now rewrite (retitle_other _ _ _ Hg), (IH Hrest).
Qed.

Lemma allIds_renameInGroups (sourceId t : jsstring) (groups : list URLGroup) :
  allIds (renameInGroups sourceId t groups) = allIds groups.
Proof.
  induction groups as [|g groups IH]; [reflexivity|].
  rewrite renameInGroups_cons, !allIds_cons, IH.
  cbn [grp_sources]. now rewrite retitle_ids.
Qed.

(** X10.  Of two renames of the same id the later one counts; a rename of
    an id that no descriptor has changes nothing in the group list; a rename
    never changes the ids of the descriptors. *)
Theorem rename_composes (sourceId t1 t2 : jsstring) (s : AppState) :
  urlGroups (handleRenameSource sourceId t2 (handleRenameSource sourceId t1 s))
  = urlGroups (handleRenameSource sourceId t2 s)
  /\ (sourceId ∉ allIds (urlGroups s) ->
      urlGroups (handleRenameSource sourceId t1 s) = urlGroups s)
  /\ allIds (urlGroups (handleRenameSource sourceId t1 s)) = allIds (urlGroups s).
Proof.
  cbn [handleRenameSource setUrlGroups urlGroups].
  split; [|split; [apply renameInGroups_absent | apply allIds_renameInGroups]].
  rewrite !renameInGroups_retitle, <- list_fmap_compose.
  apply list_fmap_ext. intros _ g _. simpl.
  f_equal. rewrite <- list_fmap_compose. apply list_fmap_ext.
  intros _ d _. apply retitle_retitle.
Qed.

Lemma rename_composes_witness :
  urlGroups (handleRenameSource (js "src-0-none") (js "Draft") sampleState)
  = urlGroups sampleState.
Proof.
  destruct (rename_composes (js "src-0-none") (js "Draft") (js "Draft")
              sampleState) as (_ & Habsent & _).
  apply Habsent. apply (bool_decide_unpack _). vm_compute. exact I.
Defined.

Lemma find_group_fmap (gid : jsstring) (f : URLGroup -> URLGroup)
    (groups : list URLGroup) :
  (forall g, grp_id (f g) = grp_id g) ->
  List.find (fun g => bool_decide (grp_id g = gid)) (f <$> groups)
  = f <$> List.find (fun g => bool_decide (grp_id g = gid)) groups.
Proof.
  intros Hf. induction groups as [|g groups IH]; [reflexivity|].
  rewrite fmap_cons. simpl. rewrite Hf.
  case_bool_decide; [reflexivity | exact IH].
Qed.

Lemma activeSources_renamed (sourceId t : jsstring) (s : AppState) :
  activeSources (handleRenameSource sourceId t s)
  = retitle sourceId t <$> activeSources s.
Proof.
  unfold activeSources, activeGroup. simpl. rewrite renameInGroups_retitle.
  rewrite find_group_fmap by reflexivity.
  destruct (List.find _ (urlGroups s)) as [g|]; [reflexivity|]. simpl.
  destruct (urlGroups s); reflexivity.
Qed.

Lemma urlsOf_retitle (sourceId t : jsstring) (l : list ReferenceSource) :
  urlsOf (retitle sourceId t <$> l) = urlsOf l.
Proof.
  unfold urlsOf. apply list_omap_ext, Forall2_fmap_l, Forall_Forall2_diag.
  apply Forall_forall. intros d _. unfold compose, retitle.
  destruct (hasId sourceId d); reflexivity.
Qed.

Lemma attachmentsOf_retitle (db : BlobStore) (sourceId t : jsstring)
    (l : list ReferenceSource) :
  payload <$> attachmentsOf db (retitle sourceId t <$> l)
  = payload <$> attachmentsOf db l.
Proof.
  unfold attachmentsOf. rewrite !list_fmap_omap.
  apply list_omap_ext, Forall2_fmap_l, Forall_Forall2_diag.
  apply Forall_forall. intros d _. unfold compose, retitle.
  destruct (hasId sourceId d); [|reflexivity]. simpl.
  destruct (src_type d); [reflexivity|].
  destruct (db !! src_id d); reflexivity.
Qed.

(** X11.  A rename reaches the next request and nothing else of it: the
    URLs and the contents of the attachments are those from before the
    rename, and the attachment of a renamed document whose blob is found
    goes out under the new title. *)
Theorem rename_reaches_context (sourceId t : jsstring) (s : AppState)
    (temp : list FileAttachment) :
  let s' := handleRenameSource sourceId t s in
  exists files,
    gatherContext allComplete (indexedDB s') 0 (activeSources s') [] temp
    = Some (urlsOf (activeSources s), temp ++ files)
    /\ payload <$> files
       = payload <$> attachmentsOf (indexedDB s) (activeSources s)
    /\ (forall d blob,
          d ∈ activeSources s -> src_type d = type_file ->
          src_id d = sourceId -> indexedDB s !! sourceId = Some blob ->
          {| att_name := t; att_mimeType := sf_mimeType blob;
             att_data := sf_data blob |} ∈ files).
Proof.
  intros s'. subst s'. rewrite activeSources_renamed.
  change (indexedDB (handleRenameSource sourceId t s)) with (indexedDB s).
  eexists. split; [|split].
  - rewrite gatherContext_complete, urlsOf_retitle. reflexivity.
  - apply attachmentsOf_retitle.
  - intros d blob Hd Hty Hid Hblob. unfold attachmentsOf.
    apply list_elem_of_omap. exists (retitle sourceId t d).
    split; [now apply list_elem_of_fmap_2|].
    unfold retitle, hasId. rewrite bool_decide_eq_true_2 by assumption.
    simpl. rewrite Hty, Hid, Hblob. reflexivity.
Qed.

Lemma rename_reaches_context_witness :
  exists files,
    gatherContext allComplete (indexedDB sampleState) 0
      (activeSources (handleRenameSource (src_id sampleFileSource)
                        (js "Regulation") sampleState)) [] []
    = Some ([sampleUrl], files)
    /\ {| att_name := js "Regulation"; att_mimeType := js "application/pdf";
          att_data := js "JVBERi0xLjQK" |} ∈ files.
Proof.
  destruct (rename_reaches_context (src_id sampleFileSource) (js "Regulation")
              sampleState []) as (files & Hrun & _ & Hname).
  exists files. split; [exact Hrun|].
  apply (Hname sampleFileSource sampleBlob).
  - right. left.
  - reflexivity.
  - reflexivity.
  - apply lookup_singleton_eq.
Defined.

(** ** A chat turn *)

Lemma generate_calls (g : GeminiEnv) (prompt : jsstring) (urls : list jsstring)
    (files : list FileAttachment) :
  (generateContentWithUrlContext g prompt urls files).1 = []
  \/ (generateContentWithUrlContext g prompt urls files).1
     = [EvGenerateContent prompt urls files].
Proof.
  unfold generateContentWithUrlContext.
  destruct (API_KEY g) as [[|c key]|]; simpl; auto.
Qed.

Lemma header_resolveWith (pid : jsstring) (r : GeminiResponse)
    (l : list ChatMessage) :
  header <$> resolveWith pid r l = header <$> l.
Proof.
  unfold resolveWith. rewrite <- list_fmap_compose.
  apply list_fmap_ext. intros _ m _. simpl. now case_bool_decide.
Qed.

Lemma header_resolveWithApology (pid : jsstring) (l : list ChatMessage) :
  header <$> resolveWithApology pid l = header <$> l.
Proof.
  unfold resolveWithApology. rewrite <- list_fmap_compose.
  apply list_fmap_ext. intros _ m _. simpl. now case_bool_decide.
Qed.

(** The two ways a turn goes: it stays at the loop over the sources, or it
    gets to the request. *)
Lemma handleSendMessage_cases (env : SendEnv) (query : jsstring)
    (temp : list FileAttachment) (s : AppState) :
  let s' := stateOf (handleSendMessage env query temp s) in
  urlGroups s' = urlGroups s
  /\ indexedDB s' = indexedDB s
  /\ localStorage s' = localStorage s
  /\ activeUrlGroupId s' = activeUrlGroupId s
  /\ ((gatherContext (reads env) (indexedDB s) 0 (activeSources s) [] temp = None
       /\ chatMessages s' = chatMessages s /\ trace s' = trace s
       /\ isLoading s' = true)
      \/ exists urls files,
           gatherContext (reads env) (indexedDB s) 0 (activeSources s) [] temp
           = Some (urls, files)
           /\ header <$> chatMessages s'
              = (header <$> chatMessages s)
                ++ [(toString (userNow env), USER);
                    (toString (placeholderNow env + 1), MODEL)]
           /\ (trace s' = trace s
               \/ trace s' = trace s ++ [EvGenerateContent query urls files])).
Proof.
  unfold handleSendMessage.
  change (indexedDB (setIsLoading true s)) with (indexedDB s).
  change (activeSources (setIsLoading true s)) with (activeSources s).
  destruct (gatherContext (reads env) (indexedDB s) 0 (activeSources s) [] temp)
    as [[urls files]|] eqn:Hgather.
  - pose proof (generate_calls (gemini env) query urls files) as Hcalls.
    destruct (generateContentWithUrlContext (gemini env) query urls files)
      as [calls generated]. simpl in Hcalls.
    assert (trace s ++ calls = trace s
            \/ trace s ++ calls = trace s ++ [EvGenerateContent query urls files])
      as Htrace by (destruct Hcalls as [-> | ->]; rewrite ?app_nil_r; auto).
    destruct generated; simpl; repeat (split; [reflexivity|]); right;
      exists urls, files; (split; [reflexivity|]); (split; [|exact Htrace]);
      rewrite ?header_resolveWith, ?header_resolveWithApology, !fmap_app;
      now rewrite <- (assoc_L (++)).
  - simpl. repeat (split; [reflexivity|]). left. auto.
Qed.

(** X12.  A chat turn, however it ends, leaves the group list, the blob
    store, the saved metadata and the active group as they were, and issues
    nothing but at most one request to the SDK. *)
Theorem handleSendMessage_keeps_library (env : SendEnv) (query : jsstring)
    (temp : list FileAttachment) (s : AppState) :
  let s' := stateOf (handleSendMessage env query temp s) in
  urlGroups s' = urlGroups s
  /\ indexedDB s' = indexedDB s
  /\ localStorage s' = localStorage s
  /\ activeUrlGroupId s' = activeUrlGroupId s
  /\ (newEvents s s' = []
      \/ exists urls files, newEvents s s' = [EvGenerateContent query urls files]).
Proof.
  intros s'. subst s'.
  destruct (handleSendMessage_cases env query temp s)
    as (Hg & Hdb & Hls & Hact & Hrest).
  repeat (split; [assumption|]). unfold newEvents.
  destruct Hrest as [(_ & _ & -> & _) | (urls & files & _ & _ & [-> | ->])].
  - left. apply drop_all.
  - left. apply drop_all.
  - right. exists urls, files. now rewrite drop_app_length.
Qed.

(** X13.  When the context has been gathered, the key is set and the SDK
    returns, the turn runs to its end with exactly one request, carrying the
    query, the URLs and the attachments gathered; the placeholder ends the
    transcript with the text of the response (the empty text when it has
    none) and the source links taken from it, no longer loading; the message
    of the user shows the attachments of the turn only. *)
Theorem handleSendMessage_success (env : SendEnv) (query : jsstring)
    (temp : list FileAttachment) (s : AppState)
    (urls : list jsstring) (files : list FileAttachment) (c : N) (key : jsstring)
    (response : GenerateContentResponse) :
  gatherContext (reads env) (indexedDB s) 0 (activeSources s) [] temp
  = Some (urls, files) ->
  API_KEY (gemini env) = Some (c :: key) ->
  sdk (gemini env) = SdkReturns response ->
  let pid := toString (placeholderNow env + 1) in
  let userMessage :=
    {| msg_id := toString (userNow env); msg_text := query;
       msg_sender := USER; msg_timestamp := userDate env;
       msg_isLoading := None; msg_urlContext := None;
       msg_attachments := Some temp |} in
  let answer :=
    {| msg_id := pid; msg_text := default [] (resp_text response);
       msg_sender := MODEL; msg_timestamp := placeholderDate env;
       msg_isLoading := Some false;
       msg_urlContext := extractUrlContextMetadata (resp_candidate response);
       msg_attachments := None |} in
  exists s',
    handleSendMessage env query temp s = Finished s'
    /\ isLoading s' = false
    /\ newEvents s s' = [EvGenerateContent query urls files]
    /\ last (chatMessages s') = Some answer
    /\ (Forall (fun m => msg_id m <> pid) (chatMessages s ++ [userMessage]) ->
        chatMessages s' = chatMessages s ++ [userMessage; answer]).
Proof.
  intros Hgather Hkey Hsdk pid userMessage answer.
  unfold handleSendMessage.
  change (indexedDB (setIsLoading true s)) with (indexedDB s).
  change (activeSources (setIsLoading true s)) with (activeSources s).
  rewrite Hgather. unfold generateContentWithUrlContext. rewrite Hkey, Hsdk.
  eexists. split; [reflexivity|]. simpl. split; [reflexivity|].
  split; [unfold newEvents; simpl; now rewrite drop_app_length|].
  fold pid. fold userMessage.
  assert (forall prev,
            resolveWith pid
              {| text := default [] (resp_text response);
                 urlContextMetadata :=
                   extractUrlContextMetadata (resp_candidate response) |}
              (prev ++
               [{| msg_id := pid; msg_text := []; msg_sender := MODEL;
                   msg_timestamp := placeholderDate env;
                   msg_isLoading := Some true; msg_urlContext := None;
                   msg_attachments := None |}])
            = resolveWith pid
                {| text := default [] (resp_text response);
                   urlContextMetadata :=
                     extractUrlContextMetadata (resp_candidate response) |} prev
              ++ [answer]) as Hlast.
  { intros prev. unfold resolveWith. rewrite fmap_app. f_equal. simpl.
    now rewrite bool_decide_eq_true_2. }
  rewrite Hlast. split; [apply last_snoc|].
  intros Hfresh.
  change (chatMessages s ++ [userMessage; answer])
    with (chatMessages s ++ ([userMessage] ++ [answer])).
  rewrite (assoc_L (++)). f_equal.
  unfold resolveWith. clear Hlast.
  induction Hfresh as [|m prev Hm _ IH]; [reflexivity|].
  rewrite fmap_cons, IH. now rewrite (bool_decide_eq_false_2 _ Hm).
Qed.

Lemma handleSendMessage_success_witness :
  exists s',
    handleSendMessage
      (sampleSendEnv {| API_KEY := Some (js "key");
                        sdk := SdkReturns {| resp_text := Some (js "## Answer");
                                             resp_candidate := None |} |})
      (js "What applies?") [] sampleState = Finished s'
    /\ (msg_text <$> chatMessages s') = [js "What applies?"; js "## Answer"].
Proof.
  destruct (handleSendMessage_success
              (sampleSendEnv {| API_KEY := Some (js "key");
                                sdk := SdkReturns
                                         {| resp_text := Some (js "## Answer");
                                            resp_candidate := None |} |})
              (js "What applies?") [] sampleState [sampleUrl]
              [ {| att_name := js "reg.pdf";
                   att_mimeType := js "application/pdf";
                   att_data := js "JVBERi0xLjQK" |} ]
              107 (js "ey")
              {| resp_text := Some (js "## Answer"); resp_candidate := None |})
    as (s' & Hrun & _ & _ & _ & Hfresh).
  - vm_compute. reflexivity.
  - reflexivity.
  - reflexivity.
  - exists s'. split; [exact Hrun|]. rewrite Hfresh; [reflexivity|].
    repeat constructor. vm_compute. discriminate.
Defined.

Lemma nonSystem_headers (l : list ChatMessage) :
  length (ChatInterface.nonSystem l)
  = length (List.filter (fun h => match h.2 with SYSTEM => false | _ => true end)
              (header <$> l)).
Proof.
  unfold ChatInterface.nonSystem.
  induction l as [|m l IH]; [reflexivity|].
  rewrite fmap_cons. simpl. destruct (msg_sender m); simpl; now rewrite IH.
Qed.

(** X14.  Once a turn has got to the request, the suggested inquiries are
    no longer shown, whatever list of suggestions there is and however the
    request ends: the transcript then has two messages or more that are not
    of the system. *)
Theorem suggestions_hidden_after_turn (env : SendEnv) (query : jsstring)
    (temp : list FileAttachment) (s : AppState)
    (suggestions : option (list jsstring)) :
  gatherContext (reads env) (indexedDB s) 0 (activeSources s) [] temp <> None ->
  ChatInterface.showSuggestions suggestions
    (chatMessages (stateOf (handleSendMessage env query temp s))) = false.
Proof.
  intros Hgather.
  destruct (handleSendMessage_cases env query temp s)
    as (_ & _ & _ & _ & [(Hnone & _) | (urls & files & _ & Hheaders & _)]);
    [congruence|].
  unfold ChatInterface.showSuggestions.
  destruct suggestions as [[|x l]|]; try reflexivity.
  apply bool_decide_eq_false. rewrite nonSystem_headers, Hheaders.
  rewrite List.filter_app, length_app. simpl. lia.
Qed.

Lemma suggestions_hidden_after_turn_witness :
  ChatInterface.showSuggestions (Some [js "Summarize the key points."])
    (chatMessages (stateOf (handleSendMessage (sampleSendEnv quotaExceeded)
                              (js "What applies?") [] sampleState))) = false.
Proof.
  apply (suggestions_hidden_after_turn (sampleSendEnv quotaExceeded)
           (js "What applies?") [] sampleState).
  vm_compute. discriminate.
Defined.

(** ** Invariants of the runs *)

Lemma runOps_invariant (I : AppState -> Prop) :
  (forall op s, I s -> I (stateOf (runOp op s))) ->
  forall ops s, I s -> I (runOps ops s).
Proof.
  intros Hstep ops. induction ops as [|op ops IH]; intros s Hs; [exact Hs|].
  apply IH, Hstep, Hs.
Qed.

Lemma groupFrame_appendToGroup (gid : jsstring) (x : ReferenceSource)
    (groups : list URLGroup) :
  groupFrame (appendToGroup gid x groups) = groupFrame groups.
Proof.
  unfold groupFrame, appendToGroup. rewrite <- list_fmap_compose.
  apply list_fmap_ext. intros _ g _. simpl. now case_bool_decide.
Qed.

Lemma groupFrame_renameInGroups (sourceId t : jsstring) (groups : list URLGroup) :
  groupFrame (renameInGroups sourceId t groups) = groupFrame groups.
Proof.
  unfold groupFrame, renameInGroups. rewrite <- list_fmap_compose.
  apply list_fmap_ext. intros _ g _. reflexivity.
Qed.

Lemma allSources_renameInGroups (sourceId t : jsstring) (groups : list URLGroup) :
  allSources (renameInGroups sourceId t groups)
  = retitle sourceId t <$> allSources groups.
Proof.
  induction groups as [|g groups IH]; [reflexivity|].
  rewrite renameInGroups_cons, !allSources_cons, IH, fmap_app. reflexivity.
Qed.

Lemma runOp_groupFrame (op : LibraryOp) (s : AppState) :
  groupFrame (urlGroups (stateOf (runOp op s))) = groupFrame (urlGroups s).
Proof.
  destruct op as [now r36 url|env file|o sourceId|sourceId t|env q temp|g]; simpl.
  - apply groupFrame_appendToGroup.
  - unfold handleAddPersistentFile.
    destruct (fileToBase64 (reader env)); simpl; try reflexivity.
    destruct (putOutcome env); simpl; try reflexivity.
    apply groupFrame_appendToGroup.
  - unfold handleRemoveSource.
    destruct (findSource sourceId (urlGroups s)) as [[? [] ? ? ?]|];
      try destruct o; simpl; try reflexivity;
      apply groupFrame_removeFromGroups.
  - apply groupFrame_renameInGroups.
  - now destruct (handleSendMessage_cases env q temp s) as (-> & _).
  - reflexivity.
Qed.

(** X15.  Whatever the user sets off, in whatever order and with whatever
    answers of the environment, the groups stay the same in number, ids and
    names: the handlers work on the descriptors only. *)
Theorem runOps_keep_groups (ops : list LibraryOp) (s : AppState) :
  groupFrame (urlGroups (runOps ops s)) = groupFrame (urlGroups s).
Proof.
  apply (runOps_invariant
           (fun s' => groupFrame (urlGroups s') = groupFrame (urlGroups s)));
    [|reflexivity].
  intros op s' Hs'. now rewrite runOp_groupFrame.
Qed.

Lemma runOp_keyed (op : LibraryOp) (s : AppState) :
  keyed (indexedDB s) -> keyed (indexedDB (stateOf (runOp op s))).
Proof.
  intros Hk.
  destruct op as [now r36 url|env file|o sourceId|sourceId t|env q temp|g]; simpl;
    try exact Hk.
  - unfold handleAddPersistentFile.
    destruct (fileToBase64 (reader env)); simpl; try exact Hk.
    destruct (putOutcome env); simpl; try exact Hk.
    intros k f Hf. apply lookup_insert_Some in Hf as [[<- <-] | [_ Hf]];
      [reflexivity | now apply Hk].
  - unfold handleRemoveSource.
    destruct (findSource sourceId (urlGroups s)) as [[? [] ? ? ?]|];
      try destruct o; simpl; try exact Hk.
    intros k f Hf. apply lookup_delete_Some in Hf as [_ Hf]. now apply Hk.
  - now destruct (handleSendMessage_cases env q temp s) as (_ & -> & _).
Qed.

(** X16.  The handlers keep every record of the blob store under its own
    id, as the key path of the object store has it. *)
Theorem runOps_keep_keyed (ops : list LibraryOp) (s : AppState) :
  keyed (indexedDB s) -> keyed (indexedDB (runOps ops s)).
Proof.
  apply (runOps_invariant (fun s' => keyed (indexedDB s'))).
  intros op s'. apply runOp_keyed.
Qed.

Lemma runOps_keep_keyed_witness :
  keyed (indexedDB
           (runOps [OpAddFile sampleAddEnv sampleUpload;
                    OpRemove TxError (src_id sampleFileSource)] initialState)).
Proof.
  apply (runOps_keep_keyed
           [OpAddFile sampleAddEnv sampleUpload;
            OpRemove TxError (src_id sampleFileSource)] initialState).
  intros k f Hf. simpl in Hf. now rewrite lookup_empty in Hf.
Defined.

Lemma runOp_noDangling (op : LibraryOp) (s : AppState) :
  noDangling s -> noDangling (stateOf (runOp op s)).
Proof.
  intros Hs.
  destruct op as [now r36 url|env file|o sourceId|sourceId t|env q temp|g]; simpl.
  - intros d Hd Hty. simpl in Hd.
    apply allSources_appendToGroup in Hd as [Hd | ->]; [|discriminate].
    now apply Hs.
  - unfold handleAddPersistentFile.
    destruct (fileToBase64 (reader env)); simpl; try exact Hs.
    destruct (putOutcome env); simpl; try exact Hs.
    intros d Hd Hty. simpl in *.
    apply allSources_appendToGroup in Hd as [Hd | ->].
    + apply lookup_insert_is_Some'. right. now apply Hs.
    + simpl. rewrite lookup_insert_eq. eauto.
  - unfold handleRemoveSource.
    destruct (findSource sourceId (urlGroups s)) as [[? [] ? ? ?]|];
      try destruct o; simpl; try exact Hs;
      intros d Hd Hty; simpl in *;
      rewrite allSources_removeFromGroups in Hd;
      apply list_elem_of_In, filter_In in Hd as [Hd Hne];
      apply list_elem_of_In in Hd; try (now apply Hs).
    rewrite lookup_delete_ne; [now apply Hs|].
    unfold hasId in Hne. apply negb_true_iff, bool_decide_eq_false in Hne.
    congruence.
  - intros d Hd Hty. simpl in *. rewrite allSources_renameInGroups in Hd.
    apply list_elem_of_fmap in Hd as (d0 & -> & Hd0).
    assert (src_type (retitle sourceId t d0) = src_type d0
            /\ src_id (retitle sourceId t d0) = src_id d0) as [Ht Hi]
      by (unfold retitle; destruct (hasId sourceId d0); auto).
    rewrite Hi. apply Hs; congruence.
  - destruct (handleSendMessage_cases env q temp s) as (Hg & Hdb & _).
    unfold noDangling. rewrite Hg, Hdb. exact Hs.
  - exact Hs.
Qed.

(** X17.  The handlers never make a dangling reference: when every document
    of the library has its blob in the store, this is still so after any
    sequence of additions, removals, renames, turns and changes of the
    active group, whatever the answers of the environment. *)
Theorem runOps_no_dangling (ops : list LibraryOp) (s : AppState) :
  noDangling s -> noDangling (runOps ops s).
Proof. apply (runOps_invariant noDangling), runOp_noDangling. Qed.

Lemma runOps_no_dangling_witness :
  noDangling (runOps [OpAddFile sampleAddEnv sampleUpload;
                      OpRename (src_id sampleFileSource) (js "Regulation");
                      OpRemove TxComplete (src_id sampleUrlSource)] sampleState).
Proof.
  apply (runOps_no_dangling
           [OpAddFile sampleAddEnv sampleUpload;
            OpRename (src_id sampleFileSource) (js "Regulation");
            OpRemove TxComplete (src_id sampleUrlSource)] sampleState).
  intros d Hd Hty. simpl in Hd.
  apply elem_of_cons in Hd as [-> | Hd]; [discriminate|].
  apply list_elem_of_singleton in Hd as ->. simpl.
  rewrite lookup_singleton_eq. eauto.
Defined.

Lemma runOp_headers (op : LibraryOp) (s : AppState) :
  (header <$> chatMessages s)
    `prefix_of` (header <$> chatMessages (stateOf (runOp op s))).
Proof.
  destruct op as [now r36 url|env file|o sourceId|sourceId t|env q temp|g]; simpl;
    try reflexivity.
  - unfold handleAddPersistentFile.
    destruct (fileToBase64 (reader env)); simpl; try reflexivity.
    destruct (putOutcome env); simpl; reflexivity.
  - unfold handleRemoveSource.
    destruct (findSource sourceId (urlGroups s)) as [[? [] ? ? ?]|];
      try destruct o; simpl; reflexivity.
  - destruct (handleSendMessage_cases env q temp s)
      as (_ & _ & _ & _ & [(_ & -> & _) | (urls & files & _ & -> & _)]);
      [reflexivity | now eexists].
Qed.

(** X18.  No handler takes a message out of the transcript, moves it, or
    changes its id or its sender: the ids and senders of the transcript
    before a run are the beginning of those after it. *)
Theorem runOps_keep_transcript (ops : list LibraryOp) (s : AppState) :
  (header <$> chatMessages s) `prefix_of` (header <$> chatMessages (runOps ops s)).
Proof.
  apply (runOps_invariant
           (fun s' => (header <$> chatMessages s)
                        `prefix_of` (header <$> chatMessages s')));
    [|reflexivity].
  intros op s' Hs'. etransitivity; [exact Hs' | apply runOp_headers].
Qed.

(** ** Start-up, once more *)

Lemma pushed_lookup (i : nat) (synth : list ReferenceSource) :
  forall (groups : list URLGroup) (j : nat) (g : URLGroup),
    groups !! j = Some g ->
    exists g',
      foldl (fun acc x => pushSource i x acc) groups synth !! j = Some g'
      /\ grp_id g' = grp_id g /\ grp_name g' = grp_name g
      /\ grp_sources g `prefix_of` grp_sources g'
      /\ (j <> i -> g' = g).
Proof.
  induction synth as [|x synth IH]; intros groups j g Hg.
  - exists g. simpl. auto.
  - simpl. destruct (decide (j = i)) as [-> | Hne].
    + destruct (IH (pushSource i x groups) i
                  {| grp_id := grp_id g; grp_name := grp_name g;
                     grp_sources := grp_sources g ++ [x] |})
        as (g' & Hg' & Hid & Hname & Hpre & _).
      { unfold pushSource. now rewrite list_lookup_alter_eq, Hg. }
      exists g'. split; [exact Hg'|]. simpl in *.
      split; [exact Hid|]. split; [exact Hname|].
      split; [|congruence].
      etransitivity; [|exact Hpre]. now exists [x].
    + destruct (IH (pushSource i x groups) j g)
        as (g' & Hg' & Hid & Hname & Hpre & Hsame).
      { unfold pushSource. now rewrite list_lookup_alter_ne. }
      exists g'. auto.
Qed.

Lemma length_pushed (i : nat) (synth : list ReferenceSource) :
  forall groups : list URLGroup,
    length (foldl (fun acc x => pushSource i x acc) groups synth) = length groups.
Proof.
  induction synth as [|x synth IH]; intros groups; [reflexivity|].
  simpl. now rewrite IH, length_pushSource.
Qed.

(** X19.  The reconciliation only appends, and only to the default group:
    the result has the same groups, every group keeps its id, its name and
    the descriptors it had, in their places and as they were, dangling ones
    too, and every other group is untouched. *)
Theorem reconcile_only_appends (groups groups' : list URLGroup)
    (dbFiles : list StoredFile) :
  reconcile groups dbFiles = Some groups' ->
  length groups' = length groups
  /\ (forall j g,
        groups !! j = Some g ->
        exists g',
          groups' !! j = Some g'
          /\ grp_id g' = grp_id g /\ grp_name g' = grp_name g
          /\ grp_sources g `prefix_of` grp_sources g'
          /\ (defaultGroupIndex groups <> Some j -> g' = g)).
Proof.
  unfold reconcile. intros Hrun.
  destruct (defaultGroupIndex groups) as [i|] eqn:Hi.
  - apply defaultGroupIndex_bound in Hi.
    destruct (syncFiles_synthesizes i dbFiles groups Hi) as (synth & Hsync & _).
    rewrite Hsync in Hrun. injection Hrun as <-.
    split; [apply length_pushed|].
    intros j g Hg.
    destruct (pushed_lookup i synth groups j g Hg)
      as (g' & Hg' & Hid & Hname & Hpre & Hsame).
    exists g'. repeat (split; [assumption|]).
    intros Hne. apply Hsame. congruence.
  - apply syncFiles_no_default in Hrun as [-> _].
    split; [reflexivity|]. intros j g Hg. exists g. auto.
Qed.

Lemma reconcile_only_appends_witness :
  exists groups',
    reconcile twoGroups [sampleBlob] = Some groups'
    /\ allIds groups' = allIds twoGroups ++ [sf_id sampleBlob]
    /\ length groups' = 2%nat
    /\ groups' !! 0%nat = Some archiveGroup
    /\ exists g', groups' !! 1%nat = Some g'
         /\ [sampleUrlSource] `prefix_of` grp_sources g'.
Proof.
  destruct (reconcile twoGroups [sampleBlob]) as [groups'|] eqn:Hrun;
    [|vm_compute in Hrun; discriminate].
  destruct (reconcile_only_appends twoGroups groups' [sampleBlob] Hrun)
    as [Hlen Hkeep].
  destruct (Hkeep 0%nat archiveGroup eq_refl)
    as (g0 & Hg0 & _ & _ & _ & Hsame).
  destruct (Hkeep 1%nat
              {| grp_id := js "default-library";
                 grp_name := js "My Knowledge Library";
                 grp_sources := [sampleUrlSource] |} eq_refl)
    as (g1 & Hg1 & _ & _ & Hpre & _).
  exists groups'. split; [reflexivity|]. split.
  - vm_compute in Hrun. injection Hrun as <-. reflexivity.
  - split; [exact Hlen|]. split.
    + rewrite Hg0, Hsame; [reflexivity|]. vm_compute. discriminate.
    + exists g1. split; [exact Hg1 | exact Hpre].
Defined.

Lemma syncFiles_single_group (gid name : jsstring) (dbFiles : list StoredFile) :
  forall sources : list ReferenceSource,
    NoDup (sf_id <$> dbFiles) ->
    (forall file, file ∈ dbFiles -> sf_id file ∉ src_id <$> sources) ->
    syncFiles (Some 0%nat) dbFiles
      [ {| grp_id := gid; grp_name := name; grp_sources := sources |} ]
    = Some [ {| grp_id := gid; grp_name := name;
                grp_sources := sources ++ (orphanSource <$> dbFiles) |} ].
Proof.
  induction dbFiles as [|file rest IH]; intros sources Hnd Hnew.
  - simpl. now rewrite app_nil_r.
  - rewrite fmap_cons in Hnd. apply NoDup_cons in Hnd as [Hfile Hnd].
    cbn [syncFiles].
    assert (isKnown (sf_id file)
              [ {| grp_id := gid; grp_name := name; grp_sources := sources |} ]
            = false) as ->.
    { apply not_true_is_false. rewrite isKnown_allIds, allIds_cons. simpl.
      rewrite app_nil_r. apply Hnew. left. }
    unfold pushSource. simpl. rewrite IH; [|exact Hnd|].
    + now rewrite <- (assoc_L (++)).
    + intros f Hf. rewrite fmap_app, not_elem_of_app. split.
      * apply Hnew. now right.
      * simpl. rewrite list_elem_of_singleton. intros Heq. apply Hfile.
        rewrite <- Heq. now apply list_elem_of_fmap_2.
Qed.

Lemma mount_groups (env : InitEnv) (saved : option (list URLGroup))
    (db : BlobStore) :
  initOutcome env = TxComplete ->
  getAllOutcome env = TxComplete ->
  keyed db ->
  mount true env (mountState saved db)
  = Finished
      (setUrlGroups
         (fun _ =>
            [ {| grp_id := js "default-library";
                 grp_name := js "My Knowledge Library";
                 grp_sources := orphanSource <$> recordsByKey db |} ])
         (persistMetadata true (mountState saved db))).
Proof.
  intros Hinit Hall Hkeyed.
  unfold mount, initializeData, getAllFilesFromDB, reconcile.
  rewrite Hinit, Hall.
  change (default INITIAL_URL_GROUPS
            (localStorage (persistMetadata true (mountState saved db))))
    with INITIAL_URL_GROUPS.
  change (indexedDB (persistMetadata true (mountState saved db))) with db.
  change (defaultGroupIndex INITIAL_URL_GROUPS) with (Some 0%nat).
  unfold INITIAL_URL_GROUPS. rewrite syncFiles_single_group.
  - reflexivity.
  - now apply recordsByKey_NoDup.
  - intros file _ Hin. inversion Hin.
Qed.

Lemma allIds_rebuilt (gid name : jsstring) (dbFiles : list StoredFile) :
  allIds [ {| grp_id := gid; grp_name := name;
              grp_sources := orphanSource <$> dbFiles |} ]
  = sf_id <$> dbFiles.
Proof.
  rewrite allIds_cons. simpl. rewrite app_nil_r, <- list_fmap_compose.
  reflexivity.
Qed.

(** X20.  A start on a store that keeps its records under their ids, when
    the write of the first render succeeds, gives the default group one file
    descriptor for every blob: with the id, the name as title and the MIME
    type of the blob, in the ascending order of the ids in which the store
    gives its records.  No blob is an orphan, no descriptor is dangling and
    the ids of the descriptors are pairwise distinct. *)
Theorem mount_rebuilds_from_store (env : InitEnv)
    (saved : option (list URLGroup)) (db : BlobStore) :
  initOutcome env = TxComplete ->
  getAllOutcome env = TxComplete ->
  keyed db ->
  exists s1 dbFiles,
    mount true env (mountState saved db) = Finished s1
    /\ urlGroups s1
       = [ {| grp_id := js "default-library";
              grp_name := js "My Knowledge Library";
              grp_sources :=
                (fun blob =>
                   {| src_id := sf_id blob; src_type := type_file;
                      src_title := sf_name blob; src_url := None;
                      src_mimeType := Some (sf_mimeType blob) |}) <$> dbFiles |} ]
    /\ (forall blob, blob ∈ dbFiles <-> db !! sf_id blob = Some blob)
    /\ NoDup (sf_id <$> dbFiles)
    /\ ascending (sf_id <$> dbFiles)
    /\ indexedDB s1 = db
    /\ noOrphan s1 /\ noDangling s1 /\ NoDup (allIds (urlGroups s1)).
Proof.
  intros Hinit Hall Hkeyed.
  exists (setUrlGroups
            (fun _ =>
               [ {| grp_id := js "default-library";
                    grp_name := js "My Knowledge Library";
                    grp_sources := orphanSource <$> recordsByKey db |} ])
            (persistMetadata true (mountState saved db))),
         (recordsByKey db).
  split; [now apply mount_groups|]. split; [reflexivity|].
  split; [intros blob; now apply recordsByKey_elem|].
  split; [now apply recordsByKey_NoDup|].
  split; [now apply recordsByKey_ascending|].
  split; [reflexivity|].
  cbn [setUrlGroups urlGroups indexedDB persistMetadata mountState].
  unfold noOrphan, noDangling.
  cbn [setUrlGroups urlGroups indexedDB persistMetadata mountState].
  rewrite allIds_rebuilt. split; [|split].
  - intros k file Hfile. apply list_elem_of_fmap_2.
    apply recordsByKey_elem; [exact Hkeyed|].
    now rewrite (Hkeyed k file Hfile).
  - intros d Hd _. unfold allSources in Hd. simpl in Hd.
    rewrite app_nil_r in Hd.
    apply list_elem_of_fmap in Hd as (file & -> & Hfile). simpl.
    apply recordsByKey_elem in Hfile; [|exact Hkeyed]. eauto.
  - now apply recordsByKey_NoDup.
Qed.

Lemma mount_rebuilds_from_store_witness :
  exists s1,
    mount true {| initOutcome := TxComplete; getAllOutcome := TxComplete |}
      (mountState (Some [sampleGroup]) fourBlobs) = Finished s1
    /\ (fun d => (src_id d, src_type d, src_title d))
         <$> allSources (urlGroups s1)
       = [ (js "1-c", type_file, js "c.pdf");
           (js "10-a", type_file, js "a.pdf");
           (js "17-d", type_file, js "d.pdf");
           (js "2-b", type_file, js "b.pdf") ].
Proof.
  destruct (mount_rebuilds_from_store
              {| initOutcome := TxComplete; getAllOutcome := TxComplete |}
              (Some [sampleGroup]) fourBlobs eq_refl eq_refl keyed_fourBlobs)
    as (s1 & dbFiles & Hrun & Hgroups & _).
  exists s1. split; [exact Hrun|].
  assert (mount true
            {| initOutcome := TxComplete; getAllOutcome := TxComplete |}
            (mountState (Some [sampleGroup]) fourBlobs)
          = Finished
              (setUrlGroups
                 (fun _ =>
                    [ {| grp_id := js "default-library";
                         grp_name := js "My Knowledge Library";
                         grp_sources :=
                           orphanSource
                             <$> [blobNamed "1-c" "c.pdf";
                                  blobNamed "10-a" "a.pdf";
                                  blobNamed "17-d" "d.pdf";
                                  blobNamed "2-b" "b.pdf"] |} ])
                 (persistMetadata true
                    (mountState (Some [sampleGroup]) fourBlobs))))
    as Hconcrete by (vm_compute; reflexivity).
  rewrite Hrun in Hconcrete. injection Hconcrete as ->. reflexivity.
Defined.

(** X21.  What a session has saved is not read at the next start when the
    write of the first render succeeds: the group list after the start is
    the same whatever was saved.  So no link of the session before is in
    the library after the start (every descriptor is a file descriptor
    without url, and an id without blob is in no group), and every document
    is back under the name of its blob, whatever title it had been given. *)
Theorem restart_forgets_saved_metadata (env : InitEnv)
    (saved : option (list URLGroup)) (db : BlobStore) :
  initOutcome env = TxComplete ->
  getAllOutcome env = TxComplete ->
  keyed db ->
  exists s1,
    mount true env (mountState saved db) = Finished s1
    /\ (forall saved',
          exists s1',
            mount true env (mountState saved' db) = Finished s1'
            /\ urlGroups s1' = urlGroups s1)
    /\ (forall d, d ∈ allSources (urlGroups s1) ->
          src_type d = type_file /\ src_url d = None
          /\ exists blob, db !! src_id d = Some blob
                          /\ src_title d = sf_name blob)
    /\ (forall id, db !! id = None -> id ∉ allIds (urlGroups s1)).
Proof.
  intros Hinit Hall Hkeyed.
  eexists. split; [now apply mount_groups|]. split; [|split].
  - intros saved'. eexists. split; [now apply mount_groups | reflexivity].
  - intros d Hd.
    cbn [setUrlGroups urlGroups] in Hd. unfold allSources in Hd. simpl in Hd.
    rewrite app_nil_r in Hd.
    apply list_elem_of_fmap in Hd as (file & -> & Hfile). simpl.
    apply recordsByKey_elem in Hfile; [|exact Hkeyed]. eauto.
  - intros id Hnone Hin. cbn [setUrlGroups urlGroups] in Hin.
    rewrite allIds_rebuilt in Hin.
    apply list_elem_of_fmap in Hin as (file & -> & Hfile).
    apply recordsByKey_elem in Hfile; [|exact Hkeyed]. congruence.
Qed.

Lemma restart_forgets_saved_metadata_witness :
  exists s1,
    mount true {| initOutcome := TxComplete; getAllOutcome := TxComplete |}
      (mountState (Some [sampleGroup]) (indexedDB sampleState)) = Finished s1
    /\ src_id sampleUrlSource ∉ allIds (urlGroups s1).
Proof.
  destruct (restart_forgets_saved_metadata
              {| initOutcome := TxComplete; getAllOutcome := TxComplete |}
              (Some [sampleGroup]) (indexedDB sampleState) eq_refl eq_refl)
    as (s1 & Hrun & _ & _ & Habsent).
  - intros k file Hk. simpl in Hk.
    apply lookup_singleton_Some in Hk as [<- <-]. reflexivity.
  - exists s1. split; [exact Hrun|]. apply Habsent.
    apply lookup_singleton_ne. discriminate.
Defined.

(** ** The request to the generation client *)

Lemma isPrefixOf_app (p r : jsstring) : isPrefixOf p (p ++ r) = true.
Proof.
  induction p as [|c p IH]; simpl; [reflexivity|].
  now rewrite N.eqb_refl, IH.
Qed.

Lemma isPrefixOf_app_l (p : jsstring) :
  forall s t, isPrefixOf p s = true -> isPrefixOf p (s ++ t) = true.
Proof.
  induction p as [|c p IH]; intros s t H; [reflexivity|].
  destruct s as [|d s]; simpl in *; [discriminate|].
  apply andb_true_iff in H as [-> H]. simpl. now apply IH.
Qed.

Lemma includes_unfold (n s : jsstring) :
  includes n s
  = isPrefixOf n s || match s with [] => false | _ :: r => includes n r end.
Proof. destruct s; reflexivity. Qed.

Lemma includes_app_r (n pre s : jsstring) :
  includes n s = true -> includes n (pre ++ s) = true.
Proof.
  intros H. induction pre as [|c pre IH]; [exact H|].
  rewrite includes_unfold. simpl. rewrite IH. apply orb_true_r.
Qed.

Lemma includes_app_l (n post : jsstring) :
  forall s, includes n s = true -> includes n (s ++ post) = true.
Proof.
  induction s as [|c s IH]; intros H; rewrite includes_unfold in H.
  - rewrite orb_false_r in H. destruct n; [|discriminate].
    rewrite includes_unfold. reflexivity.
  - apply orb_true_iff in H as [H|H]; rewrite includes_unfold.
    + now rewrite (isPrefixOf_app_l _ _ post H).
    + simpl. rewrite (IH H). apply orb_true_r.
Qed.

Lemma includes_self (n : jsstring) : includes n n = true.
Proof.
  rewrite includes_unfold.
  rewrite <- (app_nil_r n) at 2. now rewrite isPrefixOf_app.
Qed.

Lemma join_includes (sep x : jsstring) (l : list jsstring) :
  x ∈ l -> includes x (join sep l) = true.
Proof.
  induction l as [|y l IH]; intros Hx; [inversion Hx|].
  apply elem_of_cons in Hx as [-> | Hx]; simpl.
  - destruct l; [apply includes_self|]. apply includes_app_l, includes_self.
  - destruct l as [|z l]; [inversion Hx|].
    rewrite (assoc_L (++)). apply includes_app_r. now apply IH.
Qed.

Lemma contextInfo_includes (urls : list jsstring) (files : list FileAttachment)
    (x : jsstring) :
  x ∈ urls \/ x ∈ att_name <$> files ->
  includes (bullet x) (contextInfo urls files) = true.
Proof.
  unfold contextInfo. intros [Hx | Hx].
  - apply includes_app_l. destruct urls as [|u urls]; [inversion Hx|].
    rewrite !(assoc_L (++)). apply includes_app_r, join_includes.
    now apply list_elem_of_fmap_2.
  - apply includes_app_r. destruct files as [|f files]; [inversion Hx|].
    rewrite !(assoc_L (++)). apply includes_app_r, join_includes.
    apply list_elem_of_fmap in Hx as (f' & -> & Hf').
    apply list_elem_of_fmap. exists f'. split; [reflexivity | exact Hf'].
Qed.

(** X22.  The text sent to the model begins with the prompt of the user and
    has a line [- u] for every URL and a line [- name] for every attachment
    handed to the service; without URLs and attachments it is the prompt
    itself, and the search tool is asked for exactly when there are URLs. *)
Theorem fullPrompt_lists_sources (prompt : jsstring) (urls : list jsstring)
    (files : list FileAttachment) :
  isPrefixOf prompt (fullPrompt prompt urls files) = true
  /\ (forall x, x ∈ urls \/ x ∈ att_name <$> files ->
        includes (bullet x) (fullPrompt prompt urls files) = true)
  /\ (urls = [] -> files = [] -> fullPrompt prompt urls files = prompt)
  /\ (requestTools urls = [] <-> urls = []).
Proof.
  unfold fullPrompt. split; [|split; [|split]].
  - destruct (contextInfo urls files); [|apply isPrefixOf_app].
    rewrite <- (app_nil_r prompt) at 2. apply isPrefixOf_app.
  - intros x Hx. pose proof (contextInfo_includes urls files x Hx) as Hinc.
    destruct (contextInfo urls files) as [|c info] eqn:E.
    + rewrite includes_unfold, orb_false_r in Hinc. discriminate.
    + apply includes_app_r, includes_app_r, includes_app_l. exact Hinc.
  - intros -> ->. reflexivity.
  - destruct urls; simpl; split; congruence.
Qed.

Lemma fullPrompt_lists_sources_witness :
  includes (bullet sampleUrl)
    (fullPrompt (js "What applies?") [sampleUrl] []) = true.
Proof.
  destruct (fullPrompt_lists_sources (js "What applies?") [sampleUrl] [])
    as (_ & Hlisted & _).
  apply Hlisted. left. left.
Defined.

Example fullPrompt_with_one_url :
  fullPrompt (js "Q") [js "https://a.eu"] []
  = js "Q" ++ [10; 10; 10] ++ js "[Provided Context Sources (URLs)]:" ++ [10]
    ++ js "- https://a.eu" ++ [10; 10]
    ++ js "Please consult these sources to answer the inquiry. When citing, refer to the document titles listed above.".
Proof. reflexivity. Qed.

(** X23.  With the key set, an [Error] thrown by the SDK comes out of the
    service as an [Error] with a message of the service's own, chosen by the
    text of the original: the invalid-key message when it speaks of an
    invalid key, even if it also speaks of quota; else the quota message
    when it speaks of quota; else the original behind a fixed beginning.
    One request has gone out in each case. *)
Theorem generate_rethrows (env : GeminiEnv) (prompt : jsstring)
    (urls : list jsstring) (files : list FileAttachment)
    (c : N) (key message : jsstring) :
  API_KEY env = Some (c :: key) ->
  sdk env = SdkThrows (ThrownError message) ->
  exists m,
    generateContentWithUrlContext env prompt urls files
    = ([EvGenerateContent prompt urls files], Rejected (ThrownError m))
    /\ m <> []
    /\ (includes (js "API key not valid") message = true ->
        m = js "Invalid API Key. Please check your GEMINI_API_KEY environment variable.")
    /\ (includes (js "API key not valid") message = false ->
        includes (js "quota") message = true ->
        m = js "API quota exceeded. Please check your Gemini API quota.")
    /\ (includes (js "API key not valid") message = false ->
        includes (js "quota") message = false ->
        m = js "Failed to get response from AI: " ++ message).
Proof.
  intros Hkey Hsdk. unfold generateContentWithUrlContext.
  rewrite Hkey, Hsdk. unfold rethrow.
  destruct message as [|d message].
  - eexists. split; [reflexivity|]. simpl.
    split; [discriminate|]. split; [discriminate|].
    split; [discriminate | reflexivity].
  - cbn [truthy andb].
    destruct (includes (js "API key not valid") (d :: message)).
    + eexists. split; [reflexivity|]. split; [discriminate|].
      split; [reflexivity|]. split; discriminate.
    + destruct (includes (js "quota") (d :: message)).
      * eexists. split; [reflexivity|]. split; [discriminate|].
        split; [discriminate|]. split; [reflexivity | discriminate].
      * eexists. split; [reflexivity|]. split; [discriminate|].
        split; [discriminate|]. split; [discriminate | reflexivity].
Qed.

Lemma generate_rethrows_witness :
  generateContentWithUrlContext
    {| API_KEY := Some (js "key");
       sdk := SdkThrows (ThrownError
                (js "API key not valid; quota is not checked")) |}
    (js "Q") [] []
  = ([EvGenerateContent (js "Q") [] []],
     Rejected (ThrownError
       (js "Invalid API Key. Please check your GEMINI_API_KEY environment variable."))).
Proof.
  destruct (generate_rethrows
              {| API_KEY := Some (js "key");
                 sdk := SdkThrows (ThrownError
                          (js "API key not valid; quota is not checked")) |}
              (js "Q") [] [] 107 (js "ey")
              (js "API key not valid; quota is not checked") eq_refl eq_refl)
    as (m & Hrun & _ & Hkey & _).
  rewrite Hrun, Hkey; reflexivity.
Defined.

(** ** Source links *)

(** X24.  When the candidate has grounding chunks, the source links of the
    response are the pages of the chunks that have one, in order, whatever
    URL metadata the candidate also carries; each counts as retrieved, so
    that the message shows no status badge on any of them. *)
Theorem grounded_links_have_no_badge (c : Candidate)
    (chunks : list GroundingChunk) :
  groundingChunks c = Some chunks ->
  exists items,
    extractUrlContextMetadata (Some c) = Some items
    /\ retrievedUrl <$> items = omap chunk_web chunks
    /\ Forall (fun meta => statusBadge meta = None) items.
Proof.
  intros Hc. unfold extractUrlContextMetadata. rewrite Hc.
  eexists. split; [reflexivity|]. clear Hc. split.
  - rewrite list_fmap_omap. apply list_omap_ext, Forall_Forall2_diag.
    apply Forall_forall. intros [[uri|]] _; reflexivity.
  - apply Forall_forall. intros meta Hmeta.
    apply list_elem_of_omap in Hmeta as ([[uri|]] & _ & Hitem);
      [|discriminate].
    injection Hitem as <-. reflexivity.
Qed.

Lemma grounded_links_have_no_badge_witness :
  exists items,
    extractUrlContextMetadata
      (Some {| groundingChunks :=
                 Some [ {| chunk_web := Some sampleUrl |};
                        {| chunk_web := None |} ];
               urlMetadata := Some [] |}) = Some items
    /\ retrievedUrl <$> items = [sampleUrl].
Proof.
  destruct (grounded_links_have_no_badge
              {| groundingChunks :=
                   Some [ {| chunk_web := Some sampleUrl |};
                          {| chunk_web := None |} ];
                 urlMetadata := Some [] |}
              [ {| chunk_web := Some sampleUrl |}; {| chunk_web := None |} ]
              eq_refl) as (items & Hrun & Hurls & _).
  exists items. split; [exact Hrun | exact Hurls].
Defined.

Lemma replaceFirst_unfold (pattern replacement s : jsstring) :
  replaceFirst pattern replacement s
  = if isPrefixOf pattern s then replacement ++ drop (length pattern) s
    else match s with
         | [] => []
         | c :: r => c :: replaceFirst pattern replacement r
         end.
Proof. destruct s; reflexivity. Qed.

Lemma replaceFirst_absent (pattern replacement : jsstring) :
  forall s, includes pattern s = false ->
            replaceFirst pattern replacement s = s.
Proof.
  induction s as [|c s IH]; intros H; rewrite includes_unfold in H;
    apply orb_false_iff in H as [Hp Hr]; rewrite replaceFirst_unfold, Hp;
    [reflexivity|].
  now rewrite (IH Hr).
Qed.

(** X25.  The badge of a source link that was not retrieved shows the
    status without its beginning [URL_RETRIEVAL_STATUS_]: what follows it
    when the status begins with it, and the status as it is when it does not
    have it at all. *)
Theorem statusBadge_strips_prefix (meta : UrlContextMetadataItem)
    (rest : jsstring) :
  (urlRetrievalStatus meta = js "URL_RETRIEVAL_STATUS_" ++ rest ->
   rest <> js "SUCCESS" ->
   statusBadge meta = Some rest)
  /\ (includes (js "URL_RETRIEVAL_STATUS_") (urlRetrievalStatus meta) = false ->
      statusBadge meta = Some (urlRetrievalStatus meta)).
Proof.
  unfold statusBadge, isSuccess, statusText. split.
  - intros Hst Hrest. rewrite Hst.
    rewrite bool_decide_eq_false_2.
    + rewrite replaceFirst_unfold, isPrefixOf_app, drop_app_length.
      reflexivity.
    + change (js "URL_RETRIEVAL_STATUS_SUCCESS")
        with (js "URL_RETRIEVAL_STATUS_" ++ js "SUCCESS").
      intros Heq. apply app_inv_head in Heq. contradiction.
  - intros Habsent. rewrite bool_decide_eq_false_2.
    + now rewrite replaceFirst_absent.
    + intros Heq. rewrite Heq in Habsent. vm_compute in Habsent. discriminate.
Qed.

Lemma statusBadge_strips_prefix_witness :
  statusBadge {| retrievedUrl := sampleUrl;
                 urlRetrievalStatus := js "URL_RETRIEVAL_STATUS_ERROR" |}
  = Some (js "ERROR").
Proof.
  destruct (statusBadge_strips_prefix
              {| retrievedUrl := sampleUrl;
                 urlRetrievalStatus := js "URL_RETRIEVAL_STATUS_ERROR" |}
              (js "ERROR")) as [Hstrip _].
  apply Hstrip; [reflexivity | discriminate].
Defined.

(** ** Suggested inquiries *)

(** X26.  [getInitialSuggestions] answers an empty list of URLs at once
    with its three standing suggestions, without key and without request.
    For URLs it is rejected exactly when the key is missing or empty, and
    then no request goes out; with the key set one request goes out, and an
    error of the SDK, whatever it is, is answered with the three fallback
    suggestions. *)
Theorem getInitialSuggestions_outcomes (env : GeminiEnv) (urls : list jsstring) :
  (urls = [] ->
   getInitialSuggestions env urls
   = ([], Resolved (stringifySuggestions noUrlSuggestions)))
  /\ ((exists e, (getInitialSuggestions env urls).2 = Rejected e)
      <-> urls <> [] /\ (API_KEY env = None \/ API_KEY env = Some []))
  /\ ((exists e, (getInitialSuggestions env urls).2 = Rejected e) ->
      (getInitialSuggestions env urls).1 = [])
  /\ (forall c key e,
        urls <> [] -> API_KEY env = Some (c :: key) -> sdk env = SdkThrows e ->
        getInitialSuggestions env urls
        = ([EvGenerateContent (suggestionsPrompt urls) [] []],
           Resolved (stringifySuggestions fallbackSuggestions))).
Proof.
  unfold getInitialSuggestions. split; [intros ->; reflexivity|].
  destruct urls as [|u urls].
  - split; [|split].
    + split; [intros [e He]; discriminate | intros [H _]; congruence].
    + intros [e He]. discriminate.
    + intros c key e H. congruence.
  - destruct (API_KEY env) as [[|c key]|]; simpl.
    + split; [split; [auto | eauto]|]. split; [reflexivity|]. discriminate.
    + split; [|split].
      * split; [|intros [_ [H|H]]; discriminate].
        intros [e He]. destruct (sdk env); discriminate.
      * intros [e He]. destruct (sdk env); discriminate.
      * intros c' key' e _ _ ->. reflexivity.
    + split; [split; [auto | eauto]|]. split; [reflexivity|]. discriminate.
Qed.

Lemma getInitialSuggestions_outcomes_witness :
  getInitialSuggestions quotaExceeded [sampleUrl]
  = ([EvGenerateContent (suggestionsPrompt [sampleUrl]) [] []],
     Resolved (stringifySuggestions fallbackSuggestions)).
Proof.
  destruct (getInitialSuggestions_outcomes quotaExceeded [sampleUrl])
    as (_ & _ & _ & Hfallback).
  apply (Hfallback 107 (js "ey") (ThrownError (js "429: quota exhausted")));
    [discriminate | reflexivity | reflexivity].
Defined.

Example stringify_fallback :
  stringifySuggestions [js "a"; js "b"]
  = js "{" ++ [34] ++ js "suggestions" ++ [34] ++ js ":[" ++ [34] ++ js "a"
    ++ [34] ++ js "," ++ [34] ++ js "b" ++ [34] ++ js "]}".
Proof. reflexivity. Qed.

(** ** The composer of the chat *)

Lemma readAttachments_result (files : list (File * ReaderOutcome)) :
  forall acc alerts,
    ((ChatInterface.readAttachments files acc alerts).2 = None
     \/ (ChatInterface.readAttachments files acc alerts).2
        = Some (acc ++ omap pdfLoaded files))
    /\ (Forall (fun fr => fr.2 <> ReaderUnsettled) files ->
        (ChatInterface.readAttachments files acc alerts).2
        = Some (acc ++ omap pdfLoaded files)).
Proof.
  induction files as [|[file r] files IH]; intros acc alerts.
  - simpl. rewrite app_nil_r. auto.
  - cbn [ChatInterface.readAttachments].
    change (omap pdfLoaded ((file, r) :: files))
      with (match pdfLoaded (file, r) with
            | Some y => y :: omap pdfLoaded files
            | None => omap pdfLoaded files
            end).
    destruct (decide (file_type file = js "application/pdf")) as [Hpdf|Hpdf].
    + rewrite (bool_decide_eq_true_2 _ Hpdf).
      destruct r as [header payload| |]; cbn [fileToBase64].
      * assert (pdfLoaded (file, ReaderLoad header payload)
                = Some {| att_name := file_name file;
                          att_mimeType := file_type file;
                          att_data := untilComma payload |}) as ->
          by (unfold pdfLoaded; cbn [fst snd];
              now rewrite (bool_decide_eq_true_2 _ Hpdf)).
        destruct (IH (acc ++ [ {| att_name := file_name file;
                                  att_mimeType := file_type file;
                                  att_data := untilComma payload |} ]) alerts)
          as [Hany Hall].
        rewrite <- (assoc_L (++)) in Hany. rewrite <- (assoc_L (++)) in Hall.
        split; [exact Hany|].
        intros Hs. apply Hall. now inversion Hs.
      * assert (pdfLoaded (file, ReaderError) = None) as ->
          by (unfold pdfLoaded; cbn [fst snd];
              now rewrite (bool_decide_eq_true_2 _ Hpdf)).
        destruct (IH acc alerts) as [Hany Hall]. split; [exact Hany|].
        intros Hs. apply Hall. now inversion Hs.
      * split; [now left|]. intros Hs. inversion Hs; subst. simpl in *.
        congruence.
    + rewrite (bool_decide_eq_false_2 _ Hpdf).
      assert (pdfLoaded (file, r) = None) as ->
        by (unfold pdfLoaded; cbn [fst snd];
            now rewrite (bool_decide_eq_false_2 _ Hpdf)).
      destruct (IH acc (alerts ++
                  [EvAlert (js "Only PDF files are supported. Skipped: "
                            ++ file_name file)])) as [Hany Hall].
      split; [exact Hany|]. intros Hs. apply Hall. now inversion Hs.
Qed.

Lemma pdfLoaded_isPdf (files : list (File * ReaderOutcome)) :
  Forall isPdf (omap pdfLoaded files).
Proof.
  apply Forall_forall. intros a Ha.
  apply list_elem_of_omap in Ha as ([file r] & _ & Hload).
  unfold pdfLoaded in Hload. simpl in Hload.
  case_bool_decide as Hpdf; [|discriminate].
  destruct r; try discriminate. injection Hload as <-. exact Hpdf.
Qed.

(** X27.  Choosing files for a turn keeps the query and the attachments
    that were there, and adds either nothing (a reader that is never settled
    holds the whole choice back) or, in the order of the choice, one
    attachment for every PDF whose reader has loaded, and that is what it
    adds when every reader is settled.  If all attachments were PDFs before,
    they all are after. *)
Theorem composer_adds_loaded_pdfs (files : list (File * ReaderOutcome))
    (c : ChatInterface.ComposerState) :
  let c' := (ChatInterface.handleFileSelect files c).2 in
  ChatInterface.userQuery c' = ChatInterface.userQuery c
  /\ (ChatInterface.attachments c' = ChatInterface.attachments c
      \/ ChatInterface.attachments c'
         = ChatInterface.attachments c ++ omap pdfLoaded files)
  /\ (Forall (fun fr => fr.2 <> ReaderUnsettled) files ->
      ChatInterface.attachments c'
      = ChatInterface.attachments c ++ omap pdfLoaded files)
  /\ (Forall isPdf (ChatInterface.attachments c) ->
      Forall isPdf (ChatInterface.attachments c')).
Proof.
  intros c'. subst c'. unfold ChatInterface.handleFileSelect.
  destruct (readAttachments_result files [] []) as [Hany Hall].
  destruct (ChatInterface.readAttachments files [] []) as [alerts [new|]];
    simpl in *.
  - destruct Hany as [Hany|Hany]; [discriminate|]. injection Hany as ->.
    split; [reflexivity|]. split; [now right|]. split; [reflexivity|].
    intros Hpdf. apply Forall_app. split; [exact Hpdf | apply pdfLoaded_isPdf].
  - split; [reflexivity|]. split; [now left|].
    split; [intros Hs; specialize (Hall Hs); discriminate | auto].
Qed.

Lemma composer_adds_loaded_pdfs_witness :
  ChatInterface.attachments
    (ChatInterface.handleFileSelect
       [ ({| file_name := js "notes.txt"; file_type := js "text/plain" |},
          ReaderLoad (js "data:text/plain;base64") (js "aGk="));
         (sampleUpload,
          ReaderLoad (js "data:application/pdf;base64") (js "JVBERi0xLjQK")) ]
       {| ChatInterface.userQuery := js "What applies?";
          ChatInterface.attachments := [] |}).2
  = [ {| att_name := js "reg.pdf"; att_mimeType := js "application/pdf";
         att_data := js "JVBERi0xLjQK" |} ].
Proof.
  destruct (composer_adds_loaded_pdfs
              [ ({| file_name := js "notes.txt"; file_type := js "text/plain" |},
                 ReaderLoad (js "data:text/plain;base64") (js "aGk="));
                (sampleUpload,
                 ReaderLoad (js "data:application/pdf;base64")
                   (js "JVBERi0xLjQK")) ]
              {| ChatInterface.userQuery := js "What applies?";
                 ChatInterface.attachments := [] |}) as (_ & _ & Hall & _).
  rewrite Hall; [reflexivity|]. repeat constructor; discriminate.
Defined.

Lemma filterOtherIndex_delete {A : Type} (index : nat) (l : list A) :
  forall i0,
    ((index < i0)%nat -> ChatInterface.filterOtherIndex index i0 l = l)
    /\ ((i0 <= index)%nat ->
        ChatInterface.filterOtherIndex index i0 l = delete (index - i0)%nat l).
Proof.
  induction l as [|x l IH]; intros i0; [split; reflexivity|].
  destruct (IH (S i0)) as [IHlt IHge]. simpl. split; intros Hi.
  - rewrite bool_decide_eq_true_2 by lia. now rewrite IHlt by lia.
  - destruct (decide (i0 = index)) as [-> | Hne].
    + rewrite bool_decide_eq_false_2 by lia.
      rewrite Nat.sub_diag. simpl. apply IHlt. lia.
    + rewrite bool_decide_eq_true_2 by assumption.
      replace (index - i0)%nat with (S (index - S i0)) by lia. simpl.
      now rewrite IHge by lia.
Qed.

(** X28.  [removeAttachment index] takes out the attachment at [index] and
    no other, and leaves the query alone: within the list there is one
    attachment less, past its end the composer stays as it is. *)
Theorem removeAttachment_deletes (index : nat) (c : ChatInterface.ComposerState) :
  ChatInterface.attachments (ChatInterface.removeAttachment index c)
  = delete index (ChatInterface.attachments c)
  /\ ChatInterface.userQuery (ChatInterface.removeAttachment index c)
     = ChatInterface.userQuery c
  /\ ((index < length (ChatInterface.attachments c))%nat ->
      S (length (ChatInterface.attachments
                   (ChatInterface.removeAttachment index c)))
      = length (ChatInterface.attachments c))
  /\ ((length (ChatInterface.attachments c) <= index)%nat ->
      ChatInterface.removeAttachment index c = c).
Proof.
  assert (ChatInterface.attachments (ChatInterface.removeAttachment index c)
          = delete index (ChatInterface.attachments c)) as Hdel.
  { simpl.
    rewrite (proj2 (filterOtherIndex_delete index
                      (ChatInterface.attachments c) 0%nat)) by lia.
    now rewrite Nat.sub_0_r. }
  split; [exact Hdel|]. split; [reflexivity|]. split.
  - intros Hi. rewrite Hdel, length_delete.
    + lia.
    + now apply lookup_lt_is_Some.
  - intros Hi. destruct c as [q atts]. unfold ChatInterface.removeAttachment.
    simpl in *. f_equal.
    rewrite (proj2 (filterOtherIndex_delete index atts 0%nat)) by lia.
    rewrite Nat.sub_0_r, delete_take_drop.
    rewrite take_ge, drop_ge by lia. apply app_nil_r.
Qed.

Lemma removeAttachment_deletes_witness :
  ChatInterface.removeAttachment 3
    {| ChatInterface.userQuery := js "What applies?";
       ChatInterface.attachments :=
         [ {| att_name := js "reg.pdf"; att_mimeType := js "application/pdf";
              att_data := js "JVBERi0xLjQK" |} ] |}
  = {| ChatInterface.userQuery := js "What applies?";
       ChatInterface.attachments :=
         [ {| att_name := js "reg.pdf"; att_mimeType := js "application/pdf";
              att_data := js "JVBERi0xLjQK" |} ] |}.
Proof.
  destruct (removeAttachment_deletes 3
              {| ChatInterface.userQuery := js "What applies?";
                 ChatInterface.attachments :=
                   [ {| att_name := js "reg.pdf";
                        att_mimeType := js "application/pdf";
                        att_data := js "JVBERi0xLjQK" |} ] |})
    as (_ & _ & _ & Hpast).
  apply Hpast. simpl. lia.
Defined.

(** ** The limit of the library *)

Lemma find_group_none (gid : jsstring) (groups : list URLGroup) :
  List.find (fun g => bool_decide (grp_id g = gid)) groups = None ->
  gid ∉ grp_id <$> groups.
Proof.
  intros Hnone Hin. destruct (find_group_present gid groups Hin) as [g Hg].
  congruence.
Qed.

Lemma activeSources_appended (x : ReferenceSource) (s s' : AppState) :
  activeUrlGroupId s' = activeUrlGroupId s ->
  urlGroups s' = appendToGroup (activeUrlGroupId s) x (urlGroups s) ->
  activeSources s' = activeSources s ++ [x] \/ activeSources s' = activeSources s.
Proof.
  intros Hact Hgroups. unfold activeSources, activeGroup.
  rewrite Hact, Hgroups, find_appendToGroup.
  destruct (List.find _ (urlGroups s)) as [g|] eqn:Hfind; simpl; [now left|].
  right. now rewrite (appendToGroup_absent _ _ _ (find_group_none _ _ Hfind)).
Qed.

(** X29.  An addition through the form never takes the active group beyond
    the limit: after [addUrlSource] or [addFileSource], however the upload
    ends, the active group has at most [MAX_ITEMS] descriptors, or as many
    as it had when it was already beyond. *)
Theorem adds_respect_capacity (parsesAsURL : jsstring -> bool) (now : N)
    (r36 : jsstring) (env : AddFileEnv) (files : list File) (f : FormState)
    (s : AppState) :
  (length (activeSources (addUrlSource parsesAsURL now r36 f s).2)
   <= MAX_ITEMS `max` length (activeSources s))%nat
  /\ (length (activeSources (stateOf (addFileSource env files f s).2))
      <= MAX_ITEMS `max` length (activeSources s))%nat.
Proof.
  split.
  - unfold addUrlSource, handleAddUrl.
    destruct (negb (truthy (trim (currentUrlInput f)))); simpl; [lia|].
    destruct (negb (isValidUrl parsesAsURL (currentUrlInput f))); simpl; [lia|].
    case_bool_decide as Hfull; simpl; [lia|].
    destruct (activeSources_appended
                (urlSource (freshId "src-" now r36) (currentUrlInput f)) s
                (handleAddSource now r36 (currentUrlInput f) s)
                eq_refl eq_refl) as [-> | ->];
      rewrite ?length_app; simpl; lia.
  - unfold addFileSource, handleFileSelect.
    destruct files as [|file rest]; simpl; [lia|].
    destruct (negb (bool_decide (file_type file = js "application/pdf")));
      simpl; [lia|].
    case_bool_decide as Hfull; simpl; [lia|].
    unfold handleAddPersistentFile.
    destruct (fileToBase64 (reader env)) as [base64| |];
      try (change (length (activeSources s)
                   <= MAX_ITEMS `max` length (activeSources s))%nat; lia).
    destruct (putOutcome env);
      try (change (length (activeSources s)
                   <= MAX_ITEMS `max` length (activeSources s))%nat; lia).
    simpl.
    match goal with
    | |- (length (activeSources ?s1) <= _)%nat =>
        destruct (activeSources_appended
                    (fileSource (freshId "file-" (addNow env) (addRandom env))
                       file) s s1 eq_refl eq_refl) as [-> | ->]
    end; rewrite ?length_app; simpl; lia.
Qed.

(** X30.  An addition that is turned away changes nothing in the
    application and tells the user: a link whose input is blank, or is not
    a URL, or comes when the active group is full, leaves the state and the
    typed input as they were; a file that is not a PDF, or comes when the
    group is full, is turned away before any work on the stores, and only
    the first of the chosen files counts. *)
Theorem rejected_adds_change_nothing (parsesAsURL : jsstring -> bool) (now : N)
    (r36 : jsstring) (env : AddFileEnv) (file : File) (rest : list File)
    (f : FormState) (s : AppState) :
  ((trim (currentUrlInput f) = []
    \/ parsesAsURL (currentUrlInput f) = false
    \/ (MAX_ITEMS <= length (activeSources s))%nat) ->
   (addUrlSource parsesAsURL now r36 f s).2 = s
   /\ is_Some (error (addUrlSource parsesAsURL now r36 f s).1)
   /\ currentUrlInput (addUrlSource parsesAsURL now r36 f s).1
      = currentUrlInput f)
  /\ ((file_type file <> js "application/pdf"
       \/ (MAX_ITEMS <= length (activeSources s))%nat) ->
      (addFileSource env (file :: rest) f s).2 = Finished s
      /\ is_Some (error (addFileSource env (file :: rest) f s).1))
  /\ addFileSource env (file :: rest) f s = addFileSource env [file] f s.
Proof.
  split; [|split; [|reflexivity]].
  - unfold addUrlSource, handleAddUrl, isValidUrl. intros Hrej.
    destruct (trim (currentUrlInput f)) as [|c t] eqn:Htrim; simpl; [eauto|].
    destruct (parsesAsURL (currentUrlInput f)) eqn:Hurl; simpl; [|eauto].
    destruct Hrej as [H | [H | H]]; [discriminate | discriminate |].
    rewrite bool_decide_eq_true_2 by assumption. simpl. eauto.
  - unfold addFileSource, handleFileSelect. intros Hrej.
    destruct (decide (file_type file = js "application/pdf")) as [Hpdf|Hpdf].
    + rewrite (bool_decide_eq_true_2 _ Hpdf). simpl.
      destruct Hrej as [H | H]; [contradiction|].
      rewrite bool_decide_eq_true_2 by assumption. simpl. eauto.
    + rewrite (bool_decide_eq_false_2 _ Hpdf). simpl. eauto.
Qed.

Lemma rejected_adds_change_nothing_witness :
  (addUrlSource sampleParser 1 (js "0.abc") (urlForm (js "   ")) sampleState).2
  = sampleState
  /\ (addFileSource sampleAddEnv
        [ {| file_name := js "notes.txt"; file_type := js "text/plain" |} ]
        (urlForm []) sampleState).2 = Finished sampleState.
Proof.
  destruct (rejected_adds_change_nothing sampleParser 1 (js "0.abc")
              sampleAddEnv
              {| file_name := js "notes.txt"; file_type := js "text/plain" |}
              [] (urlForm (js "   ")) sampleState) as (Hurl & Hfile & _).
  split.
  - apply Hurl. left. reflexivity.
  - apply Hfile. left. discriminate.
Defined.

(** ** Smaller facts about the forms *)

(** [handleSend] sends exactly when there is a query or an attachment and no
    turn is loading; it sends the query without the white space around it
    and clears the composer. *)
Lemma handleSend_guard (loading : bool) (c : ChatInterface.ComposerState) :
  ((ChatInterface.handleSend loading c).2 = None
   <-> loading = true
       \/ (trim (ChatInterface.userQuery c) = []
           /\ ChatInterface.attachments c = []))
  /\ (forall sent,
        (ChatInterface.handleSend loading c).2 = Some sent ->
        sent = (trim (ChatInterface.userQuery c), ChatInterface.attachments c)
        /\ (ChatInterface.handleSend loading c).1
           = {| ChatInterface.userQuery := [];
                ChatInterface.attachments := [] |}).
Proof.
  unfold ChatInterface.handleSend.
  destruct (trim (ChatInterface.userQuery c)) as [|ch t];
    destruct (ChatInterface.attachments c) as [|a l];
    destruct loading; simpl; split;
    try (split; [intros; auto; discriminate | intros [H | [H1 H2]]; congruence]);
    try (intros sent [= <-]; auto); try discriminate.
  all: split; [discriminate | intros [H | [H1 H2]]; congruence].
Qed.

(** The parts of the request: one inline part for every attachment, in
    order, and the text last. *)
Lemma requestParts_shape (prompt : jsstring) (urls : list jsstring)
    (files : list FileAttachment) :
  length (requestParts prompt urls files) = S (length files)
  /\ last (requestParts prompt urls files)
     = Some (TextPart (fullPrompt prompt urls files))
  /\ (forall i file, files !! i = Some file ->
        requestParts prompt urls files !! i
        = Some (InlineData (att_data file) (att_mimeType file))).
Proof.
  unfold requestParts. split; [|split].
  - rewrite length_app, length_fmap. simpl. lia.
  - apply last_snoc.
  - intros i file Hfile. rewrite lookup_app_l.
    + now rewrite list_lookup_fmap, Hfile.
    + rewrite length_fmap. now apply lookup_lt_Some in Hfile.
Qed.

(** Opening the editor on a descriptor and leaving it again changes nothing
    but the two editing fields; saving at once renames to the trimmed
    title. *)
Lemma editing_round_trip (d : ReferenceSource) (f : FormState) :
  cancelEditing (startEditing d f) = cancelEditing f
  /\ (src_id d <> [] -> trim (src_title d) <> [] ->
      (saveEditing (startEditing d f)).2
      = Some (OnRenameSource (src_id d) (trim (src_title d)))).
Proof.
  split; [reflexivity|]. intros Hid Ht. unfold saveEditing, startEditing. simpl.
  destruct (src_id d) as [|c id]; [congruence|].
  destruct (trim (src_title d)); [congruence | reflexivity].
Qed.
